(** * linear-cli-agents: label reconciliation, bulk commands, config store

    A shallow embedding of the parts of the CLI that carry invariants:
    - the label arithmetic of [issues bulk-label], [issues add-labels] and
      [issues remove-labels];
    - the parsing of the [--ids] flag and the promise pools of
      [issues bulk-update] and [issues bulk-label];
    - the identifier resolver (its source file is not part of the tree, so
      it is modelled from the specification);
    - [writeConfig] of [lib/config.ts] over a small file-system model, and
      on top of it the rest of the config library with [config set],
      [config get] and [config list];
    - the input that [issues create] and [projects create] build from their
      flags, and [truncate] of the formatter. *)

From Stdlib Require Import Ascii String.
From stdpp Require Import base numbers option list strings pretty gmap.

Set Default Proof Using "Type".

(** ** JavaScript strings

    A JavaScript string is a finite sequence of UTF-16 code units; two
    strings are equal ([===], [Array.prototype.includes]) when they hold the
    same code units. *)

Abbreviation jsstring := (list N).

(** The code units of a literal whose characters are below U+0100. *)
Definition js (s : string) : jsstring :=
  (λ a, N_of_ascii a) <$> list_ascii_of_string s.

(** Truthiness of a string: only the empty string is falsy. *)
Definition truthy (s : jsstring) : bool :=
  match s with [] => false | _ :: _ => true end.

(** [cond ? value : undefined] with [cond] being [value.length > 0]. *)
Definition nonempty_or_undefined {A} (l : list A) : option (list A) :=
  match l with [] => None | _ :: _ => Some l end.

(** The labels a possibly missing field stands for. *)
Definition reported {A} (o : option (list A)) : list A := default [] o.

(** [String.prototype.split] with a separator of one code unit: the pieces
    between the occurrences of the separator, so the empty string splits
    into one empty piece. *)
Fixpoint split (sep : N) (s : jsstring) : list jsstring :=
  match s with
  | [] => [[]]
  | c :: s' =>
      if decide (c = sep) then [] :: split sep s'
      else match split sep s' with
           | [] => [[c]]
           | piece :: pieces => (c :: piece) :: pieces
           end
  end.

Definition comma : N := 44.

(** The code units [String.prototype.trim] strips: ECMAScript WhiteSpace
    (TAB, VT, FF, SP, NBSP, ZWNBSP and the Unicode space separators) and
    LineTerminator (LF, CR, LS, PS). *)
Definition is_trimmed (c : N) : bool :=
  bool_decide (c ∈ [9; 10; 11; 12; 13; 32; 160; 5760; 8232; 8233; 8239; 8287;
                    12288; 65279]%N)
  || (8192 <=? c)%N && (c <=? 8202)%N.

Fixpoint trimStart (s : jsstring) : jsstring :=
  match s with
  | c :: s' => if is_trimmed c then trimStart s' else s
  | [] => []
  end.

Definition trimEnd (s : jsstring) : jsstring := reverse (trimStart (reverse s)).

Definition trim (s : jsstring) : jsstring := trimEnd (trimStart s).

(** [flag.split(',').map((id) => id.trim())]. *)
Definition split_trim (flag : jsstring) : list jsstring := trim <$> split comma flag.

(** The number of code units of [s] equal to [sep]. *)
Definition occurrences (sep : N) (s : jsstring) : nat :=
  length (filter (λ c, c = sep) s).

(** Neither end of the string is a code unit that [trim] strips. *)
Definition trimmed (s : jsstring) : Prop :=
  from_option is_trimmed false (head s) = false
  ∧ from_option is_trimmed false (last s) = false.

(** ** Label arithmetic *)

Module Labels.

(** [issues bulk-label]:
    [addLabelIds.filter((id) => !existingLabelIds.includes(id))]. *)
Definition labelsToAdd (addLabelIds existingLabelIds : list jsstring)
  : list jsstring :=
  filter (λ id, id ∉ existingLabelIds) addLabelIds.

(** [removeLabelIds.filter((id) => existingLabelIds.includes(id))]. *)
Definition labelsToRemove (removeLabelIds existingLabelIds : list jsstring)
  : list jsstring :=
  filter (λ id, id ∈ existingLabelIds) removeLabelIds.

(** [[...existingLabelIds.filter((id) => !removeLabelIds.includes(id)),
     ...labelsToAdd]]. *)
Definition newLabelIds (addLabelIds removeLabelIds existingLabelIds : list jsstring)
  : list jsstring :=
  filter (λ id, id ∉ removeLabelIds) existingLabelIds
    ++ labelsToAdd addLabelIds existingLabelIds.

(** [new Set(iterable)] followed by a spread: the elements in order of
    first insertion. *)
Definition set_add (acc : list jsstring) (x : jsstring) : list jsstring :=
  if decide (x ∈ acc) then acc else acc ++ [x].

Definition spread_of_set (l : list jsstring) : list jsstring :=
  foldl set_add [] l.

(** [issues add-labels]:
    [[...new Set([...existingLabelIds, ...newLabelIds])]]. *)
Definition combinedLabelIds (existingLabelIds newIds : list jsstring)
  : list jsstring :=
  spread_of_set (existingLabelIds ++ newIds).

(** [issues add-labels]: the [labelsAdded] field. *)
Definition labelsAdded (newIds existingLabelIds : list jsstring) : list jsstring :=
  filter (λ id, id ∉ existingLabelIds) newIds.

(** [issues remove-labels]:
    [existingLabelIds.filter((id) => !labelIdsToRemove.includes(id))]. *)
Definition remainingLabelIds (labelIdsToRemove existingLabelIds : list jsstring)
  : list jsstring :=
  filter (λ id, id ∉ labelIdsToRemove) existingLabelIds.

(** [issues remove-labels]: the [labelsRemoved] field. *)
Definition labelsRemoved (labelIdsToRemove existingLabelIds : list jsstring)
  : list jsstring :=
  filter (λ id, id ∈ existingLabelIds) labelIdsToRemove.

(** The reconciliation the specification describes, on sets:
    [(current − toRemove) ∪ toAdd]. *)
Definition spec_finalSet (current toAdd toRemove : gset jsstring) : gset jsstring :=
  (current ∖ toRemove) ∪ toAdd.

End Labels.

(** ** Errors *)

(** The codes of [ErrorCodes] that the commands refer to. *)
Inductive ErrorCode :=
  | INVALID_INPUT | NOT_FOUND | API_ERROR | CONFIG_ERROR
  | NOT_AUTHENTICATED | MISSING_REQUIRED_FIELD.

Record CliError := { code : ErrorCode; message : jsstring }.

(** What a [catch (err)] clause may receive: an [Error] object with its
    message, or any other value. *)
Inductive Thrown :=
  | ErrorObject (msg : jsstring)
  | OtherValue.

(** [err instanceof Error ? err.message : 'Unknown error']. *)
Definition error_message (err : Thrown) : jsstring :=
  match err with
  | ErrorObject msg => msg
  | OtherValue => js "Unknown error"
  end.

(** ** Async functions and promise pools

    The body of an async arrow function is a tree: it returns, throws,
    pushes onto the shared [results] array, or awaits a call and resumes
    with what the call settled to. *)

Inductive Settled (T : Type) :=
  | Fulfilled (v : T)
  | Rejected (err : Thrown).
Arguments Fulfilled {T} v.
Arguments Rejected {T} err.

Section Async.
Context {Call : Type → Type} {Res : Type}.

Inductive Async (A : Type) : Type :=
  | Return (a : A)
  | Throw (err : Thrown)
  | Push (r : Res) (k : Async A)
  | Await {T : Type} (c : Call T) (k : Settled T → Async A).
Global Arguments Return {A} a.
Global Arguments Throw {A} err.
Global Arguments Push {A} r k.
Global Arguments Await {A T} c k.

Fixpoint bind {A B} (m : Async A) (f : A → Async B) : Async B :=
  match m with
  | Return a => f a
  | Throw err => Throw err
  | Push r k => Push r (bind k f)
  | Await c k => Await c (λ s, bind (k s) f)
  end.

(** [try { body } catch (err) { handler }]. *)
Fixpoint try_catch {A} (body : Async A) (handler : Thrown → Async A) : Async A :=
  match body with
  | Return a => Return a
  | Throw err => handler err
  | Push r k => Push r (try_catch k handler)
  | Await c k => Await c (λ s, try_catch (k s) handler)
  end.

(** [await call]: the value, or the rejection rethrown. *)
Definition await {T} (c : Call T) : Async T :=
  Await c (λ s, match s with
                | Fulfilled v => Return v
                | Rejected err => Throw err
                end).

(** [results.push(r)]. *)
Definition push (r : Res) : Async unit := Push r (Return tt).

(** The tasks of one [Promise.all], and the shared [results] array. Every
    entry of the array carries the index of the task that pushed it; the
    index is bookkeeping of the model, the program sees [snd <$> results]. *)
Record Pool (A : Type) := MkPool {
  tasks : list (Async A);
  results : list (nat * Res);
}.
Global Arguments MkPool {A} tasks results.
Global Arguments tasks {A} p.
Global Arguments results {A} p.

(** Task [i] runs without interruption up to its next [await]. *)
Fixpoint run_sync {A} (i : nat) (t : Async A) (rs : list (nat * Res))
  : Async A * list (nat * Res) :=
  match t with
  | Push r k => run_sync i k (rs ++ [(i, r)])
  | _ => (t, rs)
  end.

(** [items.map(async (item) => ...)]: the callback is called on the items
    in order, each call running up to its first [await]. *)
Fixpoint spawn_from {A} (i : nat) (ts : list (Async A)) (rs : list (nat * Res))
  : Pool A :=
  match ts with
  | [] => MkPool [] rs
  | t :: ts' =>
      let p := spawn_from (S i) ts' (run_sync i t rs).2 in
      MkPool ((run_sync i t rs).1 :: tasks p) (results p)
  end.

Definition spawn {A} (ts : list (Async A)) (rs : list (nat * Res)) : Pool A :=
  spawn_from 0 ts rs.

(** One turn of the event loop: the call some task awaits settles, in any
    way, and the task resumes up to its next [await]. *)
Inductive step {A} (p : Pool A) : Pool A → Prop :=
  | step_settle i T (c : Call T) k (s : Settled T) :
      tasks p !! i = Some (Await c k) →
      step p (MkPool (<[i := (run_sync i (k s) (results p)).1]> (tasks p))
                     (run_sync i (k s) (results p)).2).

Definition steps {A} : Pool A → Pool A → Prop := rtc step.

(** [Promise.all] fulfils with the tasks' values, in the order of the
    tasks, once all of them have returned. *)
Definition fulfilled {A} (p : Pool A) (vs : list A) : Prop :=
  tasks p = Return <$> vs.

(** [Promise.all] rejects when a task throws. *)
Definition rejected {A} (p : Pool A) (err : Thrown) : Prop :=
  ∃ i, tasks p !! i = Some (Throw err).

(** A deterministic event loop for running examples: [world] says how the
    call of task [i] settles, [schedule] lists the tasks to resume. *)
Definition settle_at {A} (world : ∀ T, nat → Call T → Settled T)
    (p : Pool A) (i : nat) : Pool A :=
  match tasks p !! i with
  | Some (Await c k) =>
      MkPool (<[i := (run_sync i (k (world _ i c)) (results p)).1]> (tasks p))
             (run_sync i (k (world _ i c)) (results p)).2
  | _ => p
  end.

Definition drive {A} (world : ∀ T, nat → Call T → Settled T)
    (schedule : list nat) (p : Pool A) : Pool A :=
  foldl (settle_at world) p schedule.

(** What happens along a run of one task: a call settles, or the task
    pushes a result. *)
Inductive Event :=
  | Settle {T : Type} (c : Call T) (s : Settled T)
  | Pushed (r : Res).

(** [traces t tr t']: task [t], going through the events [tr], becomes
    [t']. *)
Fixpoint traces {A} (t : Async A) (tr : list Event) (t' : Async A) : Prop :=
  (tr = [] ∧ t' = t)
  ∨ match t with
    | Push r k => ∃ tr', tr = Pushed r :: tr' ∧ traces k tr' t'
    | Await c k => ∃ s tr', tr = Settle c s :: tr' ∧ traces (k s) tr' t'
    | _ => False
    end.

(** What an event threw into the task, if it is a rejected call. *)
Definition rejection (e : Event) : option Thrown :=
  match e with
  | Settle _ (Rejected err) => Some err
  | _ => None
  end.

(** The results pushed along a run, in order. *)
Definition pushed (tr : list Event) : list Res :=
  omap (λ e, match e with Pushed r => Some r | Settle _ _ => None end) tr.

(** The results of the shared array that task [i] pushed, in order. *)
Definition pushed_by (i : nat) (rs : list (nat * Res)) : list Res :=
  snd <$> filter (λ e, e.1 = i) rs.

(** The task has returned or thrown. *)
Definition finished {A} (t : Async A) : Prop :=
  match t with Return _ | Throw _ => True | _ => False end.

(** The task is suspended at an [await], or finished. *)
Definition suspended {A} (t : Async A) : Prop :=
  match t with Push _ _ => False | _ => True end.

(** [owes n t]: however the calls settle, [t] pushes exactly [n] results
    and then returns; in particular it never throws. *)
Fixpoint owes {A} (n : nat) (t : Async A) : Prop :=
  match t with
  | Return _ => n = 0
  | Throw _ => False
  | Push _ k => match n with 0 => False | S m => owes m k end
  | Await _ k => ∀ s, owes n (k s)
  end.

(** [awaits_le n t]: however the calls settle, [t] awaits at most [n]
    times. *)
Fixpoint awaits_le {A} (n : nat) (t : Async A) : Prop :=
  match t with
  | Return _ | Throw _ => True
  | Push _ k => awaits_le n k
  | Await _ k => match n with 0 => False | S m => ∀ s, awaits_le m (k s) end
  end.

(** [projects ts rs p]: in pool [p], started from the tasks [ts] and the
    array [rs], every task has become what a run of that task alone
    leads to, and has pushed what that run pushes. *)
Definition projects {A} (ts : list (Async A)) (rs : list (nat * Res))
    (p : Pool A) : Prop :=
  length (tasks p) = length ts
  ∧ (∀ j t0, ts !! j = Some t0 →
       ∃ t tr, tasks p !! j = Some t ∧ suspended t ∧ traces t0 tr t
               ∧ pushed_by j (results p) = pushed_by j rs ++ pushed tr)
  ∧ (∀ e, e ∈ results p → e ∈ rs ∨ e.1 < length ts).

End Async.

Global Arguments Async : clear implicits.
Global Arguments Pool : clear implicits.

Global Instance async_ret {Call Res} : MRet (Async Call Res) := λ A a, Return a.
Global Instance async_bind {Call Res} : MBind (Async Call Res) := λ A B f m, bind m f.

(** ** The remote API, as the commands see it *)

(** An issue object of the SDK: the fields the commands read. *)
Record Issue := { issue_id : jsstring; issue_identifier : jsstring }.

Record IssueLabel := { label_id : jsstring }.

(** [IssueUpdateInput]: an absent key is [None]; [assigneeId] may be
    present and [null]. *)
Record IssueUpdateInput := {
  stateId : option jsstring;
  priority : option Z;
  assigneeId : option (option jsstring);
  projectId : option jsstring;
  estimate : option Z;
  labelIds : option (list jsstring);
}.

Definition empty_input : IssueUpdateInput :=
  {| stateId := None; priority := None; assigneeId := None;
     projectId := None; estimate := None; labelIds := None |}.

(** The payload of an update mutation; its [issue] is fetched lazily. *)
Record IssuePayload := { payload_success : bool; payload_ref : N }.

(** The calls a command awaits, indexed by what they fulfil with. *)
Inductive Call : Type → Type :=
  | ResolveIssueId (identifier : jsstring) : Call jsstring
  | ClientIssue (issueId : jsstring) : Call (option Issue)
  | IssueLabels (issue : Issue) : Call (list IssueLabel)
  | UpdateIssue (issueId : jsstring) (input : IssueUpdateInput) : Call IssuePayload
  | PayloadIssue (payload : IssuePayload) : Call (option Issue).

(** ** [issues bulk-label] *)

Module BulkLabel.

Record LabelResult := {
  identifier : jsstring;
  id : jsstring;
  success : bool;
  labelsAdded : option (list jsstring);
  labelsRemoved : option (list jsstring);
  error : option jsstring;
}.

Record Flags := {
  ids : jsstring;
  add_labels : option jsstring;
  remove_labels : option jsstring;
}.

(** [flags['add-labels']?.split(',').map((id) => id.trim()) ?? []]. *)
Definition addLabelIds (flags : Flags) : list jsstring :=
  default [] (split_trim <$> add_labels flags).

Definition removeLabelIds (flags : Flags) : list jsstring :=
  default [] (split_trim <$> remove_labels flags).

Definition identifiers (flags : Flags) : list jsstring := split_trim (ids flags).

Definition no_label_operations : CliError :=
  {| code := INVALID_INPUT;
     message := js "No label operations specified. Use --add-labels and/or --remove-labels" |}.

Definition no_issue_ids : CliError :=
  {| code := INVALID_INPUT; message := js "No issue IDs provided" |}.

(** The checks of [run] before any request is made. *)
Definition validate (flags : Flags) : option CliError :=
  if (length (addLabelIds flags) =? 0) && (length (removeLabelIds flags) =? 0)
  then Some no_label_operations
  else if length (identifiers flags) =? 0 then Some no_issue_ids
  else None.

Definition failure (identifier id msg : jsstring) : LabelResult :=
  {| identifier := identifier; id := id; success := false;
     labelsAdded := None; labelsRemoved := None; error := Some msg |}.

(** The result pushed after a successful update. *)
Definition updated (identifier issueId : jsstring) (updatedIssue : option Issue)
    (labelsToAdd labelsToRemove : list jsstring) : LabelResult :=
  {| identifier := default identifier (issue_identifier <$> updatedIssue);
     id := issueId;
     success := true;
     labelsAdded := nonempty_or_undefined labelsToAdd;
     labelsRemoved := nonempty_or_undefined labelsToRemove;
     error := None |}.

(** The callback of [identifiers.map(async (identifier) => ...)]. *)
Definition label_task (addLabelIds removeLabelIds : list jsstring)
    (identifier : jsstring) : Async Call LabelResult unit :=
  try_catch
    (issueId ← await (ResolveIssueId identifier);
     issue ← await (ClientIssue issueId);
     match issue with
     | None => push (failure identifier issueId (js "Issue not found"))
     | Some issue =>
         existingLabels ← await (IssueLabels issue);
         let existingLabelIds := label_id <$> (existingLabels : list IssueLabel) in
         let labelsToAdd := Labels.labelsToAdd addLabelIds existingLabelIds in
         let labelsToRemove := Labels.labelsToRemove removeLabelIds existingLabelIds in
         let newLabelIds :=
           Labels.newLabelIds addLabelIds removeLabelIds existingLabelIds in
         payload ← await (UpdateIssue issueId
                            {| stateId := None; priority := None; assigneeId := None;
                               projectId := None; estimate := None;
                               labelIds := Some newLabelIds |});
         if negb (payload_success payload)
         then push (failure identifier issueId (js "Failed to update labels"))
         else
           updatedIssue ← await (PayloadIssue payload);
           push (updated identifier issueId updatedIssue labelsToAdd labelsToRemove)
     end)
    (λ err, push (failure identifier [] (error_message err))).

Record Summary := {
  totalRequested : nat;
  successCount : nat;
  failedCount : nat;
  labelsToAdd : option (list jsstring);
  labelsToRemove : option (list jsstring);
  summary_results : list LabelResult;
}.

(** The object handed to [print(success(...))]. *)
Definition summary (flags : Flags) (results : list LabelResult) : Summary :=
  {| totalRequested := length (identifiers flags);
     successCount := length (filter (λ r, success r) results);
     failedCount := length (filter (λ r, ¬ success r) results);
     labelsToAdd := nonempty_or_undefined (addLabelIds flags);
     labelsToRemove := nonempty_or_undefined (removeLabelIds flags);
     summary_results := results |}.

(** The pool of [Promise.all(identifiers.map(...))], [results] being empty. *)
Definition pool (addLabelIds removeLabelIds identifiers : list jsstring)
  : Pool Call LabelResult unit :=
  spawn (label_task addLabelIds removeLabelIds <$> identifiers) [].

Inductive Outcome :=
  | Printed (s : Summary)
  | Handled (e : CliError)
  | HandledThrown (err : Thrown).

(** [run]: what the command ends with, for some behaviour of the API and
    some order of completion. *)
Inductive run (flags : Flags) : Outcome → Prop :=
  | run_invalid e :
      validate flags = Some e → run flags (Handled e)
  | run_printed p vs :
      validate flags = None →
      steps (pool (addLabelIds flags) (removeLabelIds flags) (identifiers flags)) p →
      fulfilled p vs →
      run flags (Printed (summary flags (snd <$> results p)))
  | run_rejected p err :
      validate flags = None →
      steps (pool (addLabelIds flags) (removeLabelIds flags) (identifiers flags)) p →
      rejected p err →
      run flags (HandledThrown err).

End BulkLabel.

(** ** [issues bulk-update] *)

Module BulkUpdate.

Record UpdateResult := {
  identifier : jsstring;
  id : jsstring;
  success : bool;
  error : option jsstring;
}.

Record Flags := {
  ids : jsstring;
  state_id : option jsstring;
  flag_priority : option Z;
  assignee_id : option jsstring;
  project_id : option jsstring;
  flag_estimate : option Z;
  label_ids : option jsstring;
}.

(** [if (flag) ...]: the flag, when it is given and not empty. *)
Definition given (flag : option jsstring) : option jsstring :=
  s ← flag; if truthy s then Some s else None.

(** The update input built from the flags. *)
Definition input (flags : Flags) : IssueUpdateInput :=
  {| stateId := given (state_id flags);
     priority := flag_priority flags;
     assigneeId := (λ s, if truthy s then Some s else None) <$> assignee_id flags;
     projectId := given (project_id flags);
     estimate := flag_estimate flags;
     labelIds := split_trim <$> given (label_ids flags) |}.

Definition key {A} (name : string) (field : option A) : list jsstring :=
  match field with Some _ => [js name] | None => [] end.

(** [Object.keys(input)]. *)
Definition keys (i : IssueUpdateInput) : list jsstring :=
  key "stateId" (stateId i) ++ key "priority" (priority i)
    ++ key "assigneeId" (assigneeId i) ++ key "projectId" (projectId i)
    ++ key "estimate" (estimate i) ++ key "labelIds" (labelIds i).

Definition identifiers (flags : Flags) : list jsstring := split_trim (ids flags).

Definition no_update_fields : CliError :=
  {| code := INVALID_INPUT;
     message := js "No update fields provided. Use at least one of: --state-id, --priority, --assignee-id, --project-id, --estimate, --label-ids" |}.

Definition no_issue_ids : CliError :=
  {| code := INVALID_INPUT; message := js "No issue IDs provided" |}.

(** The checks of [run] before any request is made. *)
Definition validate (flags : Flags) : option CliError :=
  if length (keys (input flags)) =? 0 then Some no_update_fields
  else if length (identifiers flags) =? 0 then Some no_issue_ids
  else None.

(** An element of [resolvedIds]: [id] or [error] is [null]. *)
Record Resolved := {
  resolved_identifier : jsstring;
  resolved_id : option jsstring;
  resolved_error : option jsstring;
}.

(** The callback of the first [Promise.all]. *)
Definition resolve_task (identifier : jsstring)
  : Async Call UpdateResult Resolved :=
  try_catch
    (id ← await (ResolveIssueId identifier);
     mret {| resolved_identifier := identifier; resolved_id := Some id;
             resolved_error := None |})
    (λ err,
       mret {| resolved_identifier := identifier; resolved_id := None;
               resolved_error := Some (error_message err) |}).

Definition failure (identifier id msg : jsstring) : UpdateResult :=
  {| identifier := identifier; id := id; success := false; error := Some msg |}.

(** The result pushed under [if (error || !id)]:
    [id: id ?? ''] and [error: error ?? 'Failed to resolve issue ID']. *)
Definition unresolved (r : Resolved) : UpdateResult :=
  failure (resolved_identifier r) (default [] (resolved_id r))
          (default (js "Failed to resolve issue ID") (resolved_error r)).

(** The callback of the second [Promise.all]. *)
Definition update_task (input : IssueUpdateInput) (r : Resolved)
  : Async Call UpdateResult unit :=
  match resolved_id r with
  | None => push (unresolved r)
  | Some id =>
      if from_option truthy false (resolved_error r) || negb (truthy id)
      then push (unresolved r)
      else
        try_catch
          (payload ← await (UpdateIssue id input);
           issue ← await (PayloadIssue payload);
           match issue with
           | None =>
               push (failure (resolved_identifier r) id (js "Failed to update issue"))
           | Some issue =>
               push {| identifier := issue_identifier issue; id := issue_id issue;
                       success := true; error := None |}
           end)
          (λ err, push (failure (resolved_identifier r) id (error_message err)))
  end.

Record Summary := {
  totalRequested : nat;
  successCount : nat;
  failedCount : nat;
  summary_results : list UpdateResult;
  updatedFields : list jsstring;
}.

(** The object handed to [print(success(...))]. *)
Definition summary (flags : Flags) (results : list UpdateResult) : Summary :=
  {| totalRequested := length (identifiers flags);
     successCount := length (filter (λ r, success r) results);
     failedCount := length (filter (λ r, ¬ success r) results);
     summary_results := results;
     updatedFields := keys (input flags) |}.

(** The pool of the first [Promise.all]; [results] is still empty. *)
Definition resolving (identifiers : list jsstring) : Pool Call UpdateResult Resolved :=
  spawn (resolve_task <$> identifiers) [].

(** The pool of the second [Promise.all], over [resolvedIds]. *)
Definition updating (input : IssueUpdateInput) (resolvedIds : list Resolved)
    (results : list (nat * UpdateResult)) : Pool Call UpdateResult unit :=
  spawn (update_task input <$> resolvedIds) results.

(** Both pools in sequence, on a list of identifiers: the second pool
    starts when the first has fulfilled. *)
Inductive batch (input : IssueUpdateInput) (identifiers : list jsstring)
    : Pool Call UpdateResult unit → Prop :=
  | batch_intro p1 resolvedIds p2 :
      steps (resolving identifiers) p1 →
      fulfilled p1 resolvedIds →
      steps (updating input resolvedIds (results p1)) p2 →
      batch input identifiers p2.

Inductive Outcome :=
  | Printed (s : Summary)
  | Handled (e : CliError)
  | HandledThrown (err : Thrown).

(** [run]: what the command ends with, for some behaviour of the API and
    some order of completion. *)
Inductive run (flags : Flags) : Outcome → Prop :=
  | run_invalid e :
      validate flags = Some e → run flags (Handled e)
  | run_printed p vs :
      validate flags = None →
      batch (input flags) (identifiers flags) p →
      fulfilled p vs →
      run flags (Printed (summary flags (snd <$> results p)))
  | run_rejected_resolving p err :
      validate flags = None →
      steps (resolving (identifiers flags)) p →
      rejected p err →
      run flags (HandledThrown err)
  | run_rejected_updating p err :
      validate flags = None →
      batch (input flags) (identifiers flags) p →
      rejected p err →
      run flags (HandledThrown err).

End BulkUpdate.

(** ** A remote API to run examples against *)

Module Demo.

(** Identifiers other than [not-a-real-id] resolve; every issue carries
    the labels [L1] and [L2]; every update succeeds, and the issue of the
    payload of task [i] is [ENG-(i+1)]. *)
Definition world (T : Type) (i : nat) (c : Call T) : Settled T :=
  match c in Call T return Settled T with
  | ResolveIssueId identifier =>
      if decide (identifier = js "not-a-real-id")
      then Rejected (ErrorObject (js "Issue not-a-real-id not found"))
      else Fulfilled (js "id-of-" ++ identifier)
  | ClientIssue issueId =>
      Fulfilled (Some {| issue_id := issueId; issue_identifier := drop 6 issueId |})
  | IssueLabels issue =>
      Fulfilled [{| label_id := js "L1" |}; {| label_id := js "L2" |}]
  | UpdateIssue issueId input =>
      Fulfilled {| payload_success := true; payload_ref := N.of_nat i |}
  | PayloadIssue payload =>
      Fulfilled (Some {| issue_id := js "id-of-ENG-" ++ js (pretty (S i));
                         issue_identifier := js "ENG-" ++ js (pretty (S i)) |})
  end.

(** Every task is resumed in turn, [rounds] times over. *)
Definition round_robin (n rounds : nat) : list nat :=
  mjoin (replicate rounds (seq 0 n)).

(** Later tasks are resumed first. *)
Definition backwards (n rounds : nat) : list nat :=
  mjoin (replicate rounds (reverse (seq 0 n))).

(** [issues bulk-update --ids "ENG-1, ENG-2,not-a-real-id" --state-id STATE_ID]. *)
Definition update_flags : BulkUpdate.Flags :=
  {| BulkUpdate.ids := js "ENG-1, ENG-2,not-a-real-id";
     BulkUpdate.state_id := Some (js "STATE_ID");
     BulkUpdate.flag_priority := None;
     BulkUpdate.assignee_id := None;
     BulkUpdate.project_id := None;
     BulkUpdate.flag_estimate := None;
     BulkUpdate.label_ids := None |}.

Definition resolved_pool : Pool Call BulkUpdate.UpdateResult BulkUpdate.Resolved :=
  drive world (round_robin 3 1)
    (BulkUpdate.resolving (BulkUpdate.identifiers update_flags)).

Definition resolvedIds : list BulkUpdate.Resolved :=
  omap (λ t, match t with Return r => Some r | _ => None end) (tasks resolved_pool).

Definition updated_pool : Pool Call BulkUpdate.UpdateResult unit :=
  drive world (backwards 3 2)
    (BulkUpdate.updating (BulkUpdate.input update_flags) resolvedIds
       (results resolved_pool)).

(** [issues bulk-label --ids ENG-1,ENG-1 --add-labels L2,L3 --remove-labels L1]. *)
Definition label_flags : BulkLabel.Flags :=
  {| BulkLabel.ids := js "ENG-1,ENG-1";
     BulkLabel.add_labels := Some (js "L2,L3");
     BulkLabel.remove_labels := Some (js "L1") |}.

Definition labelled_pool : Pool Call BulkLabel.LabelResult unit :=
  drive world (backwards 2 5)
    (BulkLabel.pool (BulkLabel.addLabelIds label_flags)
       (BulkLabel.removeLabelIds label_flags) (BulkLabel.identifiers label_flags)).

End Demo.

(** ** The identifier resolver *)

Module Resolver.

(** [lib/issue-utils], which defines [resolveIssueId], is not in the tree:
    this module follows the specification of the identifier resolver. *)

Definition is_digit (c : N) : bool := (48 <=? c)%N && (c <=? 57)%N.
Definition is_upper (c : N) : bool := (65 <=? c)%N && (c <=? 90)%N.
Definition is_lower (c : N) : bool := (97 <=? c)%N && (c <=? 122)%N.
Definition is_hex (c : N) : bool :=
  is_digit c || (65 <=? c)%N && (c <=? 70)%N || (97 <=? c)%N && (c <=? 102)%N.

Definition hyphen : N := 45.

(** Modelled from the spec: the opaque-ID shape of lib/issue-utils, which is
    not in the tree; "a fixed-length hex/UUID-like pattern", taken as the
    five hyphen-separated groups of 8, 4, 4, 4 and 12 hexadecimal digits. *)
Definition opaque_shape (token : jsstring) : bool :=
  let groups := split hyphen token in
  bool_decide (length <$> groups = [8; 4; 4; 4; 12]) && forallb (forallb is_hex) groups.

Definition to_upper (c : N) : N := if is_lower c then (c - 32)%N else c.

Definition decimal_value (digits : jsstring) : N :=
  foldl (λ n c, 10 * n + (c - 48))%N 0%N digits.

(** Modelled from the spec: the composite-key shape of lib/issue-utils, which
    is not in the tree; "PREFIX-NUMBER (case-insensitive prefix, positive
    integer suffix)": letters, a hyphen, and decimal digits of a positive
    number. The prefix is given in upper case. *)
Definition composite_shape (token : jsstring) : option (jsstring * N) :=
  match split hyphen token with
  | [prefix; number] =>
      if truthy prefix && forallb (λ c, is_upper c || is_lower c) prefix
         && truthy number && forallb is_digit number
         && (0 <? decimal_value number)%N
      then Some (to_upper <$> prefix, decimal_value number)
      else None
  | _ => None
  end.

(** Modelled from the spec: the tagged variant a single parse step
    produces, [OpaqueId | CompositeKey{prefix, number} | Invalid]. *)
Inductive Shape :=
  | OpaqueId
  | CompositeKey (prefix : jsstring) (number : N)
  | Invalid.

(** Modelled from the spec: the opaque-ID shape is tried first, then the
    composite-key shape. *)
Definition classify (token : jsstring) : Shape :=
  if opaque_shape token then OpaqueId
  else match composite_shape token with
       | Some (prefix, number) => CompositeKey prefix number
       | None => Invalid
       end.

(** Modelled from the spec: the two ways [resolve] fails. *)
Inductive ResolutionError := InvalidIdentifierFormat | NotFound.

(** Computations that may call the network: they extend the log of the
    lookups made so far. *)
Definition Net (A : Type) : Type := list (jsstring * N) → A * list (jsstring * N).

Definition net_ret {A} (a : A) : Net A := λ log, (a, log).
Definition net_bind {A B} (m : Net A) (f : A → Net B) : Net B :=
  λ log, f (m log).1 (m log).2.

Section Resolve.
(** The API collaborator: [lookupByComposite(prefix, number)]. *)
Variable lookupByComposite : jsstring → N → option jsstring.

(** Modelled from the spec: one lookup call, which the log records. *)
Definition lookup (prefix : jsstring) (number : N) : Net (option jsstring) :=
  λ log, (lookupByComposite prefix number, log ++ [(prefix, number)]).

(** Modelled from the spec: resolveIssueId of lib/issue-utils, which is not
    in the tree. An opaque ID is returned unchanged; a composite key is
    looked up once; anything else is an invalid identifier. *)
Definition resolve (token : jsstring) : Net (ResolutionError + jsstring) :=
  match classify token with
  | OpaqueId => net_ret (inr token)
  | CompositeKey prefix number =>
      net_bind (lookup prefix number)
        (λ found, net_ret match found with
                          | Some id => inr id
                          | None => inl NotFound
                          end)
  | Invalid => net_ret (inl InvalidIdentifierFormat)
  end.
End Resolve.

End Resolver.

(** ** The config store *)

Module Config.

Record ConfigDefaults := { teamId : option jsstring; teamKey : option jsstring }.

Record ConfigFile := {
  apiKey : option jsstring;
  defaults : option ConfigDefaults;
  defaultTeamId : option jsstring;
}.

(** The files, with their contents, and the directories. *)
Record FS := MkFS { files : gmap (list N) jsstring; dirs : gset (list N) }.

(** What the operating system does to the calls of one [writeConfig]:
    whether [mkdirSync], [renameSync] and [unlinkSync] fail, whether
    [writeFileSync] fails on opening the file or after some code units
    have reached it, and what a failing call throws. *)
Inductive WriteFault := OpenFails | FailsAfter (written : nat).

Record Faults := {
  mkdir_fault : bool;
  write_fault : option WriteFault;
  rename_fault : bool;
  unlink_fault : bool;
  thrown : Thrown;
}.

(** A file-system computation: the states the file system passes through
    after the one it starts in, oldest first, and a value or an exception. *)
Definition IO (E A : Type) : Type := FS → list FS * (E + A).

(** The state a computation has reached. *)
Definition current (fs : FS) (trace : list FS) : FS := default fs (last trace).

Definition io_ret {E A} (a : A) : IO E A := λ fs, ([], inr a).
Definition io_throw {E A} (e : E) : IO E A := λ fs, ([], inl e).

Definition io_bind {E A B} (m : IO E A) (f : A → IO E B) : IO E B :=
  λ fs,
    match m fs with
    | (t1, inl e) => (t1, inl e)
    | (t1, inr a) => let r := f a (current fs t1) in (t1 ++ r.1, r.2)
    end.

(** [try { m } catch (e) { handler }]. *)
Definition io_try {E E' A} (m : IO E A) (handler : E → IO E' A) : IO E' A :=
  λ fs,
    match m fs with
    | (t1, inr a) => (t1, inr a)
    | (t1, inl e) => let r := handler e (current fs t1) in (t1 ++ r.1, r.2)
    end.

(** [io_spec pre m inv post exn]: started in a state with [pre], the
    computation passes only through states with [inv], and ends in a
    state with [post a] when it returns [a] and with [exn e] when it
    throws [e]. *)
Definition io_spec {E A} (pre : FS → Prop) (m : IO E A) (inv : FS → Prop)
    (post : A → FS → Prop) (exn : E → FS → Prop) : Prop :=
  ∀ fs, pre fs →
    Forall inv (m fs).1
    ∧ match (m fs).2 with
      | inr a => post a (current fs (m fs).1)
      | inl e => exn e (current fs (m fs).1)
      end.

(** What [writeConfig] may end with: an exception of the file system that
    it does not catch, or its own [CliError]. *)
Inductive Failure :=
  | Uncaught (err : Thrown)
  | Cli (e : CliError).

Section WriteConfig.
(** [homedir()], [Date.now()] and [JSON.stringify(config, null, 2)]. *)
Variable homedir : jsstring.
Variable now : N.
Variable stringify : ConfigFile → jsstring.
Variable fl : Faults.

(** [path.join] of a directory and a name. *)
Definition join (dir name : jsstring) : jsstring := dir ++ js "/" ++ name.

Definition CONFIG_DIR : jsstring := join homedir (js ".linear-cli-agents").
Definition CONFIG_FILE : jsstring := join CONFIG_DIR (js "config.json").

Definition mkdirSync (path : jsstring) : IO Thrown unit :=
  λ fs,
    if mkdir_fault fl then ([], inl (thrown fl))
    else ([MkFS (files fs) ({[path]} ∪ dirs fs)], inr tt).

(** [if (!existsSync(CONFIG_DIR)) mkdirSync(CONFIG_DIR, ...)]. *)
Definition ensureConfigDir : IO Thrown unit :=
  λ fs,
    if bool_decide (CONFIG_DIR ∈ dirs fs) || bool_decide (is_Some (files fs !! CONFIG_DIR))
    then ([], inr tt)
    else mkdirSync CONFIG_DIR fs.

(** The file is created or truncated, then filled from the start. *)
Definition writing (path data : jsstring) (upto : nat) (fs : FS) : list FS :=
  (λ n, MkFS (<[path := take n data]> (files fs)) (dirs fs)) <$> seq 0 (S upto).

Definition writeFileSync (path data : jsstring) : IO Thrown unit :=
  λ fs,
    match write_fault fl with
    | None => (writing path data (length data) fs, inr tt)
    | Some OpenFails => ([], inl (thrown fl))
    | Some (FailsAfter written) =>
        (writing path data (written `min` length data) fs, inl (thrown fl))
    end.

(** The rename replaces the target in one step. *)
Definition renameSync (oldPath newPath : jsstring) : IO Thrown unit :=
  λ fs,
    match files fs !! oldPath with
    | Some data =>
        if rename_fault fl then ([], inl (thrown fl))
        else ([MkFS (<[newPath := data]> (delete oldPath (files fs))) (dirs fs)], inr tt)
    | None => ([], inl (thrown fl))
    end.

Definition unlinkSync (path : jsstring) : IO Thrown unit :=
  λ fs,
    match files fs !! path with
    | Some _ =>
        if unlink_fault fl then ([], inl (thrown fl))
        else ([MkFS (delete path (files fs)) (dirs fs)], inr tt)
    | None => ([], inl (thrown fl))
    end.

Definition tempFile : jsstring :=
  join CONFIG_DIR (js "config.json.tmp." ++ js (pretty now)).

Definition write_failed (error : Thrown) : CliError :=
  {| code := CONFIG_ERROR;
     message := js "Failed to write config: " ++ error_message error |}.

Definition writeConfig (config : ConfigFile) : IO Failure unit :=
  io_bind (io_try ensureConfigDir (λ err, io_throw (Uncaught err)))
    (λ _,
       io_try
         (io_bind (writeFileSync tempFile (stringify config))
                  (λ _, renameSync tempFile CONFIG_FILE))
         (λ error,
            io_bind (io_try (unlinkSync tempFile) (λ _, io_ret tt))
                    (λ _, io_throw (Cli (write_failed error))))).

(** The states a concurrent reader may find, and the final one. *)
Definition observable (config : ConfigFile) (fs : FS) : list FS :=
  fs :: (writeConfig config fs).1.

Definition final (config : ConfigFile) (fs : FS) : FS :=
  current fs (writeConfig config fs).1.

(** [readFileSync(CONFIG_FILE)] at some state: the stored content, if
    the file exists. *)
Definition stored (fs : FS) : option jsstring := files fs !! CONFIG_FILE.

(** The config file holds in [fs] what it held in [fs0]. *)
Definition unchanged (fs0 fs : FS) : Prop := stored fs = stored fs0.

(** The config file holds in [fs] what it held in [fs0], or the whole
    new config. *)
Definition old_or_new (config : ConfigFile) (fs0 fs : FS) : Prop :=
  unchanged fs0 fs ∨ stored fs = Some (stringify config).

End WriteConfig.

End Config.

(** A config store to run examples against: the home directory [/home/u],
    a stored config, a clock, and a serializer that ignores its argument. *)
Module ConfigDemo.

Definition homedir : jsstring := js "/home/u".
Definition now : N := 1700000000000.
Definition stringify (config : Config.ConfigFile) : jsstring := js "{new}".

Definition config : Config.ConfigFile :=
  {| Config.apiKey := Some (js "lin_api_key"); Config.defaults := None;
     Config.defaultTeamId := None |}.

Definition fs : Config.FS :=
  Config.MkFS {[ Config.CONFIG_FILE homedir := js "{old}" ]}
              {[ Config.CONFIG_DIR homedir ]}.

(** The disk fills up after one code unit, and the temp file cannot be
    removed either. *)
Definition disk_full : Config.Faults :=
  {| Config.mkdir_fault := false;
     Config.write_fault := Some (Config.FailsAfter 1);
     Config.rename_fault := false;
     Config.unlink_fault := true;
     Config.thrown := ErrorObject (js "ENOSPC: no space left on device") |}.

(** The rename fails; everything else works. *)
Definition rename_fails : Config.Faults :=
  {| Config.mkdir_fault := false;
     Config.write_fault := None;
     Config.rename_fault := true;
     Config.unlink_fault := false;
     Config.thrown := ErrorObject (js "EPERM: operation not permitted") |}.

Definition no_faults : Config.Faults :=
  {| Config.mkdir_fault := false;
     Config.write_fault := None;
     Config.rename_fault := false;
     Config.unlink_fault := false;
     Config.thrown := OtherValue |}.

End ConfigDemo.

(** ** The config library: reading, keys, defaults *)

Module ConfigApi.

(** [keyof ConfigDefaults]. *)
Inductive DefaultsKey := KeyTeamId | KeyTeamKey.

Definition empty_defaults : Config.ConfigDefaults :=
  {| Config.teamId := None; Config.teamKey := None |}.

(** The object [{}] as a [ConfigFile]. *)
Definition empty_config : Config.ConfigFile :=
  {| Config.apiKey := None; Config.defaults := None; Config.defaultTeamId := None |}.

(** [defaults[key]]. *)
Definition get_key (key : DefaultsKey) (d : Config.ConfigDefaults) : option jsstring :=
  match key with
  | KeyTeamId => Config.teamId d
  | KeyTeamKey => Config.teamKey d
  end.

(** [defaults[key] = value], and [delete defaults[key]] for [value] undefined. *)
Definition set_key (key : DefaultsKey) (value : option jsstring)
    (d : Config.ConfigDefaults) : Config.ConfigDefaults :=
  match key with
  | KeyTeamId => {| Config.teamId := value; Config.teamKey := Config.teamKey d |}
  | KeyTeamKey => {| Config.teamId := Config.teamId d; Config.teamKey := value |}
  end.

(** Truthiness of a string that may be undefined. *)
Definition truthy_opt (o : option jsstring) : bool := from_option truthy false o.

(** The body of [getDefaults] after [readConfig]: with a legacy
    [defaultTeamId] and no [defaults.teamId] the result is
    [{teamId: config.defaultTeamId, ...config.defaults}], where a [teamId]
    key of [defaults] overrides the legacy one; otherwise it is
    [config.defaults ?? {}]. *)
Definition defaults_of (config : Config.ConfigFile) : Config.ConfigDefaults :=
  if truthy_opt (Config.defaultTeamId config)
     && negb (truthy_opt (Config.defaults config ≫= Config.teamId))
  then {| Config.teamId :=
            match Config.defaults config ≫= Config.teamId with
            | Some own => Some own
            | None => Config.defaultTeamId config
            end;
          Config.teamKey := Config.defaults config ≫= Config.teamKey |}
  else default empty_defaults (Config.defaults config).

(** The object [setDefault] hands to [writeConfig]. *)
Definition with_default (key : DefaultsKey) (value : option jsstring)
    (config : Config.ConfigFile) : Config.ConfigFile :=
  {| Config.apiKey := Config.apiKey config;
     Config.defaults :=
       Some (set_key key value (default empty_defaults (Config.defaults config)));
     Config.defaultTeamId :=
       match key with
       | KeyTeamId =>
           if truthy_opt (Config.defaultTeamId config) then None
           else Config.defaultTeamId config
       | KeyTeamKey => Config.defaultTeamId config
       end |}.

(** [config.apiKey = apiKey], and [delete config.apiKey]. *)
Definition with_apiKey (apiKey : option jsstring) (config : Config.ConfigFile)
  : Config.ConfigFile :=
  {| Config.apiKey := apiKey;
     Config.defaults := Config.defaults config;
     Config.defaultTeamId := Config.defaultTeamId config |}.

Definition CONFIG_KEYS : list jsstring := [js "default-team-id"; js "default-team-key"].

(** [ConfigKey], the type of the elements of [CONFIG_KEYS]. *)
Inductive ConfigKey := DefaultTeamId | DefaultTeamKey.

(** [CONFIG_KEYS.includes(key)]. *)
Definition isValidConfigKey (key : jsstring) : bool := bool_decide (key ∈ CONFIG_KEYS).

(** What the type guard [key is ConfigKey] narrows a string to. *)
Definition as_config_key (key : jsstring) : option ConfigKey :=
  if decide (key = js "default-team-id") then Some DefaultTeamId
  else if decide (key = js "default-team-key") then Some DefaultTeamKey
  else None.

(** [mapping[key]]. *)
Definition configKeyToDefaultsKey (key : ConfigKey) : DefaultsKey :=
  match key with
  | DefaultTeamId => KeyTeamId
  | DefaultTeamKey => KeyTeamKey
  end.

(** The double-quote character. *)
Definition quote : jsstring := [34%N].

Definition not_authenticated : CliError :=
  {| code := NOT_AUTHENTICATED;
     message := js "Not authenticated. Run " ++ quote ++ js "linear auth login" ++ quote
                  ++ js " or set LINEAR_API_KEY environment variable." |}.

(** [existsSync(path)]: there is a file or a directory under [path]. *)
Definition existsSync (path : jsstring) (fs : Config.FS) : bool :=
  bool_decide (path ∈ Config.dirs fs)
  || bool_decide (is_Some (Config.files fs !! path)).

(** Whether there is a directory under the path of the config file is in
    [fs] as it is in [fs0]. *)
Definition same_kind (homedir : jsstring) (fs0 fs : Config.FS) : Prop :=
  Config.CONFIG_FILE homedir ∈ Config.dirs fs
  ↔ Config.CONFIG_FILE homedir ∈ Config.dirs fs0.

Section Store.
(** [homedir()], [Date.now()], [JSON.stringify(config, null, 2)],
    [JSON.parse] (no value for a [SyntaxError]; what parses is taken to be a
    [ConfigFile], as the cast in the source does), the faults of the file
    system while writing, whether [readFileSync] fails, and
    [process.env.LINEAR_API_KEY]. *)
Variable homedir : jsstring.
Variable now : N.
Variable stringify : Config.ConfigFile → jsstring.
Variable parse : jsstring → option Config.ConfigFile.
Variable fl : Config.Faults.
Variable read_fault : bool.
Variable env : option jsstring.

Definition parse_failed : CliError :=
  {| code := CONFIG_ERROR;
     message := js "Failed to parse config file at " ++ Config.CONFIG_FILE homedir
                  ++ js ". Please check the file format or delete it." |}.

(** [readFileSync(path, 'utf-8')]: the content of the file, unless the
    read fails; what is not a file cannot be read. *)
Definition readFileSync (path : jsstring) (fs : Config.FS) : Thrown + jsstring :=
  match Config.files fs !! path with
  | Some content => if read_fault then inl (Config.thrown fl) else inr content
  | None => inl (Config.thrown fl)
  end.

(** [readConfig]: [{}] when nothing exists under the path of the config
    file; a [CONFIG_ERROR] for a [SyntaxError]; any other exception as it
    is. *)
Definition readConfig (fs : Config.FS) : Config.Failure + Config.ConfigFile :=
  if negb (existsSync (Config.CONFIG_FILE homedir) fs) then inr empty_config
  else match readFileSync (Config.CONFIG_FILE homedir) fs with
       | inl error => inl (Config.Uncaught error)
       | inr content =>
           match parse content with
           | Some config => inr config
           | None => inl (Config.Cli parse_failed)
           end
       end.

(** [getApiKey]: the environment variable, when set and not empty, else the
    key of the config file. *)
Definition getApiKey (fs : Config.FS) : Config.Failure + option jsstring :=
  if truthy_opt env then inr env
  else match readConfig fs with
       | inr config => inr (Config.apiKey config)
       | inl e => inl e
       end.

Definition requireApiKey (fs : Config.FS) : Config.Failure + jsstring :=
  match getApiKey fs with
  | inr (Some apiKey) =>
      if truthy apiKey then inr apiKey else inl (Config.Cli not_authenticated)
  | inr None => inl (Config.Cli not_authenticated)
  | inl e => inl e
  end.

(** A function that reads the config, changes the object and writes it. *)
Definition update_config (change : Config.ConfigFile → Config.ConfigFile)
  : Config.IO Config.Failure unit :=
  λ fs,
    match readConfig fs with
    | inr config => Config.writeConfig homedir now stringify fl (change config) fs
    | inl e => ([], inl e)
    end.

Definition saveApiKey (apiKey : jsstring) : Config.IO Config.Failure unit :=
  update_config (with_apiKey (Some apiKey)).

Definition removeApiKey : Config.IO Config.Failure unit :=
  update_config (with_apiKey None).

Definition getConfigPath : jsstring := Config.CONFIG_FILE homedir.

Definition getDefaults (fs : Config.FS) : Config.Failure + Config.ConfigDefaults :=
  match readConfig fs with
  | inr config => inr (defaults_of config)
  | inl e => inl e
  end.

Definition getDefaultTeamId (fs : Config.FS) : Config.Failure + option jsstring :=
  match getDefaults fs with
  | inr d => inr (Config.teamId d)
  | inl e => inl e
  end.

Definition getDefaultTeamKey (fs : Config.FS) : Config.Failure + option jsstring :=
  match getDefaults fs with
  | inr d => inr (Config.teamKey d)
  | inl e => inl e
  end.

Definition setDefault (key : DefaultsKey) (value : option jsstring)
  : Config.IO Config.Failure unit :=
  update_config (with_default key value).

Definition removeDefault (key : DefaultsKey) : Config.IO Config.Failure unit :=
  setDefault key None.

(** The state after a computation started in [fs]. *)
Definition after {A} (m : Config.IO Config.Failure A) (fs : Config.FS) : Config.FS :=
  Config.current fs (m fs).1.

(** *** [config set], [config get], [config list] *)

(** [CONFIG_KEYS.join(', ')]. *)
Definition keys_joined : jsstring :=
  js "default-team-id" ++ js ", " ++ js "default-team-key".

Definition invalid_key (key : jsstring) : CliError :=
  {| code := INVALID_INPUT;
     message := js "Invalid config key: " ++ key ++ js ". Valid keys: " ++ keys_joined |}.

Record SetOutput := {
  set_key_name : jsstring;
  set_value : jsstring;
  set_message : jsstring;
}.

(** The [try] block of [ConfigSet.run]. After the test of
    [isValidConfigKey] the key is a [ConfigKey]; the last case is there for
    the types only. *)
Definition config_set (key value : jsstring) : Config.IO Config.Failure SetOutput :=
  if negb (isValidConfigKey key) then Config.io_throw (Config.Cli (invalid_key key))
  else match as_config_key key with
       | Some configKey =>
           Config.io_bind (setDefault (configKeyToDefaultsKey configKey) (Some value))
             (λ _, Config.io_ret
                     {| set_key_name := key; set_value := value;
                        set_message := js "Configuration " ++ quote ++ key ++ quote
                                         ++ js " set successfully" |})
       | None => Config.io_throw (Config.Cli (invalid_key key))
       end.

Record GetOutput := {
  get_key_name : jsstring;
  get_value : option jsstring;
  isSet : bool;
}.

(** The [try] block of [ConfigGet.run]: [value ?? null] and
    [value !== undefined]. *)
Definition config_get (key : jsstring) (fs : Config.FS) : Config.Failure + GetOutput :=
  if negb (isValidConfigKey key) then inl (Config.Cli (invalid_key key))
  else match as_config_key key with
       | Some configKey =>
           match getDefaults fs with
           | inr d =>
               inr {| get_key_name := key;
                      get_value := get_key (configKeyToDefaultsKey configKey) d;
                      isSet := bool_decide
                                 (is_Some (get_key (configKeyToDefaultsKey configKey) d)) |}
           | inl e => inl e
           end
       | None => inl (Config.Cli (invalid_key key))
       end.

Record ListOutput := {
  configPath : jsstring;
  authenticated : bool;
  apiKeySource : option jsstring;
  list_defaults : list (jsstring * option jsstring);
}.

(** The [try] block of [ConfigList.run]. *)
Definition config_list (fs : Config.FS) : Config.Failure + ListOutput :=
  match getDefaults fs with
  | inl e => inl e
  | inr d =>
      match getApiKey fs with
      | inl e => inl e
      | inr apiKey =>
          inr {| configPath := getConfigPath;
                 authenticated := bool_decide (is_Some apiKey);
                 apiKeySource :=
                   if truthy_opt apiKey
                   then Some (if truthy_opt env then js "environment" else js "config")
                   else None;
                 list_defaults :=
                   (λ key, (key, as_config_key key
                                   ≫= λ configKey, get_key (configKeyToDefaultsKey configKey) d))
                     <$> CONFIG_KEYS |}
      end
  end.

End Store.

(** A serializer with a parser that inverts it, to run examples; the
    program's are [JSON.stringify] and [JSON.parse]. *)
Definition to_tuple (config : Config.ConfigFile)
  : option jsstring * option (option jsstring * option jsstring) * option jsstring :=
  (Config.apiKey config,
   (λ d, (Config.teamId d, Config.teamKey d)) <$> Config.defaults config,
   Config.defaultTeamId config).

Definition of_tuple
    (t : option jsstring * option (option jsstring * option jsstring) * option jsstring)
  : Config.ConfigFile :=
  {| Config.apiKey := t.1.1;
     Config.defaults :=
       (λ d, {| Config.teamId := d.1; Config.teamKey := d.2 |}) <$> t.1.2;
     Config.defaultTeamId := t.2 |}.

Definition demo_stringify (config : Config.ConfigFile) : jsstring :=
  [Npos (encode (to_tuple config))].

Definition demo_parse (content : jsstring) : option Config.ConfigFile :=
  match content with
  | [Npos p] => of_tuple <$> decode p
  | _ => None
  end.

End ConfigApi.

(** Stores to run examples against: an empty file system, and one whose
    config file holds an API key and the legacy [defaultTeamId]. *)
Module StoreDemo.

Definition empty_fs : Config.FS := Config.MkFS ∅ ∅.

Definition legacy_config : Config.ConfigFile :=
  {| Config.apiKey := Some (js "lin_api_key"); Config.defaults := None;
     Config.defaultTeamId := Some (js "TEAM-OLD") |}.

Definition legacy_fs : Config.FS :=
  Config.MkFS
    {[ Config.CONFIG_FILE ConfigDemo.homedir := ConfigApi.demo_stringify legacy_config ]}
    {[ Config.CONFIG_DIR ConfigDemo.homedir ]}.

End StoreDemo.

(** ** A task run by itself *)

Section Solo.
Context {Call : Type → Type} {Res A : Type}.

(** What task [i] pushes from now on when it runs to its end, each of its
    calls settling as [world] says. *)
Fixpoint solo_pushes (world : ∀ T, nat → Call T → Settled T) (i : nat)
    (t : Async Call Res A) : list Res :=
  match t with
  | Return _ | Throw _ => []
  | Push r k => r :: solo_pushes world i k
  | Await c k => solo_pushes world i (k (world _ i c))
  end.

(** How task [i] ends in that run: a [Return] or a [Throw]. *)
Fixpoint solo_end (world : ∀ T, nat → Call T → Settled T) (i : nat)
    (t : Async Call Res A) : Async Call Res A :=
  match t with
  | Return _ | Throw _ => t
  | Push _ k => solo_end world i k
  | Await c k => solo_end world i (k (world _ i c))
  end.

(** [follows world ts rs p]: in pool [p], started from the tasks [ts] and
    the array [rs] and driven by [world], what task [j] has pushed and what
    it has yet to push make up what it pushes running by itself, and it
    ends as it ends by itself. *)
Definition follows (world : ∀ T, nat → Call T → Settled T)
    (ts : list (Async Call Res A)) (rs : list (nat * Res))
    (p : Pool Call Res A) : Prop :=
  ∀ j t0 t, ts !! j = Some t0 → tasks p !! j = Some t →
    pushed_by j (results p) ++ solo_pushes world j t
    = pushed_by j rs ++ solo_pushes world j t0
    ∧ solo_end world j t = solo_end world j t0.

End Solo.

(** ** [issues create] and [projects create]: the input built from the flags *)

Module IssuesCreate.

Record Flags := {
  input : option jsstring;
  title : option jsstring;
  team_id : option jsstring;
  description : option jsstring;
  flag_priority : option Z;
  assignee_id : option jsstring;
  state_id : option jsstring;
  project_id : option jsstring;
  flag_estimate : option Z;
  label_ids : option jsstring;
}.

(** The [IssueCreateInput] built from the single flags. *)
Record FlagsInput := {
  in_title : jsstring;
  in_teamId : jsstring;
  in_description : option jsstring;
  in_priority : option Z;
  in_assigneeId : option jsstring;
  in_stateId : option jsstring;
  in_projectId : option jsstring;
  in_estimate : option Z;
  in_labelIds : option (list jsstring);
}.

Definition invalid_json : CliError :=
  {| code := INVALID_INPUT; message := js "Invalid JSON in --input flag" |}.

Definition title_required : CliError :=
  {| code := MISSING_REQUIRED_FIELD;
     message := js "Title is required. Use --title or --input" |}.

Definition team_required : CliError :=
  {| code := MISSING_REQUIRED_FIELD;
     message := js "Team ID is required. Use --team-id, --input, or configure default with "
                  ++ ConfigApi.quote ++ js "linear config set default-team-id TEAM_ID"
                  ++ ConfigApi.quote |}.

Section Build.
(** The values of JSON with [JSON.parse], and the config store. *)
Variable Json : Type.
Variable parse_json : jsstring → option Json.
Variable homedir : jsstring.
Variable parse : jsstring → option Config.ConfigFile.
Variable fl : Config.Faults.
Variable read_fault : bool.

(** What [createIssue] is called with. *)
Inductive CreateInput :=
  | FromJson (value : Json)
  | FromFlags (fields : FlagsInput).

(** [flags['team-id'] ?? getDefaultTeamId()]: the config is read only when
    the flag is not given. *)
Definition teamId (flags : Flags) (fs : Config.FS) : Config.Failure + option jsstring :=
  match team_id flags with
  | Some given => inr (Some given)
  | None => ConfigApi.getDefaultTeamId homedir parse fl read_fault fs
  end.

(** The part of [run] that builds [input]. *)
Definition build (flags : Flags) (fs : Config.FS) : Config.Failure + CreateInput :=
  if ConfigApi.truthy_opt (input flags)
  then match input flags ≫= parse_json with
       | Some value => inr (FromJson value)
       | None => inl (Config.Cli invalid_json)
       end
  else
    match title flags with
    | Some title =>
        if truthy title
        then match teamId flags fs with
             | inl e => inl e
             | inr (Some team) =>
                 if truthy team
                 then inr (FromFlags
                        {| in_title := title;
                           in_teamId := team;
                           in_description := BulkUpdate.given (description flags);
                           in_priority := flag_priority flags;
                           in_assigneeId := BulkUpdate.given (assignee_id flags);
                           in_stateId := BulkUpdate.given (state_id flags);
                           in_projectId := BulkUpdate.given (project_id flags);
                           in_estimate := flag_estimate flags;
                           in_labelIds := split comma <$> BulkUpdate.given (label_ids flags) |})
                 else inl (Config.Cli team_required)
             | inr None => inl (Config.Cli team_required)
             end
        else inl (Config.Cli title_required)
    | None => inl (Config.Cli title_required)
    end.

End Build.

End IssuesCreate.

Module ProjectsCreate.

Definition team_ids_required : CliError :=
  {| code := MISSING_REQUIRED_FIELD;
     message := js "Team IDs required. Use --team-ids or configure default with "
                  ++ ConfigApi.quote ++ js "linear config set default-team-id TEAM_ID"
                  ++ ConfigApi.quote |}.

Section TeamIds.
Variable homedir : jsstring.
Variable parse : jsstring → option Config.ConfigFile.
Variable fl : Config.Faults.
Variable read_fault : bool.

(** The [teamIds] of [run]: the [--team-ids] flag, split and trimmed, when
    it is given and not empty; else the default team alone. *)
Definition teamIds (team_ids : option jsstring) (fs : Config.FS)
  : Config.Failure + list jsstring :=
  if ConfigApi.truthy_opt team_ids
  then inr (split_trim (default [] team_ids))
  else match ConfigApi.getDefaultTeamId homedir parse fl read_fault fs with
       | inl e => inl e
       | inr (Some defaultTeamId) =>
           if truthy defaultTeamId then inr [defaultTeamId]
           else inl (Config.Cli team_ids_required)
       | inr None => inl (Config.Cli team_ids_required)
       end.

End TeamIds.

End ProjectsCreate.

(** ** The formatter: [truncate] *)

Module Formatter.

(** [str.slice(0, end)] for an integer [end]: a negative [end] counts from
    the end of the string. *)
Definition slice_to (s : jsstring) (end_ : Z) : jsstring :=
  take (Z.to_nat (if (end_ <? 0)%Z then Z.max (Z.of_nat (length s) + end_) 0
                  else Z.min end_ (Z.of_nat (length s)))) s.

(** U+2026, the horizontal ellipsis. *)
Definition ellipsis : N := 8230.

(** [truncate(str, maxLength)] for an integer [maxLength]; [None] is
    [undefined] or [null]. *)
Definition truncate (str : option jsstring) (maxLength : Z) : jsstring :=
  match str with
  | None => []
  | Some s =>
      if negb (truthy s) then []
      else if (Z.of_nat (length s) <=? maxLength)%Z then s
      else slice_to s (maxLength - 1) ++ [ellipsis]
  end.

End Formatter.

(** ** What a run of a task asked of the API *)

(** The issue and the input of an event that is an [updateIssue] call. *)
Definition update_call {Res} (e : @Event Call Res) : option (jsstring * IssueUpdateInput) :=
  match e with
  | Settle c _ =>
      match c with
      | UpdateIssue issueId input => Some (issueId, input)
      | _ => None
      end
  | Pushed _ => None
  end.

(** The labels an [issue.labels()] call fulfilled with. *)
Definition labels_fetched {Res} (e : @Event Call Res) : option (list IssueLabel) :=
  match e with
  | Settle c s =>
      match c in Call T return Settled T → option (list IssueLabel) with
      | IssueLabels _ => λ s, match s with Fulfilled nodes => Some nodes | Rejected _ => None end
      | _ => λ _, None
      end s
  | Pushed _ => None
  end.

(** [{labelIds}], the input of [issues bulk-label]. *)
Definition only_labels (labelIds : list jsstring) : IssueUpdateInput :=
  {| stateId := None; priority := None; assigneeId := None;
     projectId := None; estimate := None; labelIds := Some labelIds |}.

(** * Properties *)

(** ** Label arithmetic *)

Section LabelFacts.
Implicit Types (add remove existing : list jsstring) (x : jsstring).

Lemma elem_of_labelsToAdd add existing x :
  x ∈ Labels.labelsToAdd add existing ↔ x ∈ add ∧ x ∉ existing.
Proof. unfold Labels.labelsToAdd. rewrite list_elem_of_filter. tauto. Qed.

Lemma elem_of_labelsToRemove remove existing x :
  x ∈ Labels.labelsToRemove remove existing ↔ x ∈ remove ∧ x ∈ existing.
Proof. unfold Labels.labelsToRemove. rewrite list_elem_of_filter. tauto. Qed.

(** What the update call receives: the labels kept, and the labels that
    were requested and absent. *)
Lemma elem_of_newLabelIds add remove existing x :
  x ∈ Labels.newLabelIds add remove existing
  ↔ (x ∈ existing ∧ x ∉ remove) ∨ (x ∈ add ∧ x ∉ existing).
Proof.
  unfold Labels.newLabelIds.
  rewrite elem_of_app, list_elem_of_filter, elem_of_labelsToAdd. tauto.
Qed.

(** Away from a label that is present, to add and to remove at once, the
    update call receives [(current − toRemove) ∪ toAdd]. *)
Lemma newLabelIds_without_conflict add remove existing :
  (∀ x, x ∈ add → x ∈ remove → x ∉ existing) →
  ∀ x, x ∈ Labels.newLabelIds add remove existing
       ↔ (x ∈ existing ∧ x ∉ remove) ∨ x ∈ add.
Proof.
  intros Hfree x. rewrite elem_of_newLabelIds. split.
  - intros [?|[? _]]; auto.
  - intros [?|Hadd]; [by left|].
    destruct (decide (x ∈ existing)) as [Hin|Hout]; [|by right].
    left. split; [done|]. intros Hrem. by apply (Hfree x Hadd Hrem).
Qed.

Lemma filter_all {A} (P : A → Prop) `{∀ a, Decision (P a)} (l : list A) :
  Forall P l → filter P l = l.
Proof.
  induction 1 as [|a l Ha _ IH]; [done|].
  rewrite filter_cons. destruct (decide (P a)); [by rewrite IH|done].
Qed.

Lemma filter_none {A} (P : A → Prop) `{∀ a, Decision (P a)} (l : list A) :
  Forall (λ a, ¬ P a) l → filter P l = [].
Proof.
  induction 1 as [|a l Ha _ IH]; [done|].
  rewrite filter_cons. destruct (decide (P a)); [done|by rewrite IH].
Qed.

(** A second run of the same request changes nothing when no label is to
    be added and removed at once. *)
Lemma newLabelIds_idempotent_disjoint add remove existing :
  (∀ x, x ∈ add → x ∉ remove) →
  Labels.newLabelIds add remove (Labels.newLabelIds add remove existing)
  = Labels.newLabelIds add remove existing.
Proof.
  intros Hdisj.
  set (final := Labels.newLabelIds add remove existing).
  unfold Labels.newLabelIds at 1.
  rewrite (filter_all (λ id, id ∉ remove) final).
  - unfold Labels.labelsToAdd. rewrite (filter_none (λ id, id ∉ final) add).
    + by rewrite app_nil_r.
    + apply Forall_forall. intros x Hadd Hnot. apply Hnot.
      apply elem_of_newLabelIds.
      destruct (decide (x ∈ existing)); [left|right]; auto.
  - apply Forall_forall. intros x [[_ ?]|[? _]]%elem_of_newLabelIds; auto.
Qed.

(** The update call receives no label twice when neither the labels of
    the issue nor the labels to add repeat one. *)
Lemma newLabelIds_NoDup add remove existing :
  NoDup existing → NoDup add → NoDup (Labels.newLabelIds add remove existing).
Proof.
  intros Hex Hadd. unfold Labels.newLabelIds. apply NoDup_app. split_and!.
  - by apply NoDup_filter.
  - intros x [_ Hin]%list_elem_of_filter [_ Hout]%elem_of_labelsToAdd. done.
  - by apply NoDup_filter.
Qed.

Lemma foldl_set_add_spec (l acc : list jsstring) :
  NoDup acc →
  NoDup (foldl Labels.set_add acc l)
  ∧ ∀ x, x ∈ foldl Labels.set_add acc l ↔ x ∈ acc ∨ x ∈ l.
Proof.
  revert acc. induction l as [|y l IH]; intros acc Hacc; simpl.
  - split; [done|]. intros x. rewrite elem_of_nil. tauto.
  - unfold Labels.set_add at 2 4. destruct (decide (y ∈ acc)) as [Hy|Hy].
    + destruct (IH acc Hacc) as [Hnd Hel]. split; [done|].
      intros x. rewrite Hel, elem_of_cons. split; [tauto|].
      intros [?|[->|?]]; auto.
    + assert (NoDup (acc ++ [y])) as Hacc'.
      { apply NoDup_app. split_and!; [done| |apply NoDup_singleton].
        intros x Hx ->%list_elem_of_singleton. done. }
      destruct (IH _ Hacc') as [Hnd Hel]. split; [done|].
      intros x. rewrite Hel, elem_of_app, list_elem_of_singleton, elem_of_cons.
      tauto.
Qed.

(** [issues add-labels]: the update call receives every label of the
    issue and every label to add, each once. *)
Lemma combinedLabelIds_spec existing add :
  NoDup (Labels.combinedLabelIds existing add)
  ∧ ∀ x, x ∈ Labels.combinedLabelIds existing add ↔ x ∈ existing ∨ x ∈ add.
Proof.
  unfold Labels.combinedLabelIds, Labels.spread_of_set.
  destruct (foldl_set_add_spec (existing ++ add) [] (NoDup_nil_2)) as [Hnd Hel].
  split; [done|]. intros x. rewrite Hel, elem_of_app, elem_of_nil. tauto.
Qed.

(** [issues remove-labels]: the update call receives the labels of the
    issue that are not to be removed, and reports the ones that were
    there. *)
Lemma elem_of_remainingLabelIds remove existing x :
  x ∈ Labels.remainingLabelIds remove existing ↔ x ∈ existing ∧ x ∉ remove.
Proof. unfold Labels.remainingLabelIds. rewrite list_elem_of_filter. tauto. Qed.

Lemma elem_of_labelsRemoved remove existing x :
  x ∈ Labels.labelsRemoved remove existing ↔ x ∈ remove ∧ x ∈ existing.
Proof. unfold Labels.labelsRemoved. rewrite list_elem_of_filter. tauto. Qed.

Lemma reported_nonempty_or_undefined {A} (l : list A) :
  reported (nonempty_or_undefined l) = l.
Proof. by destruct l. Qed.

End LabelFacts.

Example labels_scenario :
  let current := [js "L1"; js "L2"] in
  let toAdd := [js "L2"; js "L3"] in
  let toRemove := [js "L1"] in
  Labels.labelsToAdd toAdd current = [js "L3"]
  ∧ Labels.labelsToRemove toRemove current = [js "L1"]
  ∧ Labels.newLabelIds toAdd toRemove current = [js "L2"; js "L3"].
Proof. vm_compute. done. Qed.

(** C1. The claim: the label list sent to the update call is
    [(current − toRemove) ∪ toAdd], so a label that is both to add and to
    remove is sent. The code at [current = add = remove = {L1}]: the label
    is dropped from the kept labels because it is to remove, and dropped
    from the labels to add because it was present, so the update call
    receives no label, although [(current − toRemove) ∪ toAdd] holds [L1]. *)
Theorem bulk_label_conflict_drops_present_label :
  let existing := [js "L1"] in
  let add := [js "L1"] in
  let remove := [js "L1"] in
  Labels.newLabelIds add remove existing = []
  ∧ js "L1" ∈ add ∧ js "L1" ∈ remove
  ∧ (js "L1" ∉ Labels.newLabelIds add remove existing)
  ∧ js "L1" ∈ Labels.spec_finalSet (list_to_set existing) (list_to_set add)
                                    (list_to_set remove).
Proof.
  assert (Labels.newLabelIds [js "L1"] [js "L1"] [js "L1"] = []) as Heq.
  { vm_compute. done. }
  simpl. rewrite Heq. split_and!; [done|set_solver..].
Qed.

(** C2. The claim: running the reconciliation again on its own result, with
    the same request, changes nothing. The code with [L1] both to add and
    to remove: on an issue that has [L1] the first run removes it and the
    second run adds it back; on an issue without [L1] the first run adds it
    and the second removes it. *)
Theorem bulk_label_rerun_flips_conflicting_label :
  let add := [js "L1"] in
  let remove := [js "L1"] in
  (Labels.newLabelIds add remove [js "L1"] = []
   ∧ Labels.newLabelIds add remove (Labels.newLabelIds add remove [js "L1"])
     = [js "L1"])
  ∧ (Labels.newLabelIds add remove [] = [js "L1"]
     ∧ Labels.newLabelIds add remove (Labels.newLabelIds add remove []) = []).
Proof. vm_compute. done. Qed.

(** C7. The claim: no list of labels sent to the update call repeats a
    label, whatever the lists the user gave. [issues add-labels] goes
    through a [Set] and never repeats one ([combinedLabelIds_spec]);
    [issues bulk-label] with [--add-labels L3,L3] on an issue without
    labels sends [L3] twice. *)
Theorem bulk_label_sends_repeated_add_label_twice :
  let existing : list jsstring := [] in
  let add := split_trim (js "L3,L3") in
  add = [js "L3"; js "L3"]
  ∧ Labels.newLabelIds add [] existing = [js "L3"; js "L3"]
  ∧ ¬ NoDup (Labels.newLabelIds add [] existing)
  ∧ NoDup (Labels.combinedLabelIds existing add).
Proof.
  assert (split_trim (js "L3,L3") = [js "L3"; js "L3"]) as Hadd.
  { vm_compute. done. }
  simpl. rewrite Hadd.
  assert (Labels.newLabelIds [js "L3"; js "L3"] [] [] = [js "L3"; js "L3"]) as ->.
  { vm_compute. done. }
  split_and!; [done..| |apply combinedLabelIds_spec].
  intros Hnd. apply NoDup_cons in Hnd as [Hnot _]. apply Hnot. by left.
Qed.

(** ** Promise pools *)

Section PoolFacts.
Context {Call : Type → Type} {Res A : Type}.
Implicit Types (t : Async Call Res A) (p : Pool Call Res A).
Implicit Types (tr : list (@Event Call Res)) (rs : list (nat * Res)).

Lemma traces_refl t : traces t [] t.
Proof. destruct t; simpl; auto. Qed.

Lemma traces_push r t tr t' : traces t tr t' → traces (Push r t) (Pushed r :: tr) t'.
Proof. intros H. simpl. right. eauto. Qed.

Lemma traces_await {T} (c : Call T) k s tr t' :
  traces (k s) tr t' → traces (Await c k) (Settle c s :: tr) t'.
Proof. intros H. simpl. right. eauto. Qed.

Lemma traces_app t tr1 t1 tr2 t2 :
  traces t tr1 t1 → traces t1 tr2 t2 → traces t (tr1 ++ tr2) t2.
Proof.
  revert tr1. induction t as [a|err|r k IH|T c k IH]; intros tr1 H1 H2.
  - destruct H1 as [[-> ->]|[]]. done.
  - destruct H1 as [[-> ->]|[]]. done.
  - destruct H1 as [[-> ->]|(tr' & -> & H1)]; [done|].
    apply traces_push. eauto.
  - destruct H1 as [[-> ->]|(s & tr' & -> & H1)]; [done|].
    apply (traces_await c k s). eauto.
Qed.

Lemma pushed_app tr1 tr2 : pushed (tr1 ++ tr2) = pushed tr1 ++ pushed tr2.
Proof. apply omap_app. Qed.

Lemma pushed_Pushed (news : list Res) : pushed (@Pushed Call Res <$> news) = news.
Proof. induction news as [|r news IH]; [done|]. unfold pushed in *. simpl. by f_equal. Qed.

Lemma pushed_by_app i rs rs' :
  pushed_by i (rs ++ rs') = pushed_by i rs ++ pushed_by i rs'.
Proof. unfold pushed_by. by rewrite filter_app, fmap_app. Qed.

Lemma pushed_by_own i (news : list Res) : pushed_by i ((i,.) <$> news) = news.
Proof.
  unfold pushed_by. induction news as [|r news IH]; [done|].
  rewrite fmap_cons, filter_cons_True by done. rewrite fmap_cons. simpl. by f_equal.
Qed.

Lemma pushed_by_other i j (news : list Res) :
  i ≠ j → pushed_by j ((i,.) <$> news) = [].
Proof.
  intros Hne. unfold pushed_by. induction news as [|r news IH]; [done|].
  rewrite fmap_cons, filter_cons_False by done. apply IH.
Qed.

(** Running a task up to its next [await] appends the results at the head
    of the task to the array, under the task's index. *)
Lemma run_sync_spec i t rs :
  ∃ news : list Res,
    (run_sync i t rs).2 = rs ++ ((i,.) <$> news)
    ∧ traces t (Pushed <$> news) (run_sync i t rs).1
    ∧ suspended (run_sync i t rs).1.
Proof.
  revert rs. induction t as [a|err|r k IH|T c k _]; intros rs; simpl.
  - exists []. rewrite app_nil_r. auto.
  - exists []. rewrite app_nil_r. auto.
  - destruct (IH (rs ++ [(i, r)])) as (news & Hrs & Htr & Hsus).
    exists (r :: news). rewrite Hrs, <-app_assoc. simpl. split_and!; [done| |done].
    right. eauto.
  - exists []. rewrite app_nil_r. auto.
Qed.

Lemma run_sync_awaits_le i t rs n :
  awaits_le n t → awaits_le n (run_sync i t rs).1.
Proof. revert rs. induction t; intros rs; simpl; auto. Qed.

(** Along a run, a task that owes [n] results pushes at most [n] and
    still owes the rest. *)
Lemma owes_traces n t tr t' :
  owes n t → traces t tr t' →
  length (pushed tr) ≤ n ∧ owes (n - length (pushed tr)) t'.
Proof.
  revert n tr. induction t as [a|err|r k IH|T c k IH]; intros n tr Ho Htr.
  - destruct Htr as [[-> ->]|[]]. simpl in *. subst. split; [lia|done].
  - destruct Ho.
  - destruct n as [|n]; [destruct Ho|].
    destruct Htr as [[-> ->]|(tr' & -> & Htr)].
    + simpl. split; [lia|done].
    + destruct (IH n tr' Ho Htr) as [Hle Ho'].
      change (pushed (Pushed r :: tr')) with (r :: pushed tr').
      rewrite length_cons, Nat.sub_succ. split; [lia|done].
  - destruct Htr as [[-> ->]|(s & tr' & -> & Htr)].
    + simpl. rewrite Nat.sub_0_r. split; [lia|done].
    + apply (IH s n tr' (Ho s) Htr).
Qed.

Lemma owes_finished n t tr t' :
  owes n t → traces t tr t' → finished t' →
  length (pushed tr) = n ∧ ∃ a, t' = Return a.
Proof.
  intros Ho Htr Hfin. destruct (owes_traces n t tr t' Ho Htr) as [Hle Ho'].
  destruct t' as [a|err|r k|T c k]; try done.
  simpl in Ho'. split; [lia|eauto].
Qed.

(** *** The pool keeps, for every task, a run of that task alone *)

Lemma spawn_from_spec i (ts : list (Async Call Res A)) rs :
  let p := spawn_from i ts rs in
  length (tasks p) = length ts
  ∧ (∀ j t0, ts !! j = Some t0 →
       ∃ t tr, tasks p !! j = Some t ∧ suspended t ∧ traces t0 tr t
               ∧ pushed_by (i + j) (results p) = pushed_by (i + j) rs ++ pushed tr)
  ∧ (∀ k, k < i → pushed_by k (results p) = pushed_by k rs)
  ∧ (∀ e, e ∈ results p → e ∈ rs ∨ i ≤ e.1 < i + length ts).
Proof.
  revert i rs. induction ts as [|t ts IH]; intros i rs; simpl.
  - split_and!; [done| |done|auto]. intros j t0 Hj. done.
  - destruct (run_sync_spec i t rs) as (news & Hrs & Htr & Hsus).
    destruct (IH (S i) (run_sync i t rs).2) as (Hlen & Htasks & Hlow & Htags).
    rewrite Hrs in Hlen, Htasks, Hlow, Htags |- *. split_and!.
    + by rewrite Hlen.
    + intros [|j] t0 Hj; simpl in Hj.
      * injection Hj as <-. exists (run_sync i t rs).1, (Pushed <$> news).
        split_and!; [done..|]. rewrite Nat.add_0_r, Hlow by lia.
        by rewrite pushed_by_app, pushed_by_own, pushed_Pushed.
      * destruct (Htasks j t0 Hj) as (t' & tr & Hlook & Hsus' & Htr' & Hby).
        exists t', tr. split_and!; [done..|].
        replace (i + S j) with (S i + j) by lia. rewrite Hby.
        rewrite pushed_by_app, pushed_by_other by lia. by rewrite app_nil_r.
    + intros k Hk. rewrite Hlow by lia.
      rewrite pushed_by_app, pushed_by_other by lia. by rewrite app_nil_r.
    + intros e He. destruct (Htags e He) as [Hin|Hin]; [|right; lia].
      apply elem_of_app in Hin as [Hin|Hin]; [by left|right].
      apply list_elem_of_fmap in Hin as (r & -> & _). simpl. lia.
Qed.

Lemma spawn_projects (ts : list (Async Call Res A)) rs : projects ts rs (spawn ts rs).
Proof.
  destruct (spawn_from_spec 0 ts rs) as (Hlen & Htasks & _ & Htags).
  split_and!; [done|exact Htasks|].
  intros e He. destruct (Htags e He) as [?|?]; [by left|right; lia].
Qed.

Lemma step_projects (ts : list (Async Call Res A)) rs p p' :
  projects ts rs p → step p p' → projects ts rs p'.
Proof.
  intros (Hlen & Htasks & Htags) [i T c k s Hi].
  destruct (run_sync_spec i (k s) (results p)) as (news & Hrs & Htr & Hsus).
  assert (i < length (tasks p)) as Hlt by (by eapply lookup_lt_Some).
  split_and!; simpl.
  - by rewrite length_insert.
  - intros j t0 Hj. destruct (Htasks j t0 Hj) as (t & tr & Hlook & Hsus' & Htr' & Hby).
    destruct (decide (j = i)) as [->|Hne].
    + rewrite Hi in Hlook. injection Hlook as <-.
      exists (run_sync i (k s) (results p)).1, (tr ++ Settle c s :: (Pushed <$> news)).
      split_and!.
      * by apply list_lookup_insert_eq.
      * done.
      * eapply traces_app; [done|]. by apply traces_await.
      * rewrite Hrs, pushed_by_app, pushed_by_own, Hby, pushed_app.
        change (pushed (Settle c s :: (Pushed <$> news)))
          with (pushed (@Pushed Call Res <$> news)).
        by rewrite pushed_Pushed, app_assoc.
    + exists t, tr. split_and!; [|done..|].
      * by rewrite list_lookup_insert_ne.
      * rewrite Hrs, pushed_by_app, pushed_by_other, app_nil_r by done. done.
  - intros e He. rewrite Hrs in He. apply elem_of_app in He as [He|He]; [auto|].
    apply list_elem_of_fmap in He as (r & -> & _). right. simpl. lia.
Qed.

Lemma steps_projects (ts : list (Async Call Res A)) rs p :
  steps (spawn ts rs) p → projects ts rs p.
Proof.
  unfold steps. revert p. apply rtc_ind_r.
  - apply spawn_projects.
  - intros p p' _ Hstep IH. by eapply step_projects.
Qed.

Lemma projects_suspended (ts : list (Async Call Res A)) rs p :
  projects ts rs p → Forall suspended (tasks p).
Proof.
  intros (Hlen & Htasks & _). apply Forall_lookup. intros j t Hj.
  assert (is_Some (ts !! j)) as [t0 Ht0].
  { apply lookup_lt_is_Some. rewrite <-Hlen. by eapply lookup_lt_Some. }
  destruct (Htasks j t0 Ht0) as (t' & tr & Hlook & Hsus & _). congruence.
Qed.

(** No task that owes results ever throws: [Promise.all] does not reject. *)
Lemma projects_never_rejects (ts : list (Async Call Res A)) rs p :
  Forall (λ t, ∃ n, owes n t) ts → projects ts rs p → ∀ err, ¬ rejected p err.
Proof.
  intros Howes (Hlen & Htasks & _) err [i Hi].
  assert (is_Some (ts !! i)) as [t0 Ht0].
  { apply lookup_lt_is_Some. rewrite <-Hlen. by eapply lookup_lt_Some. }
  destruct (Htasks i t0 Ht0) as (t & tr & Hlook & _ & Htr & _).
  rewrite Hi in Hlook. injection Hlook as <-.
  destruct (proj1 (Forall_lookup _ _) Howes i t0 Ht0) as [n Hn].
  by destruct (owes_traces n t0 tr _ Hn Htr) as [_ ?].
Qed.

Lemma all_returned (l : list (Async Call Res A)) :
  Forall (λ t, ∃ a, t = Return a) l → ∃ vs, l = Return <$> vs.
Proof.
  induction 1 as [|t l [a ->] _ [vs ->]]; [by exists []|]. by exists (a :: vs).
Qed.

(** Once every task has finished, [Promise.all] has fulfilled. *)
Lemma projects_fulfilled (ts : list (Async Call Res A)) rs p :
  Forall (λ t, ∃ n, owes n t) ts → projects ts rs p →
  Forall finished (tasks p) → ∃ vs, fulfilled p vs.
Proof.
  intros Howes (Hlen & Htasks & _) Hfin. apply all_returned.
  apply Forall_lookup. intros i t Hi.
  assert (is_Some (ts !! i)) as [t0 Ht0].
  { apply lookup_lt_is_Some. rewrite <-Hlen. by eapply lookup_lt_Some. }
  destruct (Htasks i t0 Ht0) as (t' & tr & Hlook & _ & Htr & _).
  rewrite Hi in Hlook. injection Hlook as <-.
  destruct (proj1 (Forall_lookup _ _) Howes i t0 Ht0) as [n Hn].
  eapply owes_finished; eauto. by eapply (proj1 (Forall_lookup _ _) Hfin).
Qed.

Lemma fulfilled_finished p vs : fulfilled p vs → Forall finished (tasks p).
Proof.
  unfold fulfilled. intros ->. apply Forall_fmap, Forall_forall. by intros.
Qed.

End PoolFacts.

(** *** Every task pushes once: the array is a permutation of the tasks *)

Lemma filter_tags_NoDup (l : list nat) :
  (∀ j, length (filter (λ x, x = j) l) ≤ 1) → NoDup l.
Proof.
  induction l as [|x l IH]; intros Hcount; [apply NoDup_nil_2|].
  apply NoDup_cons. split.
  - specialize (Hcount x). rewrite filter_cons_True in Hcount by done.
    simpl in Hcount. apply (filter_nil_not_elem_of (λ y, y = x)); [|done].
    apply nil_length_inv. lia.
  - apply IH. intros j. specialize (Hcount j). rewrite filter_cons in Hcount.
    destruct (decide (x = j)); simpl in Hcount; lia.
Qed.

Lemma tags_permutation (l : list nat) (n : nat) :
  (∀ x, x ∈ l → x < n) →
  (∀ j, j < n → length (filter (λ x, x = j) l) = 1) →
  l ≡ₚ seq 0 n.
Proof.
  intros Hbound Hcount. apply NoDup_Permutation.
  - apply filter_tags_NoDup. intros j. destruct (decide (j < n)) as [Hj|Hj].
    + by rewrite Hcount.
    + rewrite (filter_none (λ x, x = j)); [simpl; lia|].
      apply Forall_forall. intros x Hx ->. by apply Hj, Hbound.
  - apply NoDup_seq.
  - intros x. rewrite elem_of_seq. split; [intros ?%Hbound; lia|].
    intros [_ Hx]. specialize (Hcount x Hx).
    destruct (filter (λ y, y = x) l) as [|y ys] eqn:Hf; [done|].
    assert (y ∈ filter (λ y, y = x) l) as Hy by (rewrite Hf; left).
    apply list_elem_of_filter in Hy as [-> ?]. done.
Qed.

Lemma length_filter_complement {A} (P : A → Prop) `{∀ a, Decision (P a)} (l : list A) :
  length (filter P l) + length (filter (λ a, ¬ P a) l) = length l.
Proof. by rewrite <-length_app, filter_app_complement. Qed.

Section PoolCounting.
Context {Call : Type → Type} {Res A : Type}.
Implicit Types (t : Async Call Res A) (p : Pool Call Res A).
Implicit Types (ts : list (Async Call Res A)) (rs : list (nat * Res)).

Lemma pushed_by_length j rs :
  length (pushed_by j rs) = length (filter (λ x, x = j) (rs.*1)).
Proof.
  unfold pushed_by. rewrite length_fmap.
  induction rs as [|[i r] rs IH]; [done|].
  rewrite fmap_cons, !filter_cons. simpl.
  destruct (decide (i = j)); simpl; by rewrite IH.
Qed.

(** When all tasks have finished, the array holds one result of each
    task: the indices of its entries are a permutation of the indices of
    the tasks. *)
Lemma projects_complete ts p :
  Forall (owes 1) ts → projects ts [] p → Forall finished (tasks p) →
  (results p).*1 ≡ₚ seq 0 (length ts).
Proof.
  intros Howes (Hlen & Htasks & Htags) Hfin. apply tags_permutation.
  - intros x [[i r] [-> He]]%list_elem_of_fmap.
    destruct (Htags _ He) as [Hnil|?]; [|done]. by apply elem_of_nil in Hnil.
  - intros j Hj. rewrite <-pushed_by_length.
    destruct (lookup_lt_is_Some_2 ts j Hj) as [t0 Ht0].
    destruct (Htasks j t0 Ht0) as (t & tr & Hlook & _ & Htr & Hby).
    rewrite Hby. simpl.
    eapply owes_finished; [|done|].
    + by eapply (proj1 (Forall_lookup _ _) Howes).
    + by eapply (proj1 (Forall_lookup _ _) Hfin).
Qed.

(** A pool of tasks that push nothing leaves the array as it was. *)
Lemma projects_silent ts p :
  Forall (owes 0) ts → projects ts [] p → results p = [].
Proof.
  intros Howes (Hlen & Htasks & Htags).
  destruct (results p) as [|[i r] rs] eqn:Hres; [done|exfalso].
  destruct (Htags (i, r)) as [Hnil|Hi]; [left|by apply elem_of_nil in Hnil|].
  simpl in Hi. destruct (lookup_lt_is_Some_2 ts i Hi) as [t0 Ht0].
  destruct (Htasks i t0 Ht0) as (t & tr & _ & _ & Htr & Hby).
  pose proof (proj1 (Forall_lookup _ _) Howes i t0 Ht0) as Ho.
  destruct (owes_traces 0 t0 tr t Ho Htr) as [Hle _].
  simpl in Hby. rewrite <-Hby in Hle. unfold pushed_by in Hle.
  rewrite filter_cons_True in Hle by done. simpl in Hle. lia.
Qed.

(** *** Every run of the pool ends *)

Lemma step_exists p i {T} (c : Call T) k :
  tasks p !! i = Some (Await c k) → ∃ p', step p p'.
Proof. intros Hi. eexists. by apply (step_settle p i T c k (Rejected OtherValue)). Qed.

Lemma finished_or_awaiting ts :
  Forall suspended ts →
  Forall finished ts ∨ ∃ i T (c : Call T) k, ts !! i = Some (Await c k).
Proof.
  induction 1 as [|t ts Hsus _ [IH|(i & T & c & k & Hi)]].
  - by left.
  - destruct t as [a|err|r k|T c k]; [left|left|done|right]; try by constructor.
    by exists 0, T, c, k.
  - right. by exists (S i), T, c, k.
Qed.

Lemma sum_list_insert (ns : list nat) i m :
  ns !! i = Some (S m) → S (sum_list (<[i := m]> ns)) = sum_list ns.
Proof.
  revert i. induction ns as [|n ns IH]; intros [|i] Hi; simplify_eq/=; [done|].
  rewrite <-(IH i Hi). lia.
Qed.

(** A turn of the event loop uses up one of the awaits the tasks have
    left. *)
Lemma step_budget (ns : list nat) p p' :
  Forall2 awaits_le ns (tasks p) → step p p' →
  ∃ ns', Forall2 awaits_le ns' (tasks p') ∧ S (sum_list ns') = sum_list ns.
Proof.
  intros Hns [i T c k s Hi].
  destruct (Forall2_lookup_r _ _ _ _ _ Hns Hi) as (n & Hn & Hle).
  destruct n as [|m]; [done|]. simpl in Hle.
  exists (<[i := m]> ns). split; [|by apply sum_list_insert].
  simpl. apply Forall2_insert; [done|]. apply run_sync_awaits_le, Hle.
Qed.

Lemma nsteps_budget n (ns : list nat) p p' :
  Forall2 awaits_le ns (tasks p) → nsteps step n p p' → n ≤ sum_list ns.
Proof.
  intros Hns Hsteps. revert ns Hns.
  induction Hsteps as [|n p p1 p2 Hstep _ IH]; intros ns Hns; [lia|].
  destruct (step_budget ns p p1 Hns Hstep) as (ns' & Hns' & Hsum).
  specialize (IH ns' Hns'). lia.
Qed.

Lemma step_suspended p p' :
  Forall suspended (tasks p) → step p p' → Forall suspended (tasks p').
Proof.
  intros Hsus [i T c k s Hi]. simpl. apply Forall_insert; [done|].
  by destruct (run_sync_spec i (k s) (results p)) as (_ & _ & _ & ?).
Qed.

(** From every state the pool can run until all tasks have finished. *)
Lemma can_finish (ns : list nat) p :
  Forall suspended (tasks p) → Forall2 awaits_le ns (tasks p) →
  ∃ p', steps p p' ∧ Forall finished (tasks p').
Proof.
  remember (sum_list ns) as budget eqn:Hb. revert ns p Hb.
  induction budget as [budget IH] using lt_wf_ind. intros ns p -> Hsus Hns.
  destruct (finished_or_awaiting _ Hsus) as [Hfin|(i & T & c & k & Hi)].
  - exists p. split; [apply rtc_refl|done].
  - destruct (step_exists p i c k Hi) as [p1 Hstep].
    destruct (step_budget ns p p1 Hns Hstep) as (ns' & Hns' & Hsum).
    destruct (IH (sum_list ns') ltac:(lia) ns' p1 eq_refl) as (p' & Hsteps & Hfin);
      [by eapply step_suspended|done|].
    exists p'. split; [by eapply rtc_l|done].
Qed.

Lemma spawn_from_budget i (ns : list nat) ts rs :
  Forall2 awaits_le ns ts → Forall2 awaits_le ns (tasks (spawn_from i ts rs)).
Proof.
  intros Hns. revert i rs.
  induction Hns as [|n t ns ts Hn _ IH]; intros i rs; simpl; [constructor|].
  constructor; [by apply run_sync_awaits_le|apply IH].
Qed.

Lemma steps_budget (ns : list nat) p p' :
  Forall2 awaits_le ns (tasks p) → steps p p' →
  ∃ ns', Forall2 awaits_le ns' (tasks p').
Proof.
  intros Hns Hsteps. revert ns Hns.
  induction Hsteps as [p|p p1 p2 Hstep _ IH]; intros ns Hns; [eauto|].
  destruct (step_budget ns p p1 Hns Hstep) as (ns' & Hns' & _). eauto.
Qed.

Lemma Forall2_replicate_awaits (b : nat) ts :
  Forall (awaits_le b) ts → Forall2 awaits_le (replicate (length ts) b) ts.
Proof. induction 1; simpl; constructor; auto. Qed.

Lemma sum_list_replicate_awaits (n b : nat) : sum_list (replicate n b) = n * b.
Proof. induction n as [|n IH]; simpl; lia. Qed.

End PoolCounting.

(** ** The tasks of the two bulk commands *)

Ltac settle_all :=
  repeat match goal with
         | |- ∀ s : Settled _, _ => intros [?|?]
         | |- context [match ?x with _ => _ end] => destruct x
         | _ => progress cbn
         end.

Lemma label_task_owes add remove identifier :
  owes 1 (BulkLabel.label_task add remove identifier).
Proof. unfold BulkLabel.label_task. settle_all; done. Qed.

Lemma label_task_awaits add remove identifier :
  awaits_le 5 (BulkLabel.label_task add remove identifier).
Proof. unfold BulkLabel.label_task. settle_all; done. Qed.

Lemma resolve_task_owes identifier : owes 0 (BulkUpdate.resolve_task identifier).
Proof. unfold BulkUpdate.resolve_task. settle_all; done. Qed.

Lemma resolve_task_awaits identifier : awaits_le 1 (BulkUpdate.resolve_task identifier).
Proof. unfold BulkUpdate.resolve_task. settle_all; done. Qed.

Lemma update_task_owes input r : owes 1 (BulkUpdate.update_task input r).
Proof. unfold BulkUpdate.update_task. settle_all; done. Qed.

Lemma update_task_awaits input r : awaits_le 2 (BulkUpdate.update_task input r).
Proof. unfold BulkUpdate.update_task. settle_all; done. Qed.

Section Batches.
Context {Call : Type → Type} {Res A : Type}.
Implicit Types (p : Pool Call Res A) (ts : list (Async Call Res A)).

(** A pool whose tasks each push [n] results and await at most [b] times:
    it never rejects, it can always run to the end, it ends within
    [b] turns per task, and at the end [Promise.all] has fulfilled. *)
Lemma batch_never_rejects ts n p :
  Forall (owes n) ts → steps (spawn ts []) p → ∀ err, ¬ rejected p err.
Proof.
  intros Howes Hsteps. eapply projects_never_rejects; [|by apply steps_projects].
  eapply Forall_impl; [done|]. eauto.
Qed.

Lemma batch_can_finish ts n b p :
  Forall (owes n) ts → Forall (awaits_le b) ts → steps (spawn ts []) p →
  ∃ p' vs, steps p p' ∧ fulfilled p' vs.
Proof.
  intros Howes Hawaits Hsteps.
  destruct (steps_budget (replicate (length ts) b) (spawn ts []) p) as [ns Hns];
    [|done|].
  { apply spawn_from_budget, Forall2_replicate_awaits, Hawaits. }
  destruct (can_finish ns p) as (p' & Hsteps' & Hfin); [|done|].
  { eapply projects_suspended, steps_projects, Hsteps. }
  destruct (projects_fulfilled ts [] p') as [vs Hvs]; [| |done|by exists p', vs].
  - eapply Forall_impl; [exact Howes|]. eauto.
  - apply steps_projects. by etrans.
Qed.

Lemma batch_bounded ts b k p :
  Forall (awaits_le b) ts → nsteps step k (spawn ts []) p → k ≤ length ts * b.
Proof.
  intros Hawaits Hsteps. rewrite <-sum_list_replicate_awaits.
  eapply nsteps_budget; [|done].
  apply spawn_from_budget, Forall2_replicate_awaits, Hawaits.
Qed.

Lemma batch_complete ts p vs :
  Forall (owes 1) ts → steps (spawn ts []) p → fulfilled p vs →
  (results p).*1 ≡ₚ seq 0 (length ts) ∧ length (results p) = length ts.
Proof.
  intros Howes Hsteps Hvs.
  assert ((results p).*1 ≡ₚ seq 0 (length ts)) as Hperm.
  { apply projects_complete; [done|by apply steps_projects|].
    by eapply fulfilled_finished. }
  split; [done|]. by rewrite <-(length_fmap fst), Hperm, length_seq.
Qed.

Lemma batch_silent ts p :
  Forall (owes 0) ts → steps (spawn ts []) p → results p = [].
Proof. intros Howes Hsteps. by eapply projects_silent, steps_projects. Qed.

Lemma fulfilled_length ts p vs :
  steps (spawn ts []) p → fulfilled p vs → length vs = length ts.
Proof.
  intros Hsteps Hvs. destruct (steps_projects ts [] p Hsteps) as (Hlen & _).
  unfold fulfilled in Hvs. by rewrite Hvs, length_fmap in Hlen.
Qed.

(** The deterministic event loop is one of the runs of the pool. *)
Lemma drive_steps (world : ∀ T, nat → Call T → Settled T) schedule p :
  steps p (drive world schedule p).
Proof.
  revert p. induction schedule as [|i schedule IH]; intros p; [apply rtc_refl|].
  simpl. etrans; [|apply IH].
  unfold settle_at. destruct (tasks p !! i) as [[a|err|r k|T c k]|] eqn:Hi;
    try apply rtc_refl.
  apply rtc_once. by apply (step_settle p i T c k).
Qed.

End Batches.

Lemma label_tasks_owe add remove ids :
  Forall (owes 1) (BulkLabel.label_task add remove <$> ids).
Proof. apply Forall_fmap, Forall_forall. intros. apply label_task_owes. Qed.

Lemma label_tasks_await add remove ids :
  Forall (awaits_le 5) (BulkLabel.label_task add remove <$> ids).
Proof. apply Forall_fmap, Forall_forall. intros. apply label_task_awaits. Qed.

Lemma resolve_tasks_owe ids : Forall (owes 0) (BulkUpdate.resolve_task <$> ids).
Proof. apply Forall_fmap, Forall_forall. intros. apply resolve_task_owes. Qed.

Lemma resolve_tasks_await ids : Forall (awaits_le 1) (BulkUpdate.resolve_task <$> ids).
Proof. apply Forall_fmap, Forall_forall. intros. apply resolve_task_awaits. Qed.

Lemma update_tasks_owe input rs : Forall (owes 1) (BulkUpdate.update_task input <$> rs).
Proof. apply Forall_fmap, Forall_forall. intros. apply update_task_owes. Qed.

Lemma update_tasks_await input rs :
  Forall (awaits_le 2) (BulkUpdate.update_task input <$> rs).
Proof. apply Forall_fmap, Forall_forall. intros. apply update_task_awaits. Qed.

(** [issues bulk-label]: one result per identifier. *)
Lemma bulk_label_complete add remove ids p vs :
  steps (BulkLabel.pool add remove ids) p → fulfilled p vs →
  (results p).*1 ≡ₚ seq 0 (length ids) ∧ length (results p) = length ids.
Proof.
  intros Hsteps Hvs.
  destruct (batch_complete _ p vs (label_tasks_owe add remove ids) Hsteps Hvs)
    as [Hperm Hlen].
  by rewrite length_fmap in Hperm, Hlen.
Qed.

(** [issues bulk-update]: the second pool starts on an empty array, with
    one task per identifier. *)
Lemma bulk_update_batch_inv input ids p :
  BulkUpdate.batch input ids p →
  ∃ resolvedIds, length resolvedIds = length ids
                 ∧ steps (spawn (BulkUpdate.update_task input <$> resolvedIds) []) p.
Proof.
  intros [p1 resolvedIds p2 Hs1 Hvs1 Hs2]. exists resolvedIds.
  unfold BulkUpdate.resolving in Hs1.
  rewrite (batch_silent _ p1 (resolve_tasks_owe ids) Hs1) in Hs2.
  split; [|done]. by rewrite (fulfilled_length _ p1 _ Hs1 Hvs1), length_fmap.
Qed.

(** [issues bulk-update]: one result per identifier. *)
Lemma bulk_update_complete input ids p vs :
  BulkUpdate.batch input ids p → fulfilled p vs →
  (results p).*1 ≡ₚ seq 0 (length ids) ∧ length (results p) = length ids.
Proof.
  intros (resolvedIds & Hlen & Hsteps)%bulk_update_batch_inv Hvs.
  destruct (batch_complete _ p vs (update_tasks_owe input resolvedIds) Hsteps Hvs)
    as [Hperm Hlen'].
  by rewrite length_fmap, Hlen in Hperm, Hlen'.
Qed.

(** ** Splitting and trimming the flags *)

Lemma split_length sep s : length (split sep s) = S (occurrences sep s).
Proof.
  unfold occurrences. induction s as [|c s IH]; [done|].
  rewrite filter_cons. cbn [split]. destruct (decide (c = sep)).
  - cbn [length]. by rewrite IH.
  - destruct (split sep s); cbn [length] in *; [done|by rewrite IH].
Qed.

Lemma split_trim_length flag : length (split_trim flag) = S (occurrences comma flag).
Proof. unfold split_trim. by rewrite length_fmap, split_length. Qed.

Lemma trimStart_head s : from_option is_trimmed false (head (trimStart s)) = false.
Proof.
  induction s as [|c s IH]; [done|]. simpl.
  destruct (is_trimmed c) eqn:Hc; [done|]. simpl. done.
Qed.

Lemma trimStart_last s : trimStart s ≠ [] → last (trimStart s) = last s.
Proof.
  induction s as [|c s IH]; [done|]. simpl.
  destruct (is_trimmed c); [|done]. intros Hne.
  rewrite (IH Hne). destruct s; [done|]. done.
Qed.

Lemma trim_trimmed s : trimmed (trim s).
Proof.
  unfold trimmed, trim, trimEnd. rewrite head_reverse, last_reverse. split.
  - destruct (decide (trimStart (reverse (trimStart s)) = [])) as [->|Hne]; [done|].
    rewrite (trimStart_last _ Hne), last_reverse. apply trimStart_head.
  - apply trimStart_head.
Qed.

Lemma split_trim_trimmed flag : Forall trimmed (split_trim flag).
Proof. apply Forall_fmap, Forall_forall. intros s _. apply trim_trimmed. Qed.

Example split_examples :
  split comma (js "") = [js ""]
  ∧ split_trim (js "ENG-1, ENG-2 ,ENG-3") = [js "ENG-1"; js "ENG-2"; js "ENG-3"]
  ∧ split_trim (js ",") = [js ""; js ""].
Proof. vm_compute. done. Qed.

(** ** What the commands print *)

Lemma bulk_label_printed flags s :
  BulkLabel.run flags (BulkLabel.Printed s) →
  BulkLabel.successCount s + BulkLabel.failedCount s = BulkLabel.totalRequested s
  ∧ length (BulkLabel.summary_results s) = BulkLabel.totalRequested s
  ∧ BulkLabel.totalRequested s = length (BulkLabel.identifiers flags).
Proof.
  inversion 1 as [|p vs _ Hsteps Hvs|]; subst. simpl.
  destruct (bulk_label_complete _ _ _ p vs Hsteps Hvs) as [_ Hlen].
  rewrite length_filter_complement, length_fmap. auto.
Qed.

Lemma bulk_update_printed flags s :
  BulkUpdate.run flags (BulkUpdate.Printed s) →
  BulkUpdate.successCount s + BulkUpdate.failedCount s = BulkUpdate.totalRequested s
  ∧ length (BulkUpdate.summary_results s) = BulkUpdate.totalRequested s
  ∧ BulkUpdate.totalRequested s = length (BulkUpdate.identifiers flags).
Proof.
  inversion 1 as [|p vs _ Hbatch Hvs| |]; subst. simpl.
  destruct (bulk_update_complete _ _ p vs Hbatch Hvs) as [_ Hlen].
  rewrite length_filter_complement, length_fmap. auto.
Qed.

(** C3. Batch completeness. For every list of identifiers, the empty one
    included, and whatever the calls settle to and in whatever order:
    the pools of [issues bulk-label] and [issues bulk-update] can always
    run until [Promise.all] fulfils, and do so within five, respectively
    one and two, turns of the event loop per identifier; when the pool has fulfilled, the
    [results] array holds exactly one result of every task, so as many as
    there are identifiers, and the successes and the failures add up to
    that number. The printed summary therefore has
    [successCount + failedCount = totalRequested = results.length], the
    number of identifiers. *)
Theorem batch_completeness :
  (∀ add remove ids p,
     steps (BulkLabel.pool add remove ids) p →
     (∃ p' vs, steps p p' ∧ fulfilled p' vs)
     ∧ (∀ k, nsteps step k (BulkLabel.pool add remove ids) p → k ≤ length ids * 5)
     ∧ ∀ vs, fulfilled p vs →
         (results p).*1 ≡ₚ seq 0 (length ids)
         ∧ length (results p).*2 = length ids
         ∧ length (filter (λ r, BulkLabel.success r) (results p).*2)
           + length (filter (λ r, ¬ BulkLabel.success r) (results p).*2)
           = length ids)
  ∧ (∀ ids p1,
       steps (BulkUpdate.resolving ids) p1 →
       (∃ p1' resolvedIds, steps p1 p1' ∧ fulfilled p1' resolvedIds)
       ∧ (∀ k, nsteps step k (BulkUpdate.resolving ids) p1 → k ≤ length ids * 1)
       ∧ ∀ resolvedIds, fulfilled p1 resolvedIds →
           length resolvedIds = length ids ∧ results p1 = [])
  ∧ (∀ input resolvedIds k p,
       nsteps step k (BulkUpdate.updating input resolvedIds []) p →
       k ≤ length resolvedIds * 2)
  ∧ (∀ input ids p,
       BulkUpdate.batch input ids p →
       (∃ p' vs, steps p p' ∧ fulfilled p' vs)
       ∧ ∀ vs, fulfilled p vs →
           (results p).*1 ≡ₚ seq 0 (length ids)
           ∧ length (results p).*2 = length ids
           ∧ length (filter (λ r, BulkUpdate.success r) (results p).*2)
             + length (filter (λ r, ¬ BulkUpdate.success r) (results p).*2)
             = length ids)
  ∧ (∀ flags s,
       BulkLabel.run flags (BulkLabel.Printed s) →
       BulkLabel.successCount s + BulkLabel.failedCount s = BulkLabel.totalRequested s
       ∧ length (BulkLabel.summary_results s) = BulkLabel.totalRequested s
       ∧ BulkLabel.totalRequested s = length (BulkLabel.identifiers flags))
  ∧ (∀ flags s,
       BulkUpdate.run flags (BulkUpdate.Printed s) →
       BulkUpdate.successCount s + BulkUpdate.failedCount s = BulkUpdate.totalRequested s
       ∧ length (BulkUpdate.summary_results s) = BulkUpdate.totalRequested s
       ∧ BulkUpdate.totalRequested s = length (BulkUpdate.identifiers flags)).
Proof.
  split_and!.
  - intros add remove ids p Hsteps. split_and!.
    + eapply batch_can_finish;
        [apply label_tasks_owe|apply label_tasks_await|exact Hsteps].
    + intros k Hk. rewrite <-(length_fmap (BulkLabel.label_task add remove)).
      eapply batch_bounded; [apply label_tasks_await|exact Hk].
    + intros vs Hvs.
      destruct (bulk_label_complete _ _ _ p vs Hsteps Hvs) as [Hperm Hlen].
      rewrite length_filter_complement, length_fmap. auto.
  - intros ids p1 Hsteps. split_and!.
    + eapply batch_can_finish;
        [apply resolve_tasks_owe|apply resolve_tasks_await|exact Hsteps].
    + intros k Hk. rewrite <-(length_fmap BulkUpdate.resolve_task).
      eapply batch_bounded; [apply resolve_tasks_await|exact Hk].
    + intros resolvedIds Hvs. split.
      * by rewrite (fulfilled_length _ p1 _ Hsteps Hvs), length_fmap.
      * eapply batch_silent; [apply resolve_tasks_owe|exact Hsteps].
  - intros input resolvedIds k p Hk.
    rewrite <-(length_fmap (BulkUpdate.update_task input)).
    eapply batch_bounded; [apply update_tasks_await|exact Hk].
  - intros input ids p Hbatch. split.
    + destruct (bulk_update_batch_inv _ _ _ Hbatch) as (resolvedIds & _ & Hsteps).
      eapply batch_can_finish;
        [apply update_tasks_owe|apply update_tasks_await|exact Hsteps].
    + intros vs Hvs.
      destruct (bulk_update_complete _ _ p vs Hbatch Hvs) as [Hperm Hlen].
      rewrite length_filter_complement, length_fmap. auto.
  - apply bulk_label_printed.
  - apply bulk_update_printed.
Qed.

(** A run of [issues bulk-update] against the example API. *)
Lemma demo_update_run :
  BulkUpdate.run Demo.update_flags
    (BulkUpdate.Printed
       (BulkUpdate.summary Demo.update_flags (results Demo.updated_pool).*2)).
Proof.
  apply (BulkUpdate.run_printed _ Demo.updated_pool [(); (); ()]).
  - vm_compute. reflexivity.
  - apply (BulkUpdate.batch_intro _ _ Demo.resolved_pool Demo.resolvedIds).
    + apply drive_steps.
    + vm_compute. reflexivity.
    + apply drive_steps.
  - vm_compute. reflexivity.
Qed.

(** A run of [issues bulk-label] against the example API. *)
Lemma demo_label_run :
  BulkLabel.run Demo.label_flags
    (BulkLabel.Printed
       (BulkLabel.summary Demo.label_flags (results Demo.labelled_pool).*2)).
Proof.
  apply (BulkLabel.run_printed _ Demo.labelled_pool [(); ()]).
  - vm_compute. reflexivity.
  - apply drive_steps.
  - vm_compute. reflexivity.
Qed.

Lemma batch_completeness_witness :
  BulkUpdate.run Demo.update_flags
    (BulkUpdate.Printed
       (BulkUpdate.summary Demo.update_flags (results Demo.updated_pool).*2))
  ∧ BulkUpdate.successCount
      (BulkUpdate.summary Demo.update_flags (results Demo.updated_pool).*2)
    + BulkUpdate.failedCount
        (BulkUpdate.summary Demo.update_flags (results Demo.updated_pool).*2)
    = BulkUpdate.totalRequested
        (BulkUpdate.summary Demo.update_flags (results Demo.updated_pool).*2).
Proof.
  split; [exact demo_update_run|].
  apply (proj2 (proj2 (proj2 (proj2 (proj2 batch_completeness))))
           Demo.update_flags _ demo_update_run).
Defined.

Example bulk_update_scenario :
  let s := BulkUpdate.summary Demo.update_flags (results Demo.updated_pool).*2 in
  BulkUpdate.totalRequested s = 3
  ∧ BulkUpdate.successCount s = 2
  ∧ BulkUpdate.failedCount s = 1
  ∧ BulkUpdate.error <$> BulkUpdate.summary_results s
    = [Some (js "Issue not-a-real-id not found"); None; None].
Proof. vm_compute. done. Qed.

Example empty_batch :
  BulkLabel.pool [js "L1"] [] [] = MkPool [] []
  ∧ fulfilled (BulkLabel.pool [js "L1"] [] []) [].
Proof. done. Qed.

(** ** Runs of a single task *)

Arguments js : simpl never.
Arguments error_message : simpl never.

(** Follows a run [H : traces task tr t] of a task that is given in full,
    by cases on what every call settled to. *)
Ltac unroll H :=
  cbn in H;
  lazymatch type of H with
  | _ ∨ _ =>
      destruct H as [[-> ->]|H];
      [|lazymatch type of H with
        | False => destruct H
        | @ex (Settled _) _ =>
            let s := fresh "s" in
            destruct H as (s & ? & -> & H); destruct s; unroll H
        | @ex (list _) _ => destruct H as (? & -> & H); unroll H
        end]
  | context [match ?x with _ => _ end] => destruct x eqn:?; unroll H
  end.

(** Decides [H : x ∈ l] for a list [l] given in full. *)
Ltac pick H :=
  repeat (apply elem_of_cons in H as [H|H];
          [try discriminate H; try (injection H as <-)|]);
  try (apply elem_of_nil in H; destruct H).

Lemma batch_projection {Call Res A} (ts : list (Async Call Res A)) p j t0 :
  steps (spawn ts []) p → ts !! j = Some t0 →
  ∃ t tr, tasks p !! j = Some t ∧ traces t0 tr t ∧ pushed_by j (results p) = pushed tr.
Proof.
  intros (_ & Htasks & _)%steps_projects Hj.
  destruct (Htasks j t0 Hj) as (t & tr & ? & _ & ? & ?). by exists t, tr.
Qed.

(** A rejected call of [issues bulk-label] ends the task with one failure
    result, which carries the message of what was thrown. *)
Lemma label_task_rejected add remove identifier tr t {T} (c : Call T) err :
  traces (BulkLabel.label_task add remove identifier) tr t →
  finished t →
  Settle c (Rejected err) ∈ tr →
  t = Return () ∧ pushed tr = [BulkLabel.failure identifier [] (error_message err)].
Proof.
  intros Htr Hfin Hrej. unfold BulkLabel.label_task in Htr.
  apply (list_elem_of_fmap_2 rejection) in Hrej.
  unroll Htr; try done; cbn in Hrej; pick Hrej; done.
Qed.

(** A rejected [resolveIssueId] of [issues bulk-update] becomes an element
    of [resolvedIds] without an id and with the message. *)
Lemma resolve_task_rejected identifier tr t {T} (c : Call T) err :
  traces (BulkUpdate.resolve_task identifier) tr t →
  finished t →
  Settle c (Rejected err) ∈ tr →
  t = Return {| BulkUpdate.resolved_identifier := identifier;
                BulkUpdate.resolved_id := None;
                BulkUpdate.resolved_error := Some (error_message err) |}
  ∧ pushed tr = [].
Proof.
  intros Htr Hfin Hrej. unfold BulkUpdate.resolve_task in Htr.
  apply (list_elem_of_fmap_2 rejection) in Hrej.
  unroll Htr; try done; cbn in Hrej; pick Hrej; done.
Qed.

(** ... for which the second pool pushes one failure result at once. *)
Lemma update_task_unresolved input identifier msg :
  BulkUpdate.update_task input
    {| BulkUpdate.resolved_identifier := identifier;
       BulkUpdate.resolved_id := None;
       BulkUpdate.resolved_error := Some msg |}
  = push (BulkUpdate.failure identifier [] msg).
Proof. done. Qed.

(** A rejected call of the second pool of [issues bulk-update] ends the
    task with one failure result, which carries the message. *)
Lemma update_task_rejected input r tr t {T} (c : Call T) err :
  traces (BulkUpdate.update_task input r) tr t →
  finished t →
  Settle c (Rejected err) ∈ tr →
  ∃ id, BulkUpdate.resolved_id r = Some id
        ∧ t = Return ()
        ∧ pushed tr = [BulkUpdate.failure (BulkUpdate.resolved_identifier r) id
                         (error_message err)].
Proof.
  intros Htr Hfin Hrej. unfold BulkUpdate.update_task in Htr.
  apply (list_elem_of_fmap_2 rejection) in Hrej.
  unroll Htr; try done; cbn in Hrej; pick Hrej; eauto.
Qed.

Lemma bulk_label_never_rejects add remove ids p :
  steps (BulkLabel.pool add remove ids) p → ∀ err, ¬ rejected p err.
Proof. apply (batch_never_rejects _ 1), label_tasks_owe. Qed.

Lemma bulk_update_resolving_never_rejects ids p :
  steps (BulkUpdate.resolving ids) p → ∀ err, ¬ rejected p err.
Proof. apply (batch_never_rejects _ 0), resolve_tasks_owe. Qed.

Lemma bulk_update_never_rejects input ids p :
  BulkUpdate.batch input ids p → ∀ err, ¬ rejected p err.
Proof.
  intros (resolvedIds & _ & Hsteps)%bulk_update_batch_inv.
  revert Hsteps. apply (batch_never_rejects _ 1), update_tasks_owe.
Qed.

(** C4. Batch isolation, for [issues bulk-label] and [issues bulk-update].
    Whatever the calls settle to and in whatever order, no task of a pool
    ever throws, so [Promise.all] never rejects and the command never ends
    in its outer [catch] because of an item. A task one of whose calls is
    rejected returns after pushing exactly one result, and that result is
    a failure: its [success] is [false], its [error] is the message of
    what was thrown, a string, and it names the item (for a rejected
    [resolveIssueId] of [issues bulk-update], through the element of
    [resolvedIds] it leaves). And in every state of a pool, what task [j]
    has become and what it has pushed are those of a run of task [j]
    alone: the other tasks have no part in it. *)
Theorem batch_isolation :
  (∀ add remove ids p,
     steps (BulkLabel.pool add remove ids) p → ∀ err, ¬ rejected p err)
  ∧ (∀ ids p, steps (BulkUpdate.resolving ids) p → ∀ err, ¬ rejected p err)
  ∧ (∀ input ids p, BulkUpdate.batch input ids p → ∀ err, ¬ rejected p err)
  ∧ (∀ flags err, ¬ BulkLabel.run flags (BulkLabel.HandledThrown err))
  ∧ (∀ flags err, ¬ BulkUpdate.run flags (BulkUpdate.HandledThrown err))
  ∧ (∀ add remove identifier tr t T (c : Call T) err,
       traces (BulkLabel.label_task add remove identifier) tr t →
       finished t →
       Settle c (Rejected err) ∈ tr →
       t = Return ()
       ∧ ∃ res, pushed tr = [res]
                ∧ BulkLabel.success res = false
                ∧ BulkLabel.error res = Some (error_message err)
                ∧ BulkLabel.identifier res = identifier
                ∧ BulkLabel.id res = []
                ∧ BulkLabel.labelsAdded res = None
                ∧ BulkLabel.labelsRemoved res = None)
  ∧ (∀ input identifier tr t T (c : Call T) err,
       traces (BulkUpdate.resolve_task identifier) tr t →
       finished t →
       Settle c (Rejected err) ∈ tr →
       ∃ r res, t = Return r ∧ pushed tr = []
                ∧ BulkUpdate.update_task input r = push res
                ∧ BulkUpdate.success res = false
                ∧ BulkUpdate.error res = Some (error_message err)
                ∧ BulkUpdate.identifier res = identifier
                ∧ BulkUpdate.id res = [])
  ∧ (∀ input r tr t T (c : Call T) err,
       traces (BulkUpdate.update_task input r) tr t →
       finished t →
       Settle c (Rejected err) ∈ tr →
       ∃ id res, BulkUpdate.resolved_id r = Some id
                 ∧ t = Return ()
                 ∧ pushed tr = [res]
                 ∧ BulkUpdate.success res = false
                 ∧ BulkUpdate.error res = Some (error_message err)
                 ∧ BulkUpdate.identifier res = BulkUpdate.resolved_identifier r
                 ∧ BulkUpdate.id res = id)
  ∧ (∀ add remove ids p j identifier,
       steps (BulkLabel.pool add remove ids) p →
       ids !! j = Some identifier →
       ∃ t tr, tasks p !! j = Some t
               ∧ traces (BulkLabel.label_task add remove identifier) tr t
               ∧ pushed_by j (results p) = pushed tr)
  ∧ (∀ input ids p j identifier,
       BulkUpdate.batch input ids p →
       ids !! j = Some identifier →
       ∃ r tr1 t tr,
         traces (BulkUpdate.resolve_task identifier) tr1 (Return r)
         ∧ tasks p !! j = Some t
         ∧ traces (BulkUpdate.update_task input r) tr t
         ∧ pushed_by j (results p) = pushed tr).
Proof.
  split_and!.
  - apply bulk_label_never_rejects.
  - apply bulk_update_resolving_never_rejects.
  - apply bulk_update_never_rejects.
  - intros flags err. inversion 1 as [| |p err' _ Hsteps Hrej]; subst.
    by eapply bulk_label_never_rejects.
  - intros flags err.
    inversion 1 as [| |p err' _ Hsteps Hrej|p err' _ Hbatch Hrej]; subst.
    + by eapply bulk_update_resolving_never_rejects.
    + by eapply bulk_update_never_rejects.
  - intros add remove identifier tr t T c err Htr Hfin Hrej.
    destruct (label_task_rejected _ _ _ _ _ c err Htr Hfin Hrej) as [-> Hpushed].
    split; [done|]. eexists. split; [exact Hpushed|]. by split_and!.
  - intros input identifier tr t T c err Htr Hfin Hrej.
    destruct (resolve_task_rejected _ _ _ c err Htr Hfin Hrej) as [-> Hpushed].
    eexists _, _. split_and!; try apply update_task_unresolved; done.
  - intros input r tr t T c err Htr Hfin Hrej.
    destruct (update_task_rejected _ _ _ _ c err Htr Hfin Hrej)
      as (id & Hid & -> & Hpushed).
    eexists id, _. split_and!; [done|done|exact Hpushed|done..].
  - intros add remove ids p j identifier Hsteps Hj.
    eapply (batch_projection _ p j); [exact Hsteps|]. by rewrite list_lookup_fmap, Hj.
  - intros input ids p j identifier [p1 resolvedIds p2 Hs1 Hvs1 Hs2] Hj.
    destruct (batch_projection (BulkUpdate.resolve_task <$> ids) p1 j
                (BulkUpdate.resolve_task identifier) Hs1)
      as (t1 & tr1 & Ht1 & Htr1 & _); [by rewrite list_lookup_fmap, Hj|].
    unfold fulfilled in Hvs1. rewrite Hvs1, list_lookup_fmap in Ht1.
    destruct (resolvedIds !! j) as [r|] eqn:Hr; [|done]. injection Ht1 as <-.
    unfold BulkUpdate.resolving in Hs1.
    rewrite (batch_silent _ p1 (resolve_tasks_owe ids) Hs1) in Hs2.
    destruct (batch_projection (BulkUpdate.update_task input <$> resolvedIds) p2 j
                (BulkUpdate.update_task input r) Hs2)
      as (t & tr & Ht & Htr & Hby); [by rewrite list_lookup_fmap, Hr|].
    by exists r, tr1, t, tr.
Qed.

Lemma batch_isolation_witness :
  let identifier := js "not-a-real-id" in
  let err := ErrorObject (js "Issue not-a-real-id not found") in
  let tr := [Settle (ResolveIssueId identifier) (Rejected err);
             Pushed (BulkLabel.failure identifier [] (error_message err))] in
  let t : Async Call BulkLabel.LabelResult () := Return () in
  (traces (BulkLabel.label_task [js "L3"] [] identifier) tr t
   ∧ finished t
   ∧ Settle (ResolveIssueId identifier) (Rejected err) ∈ tr)
  ∧ (t = Return ()
     ∧ ∃ res, pushed tr = [res]
              ∧ BulkLabel.success res = false
              ∧ BulkLabel.error res = Some (error_message err)
              ∧ BulkLabel.identifier res = identifier)
  ∧ ∀ err', ¬ rejected Demo.labelled_pool err'.
Proof.
  intros identifier err tr t.
  assert (traces (BulkLabel.label_task [js "L3"] [] identifier) tr t) as Htr.
  { cbn. right. eexists _, _. split; [reflexivity|]. cbn.
    right. eexists. split; [reflexivity|]. cbn. by left. }
  assert (finished t) as Hfin by exact I.
  assert (Settle (ResolveIssueId identifier) (Rejected err) ∈ tr) as Hrej
    by apply list_elem_of_here.
  split_and!; try assumption.
  - apply (proj1 (proj2 (proj2 (proj2 (proj2 (proj2 batch_isolation)))))
             [js "L3"] [] identifier tr t _ (ResolveIssueId identifier) err
             Htr Hfin Hrej).
  - destruct (proj1 (proj2 (proj2 (proj2 (proj2 (proj2 batch_isolation)))))
                [js "L3"] [] identifier tr t _ (ResolveIssueId identifier) err
                Htr Hfin Hrej)
      as (_ & res & Hpushed & Hsuccess & Herror & Hident & _).
    exists res. by split_and!.
  - apply (proj1 batch_isolation
             (BulkLabel.addLabelIds Demo.label_flags)
             (BulkLabel.removeLabelIds Demo.label_flags)
             (BulkLabel.identifiers Demo.label_flags)).
    apply drive_steps.
Defined.

(** Proves [traces task tr t] for a task and a run given in full. *)
Ltac follow :=
  repeat (cbn;
          first [ left; split; reflexivity
                | right; first [eexists _, _|eexists]; split; [reflexivity|] ]).

(** C5. Effective-delta reporting. Whenever a task of [issues bulk-label]
    pushes a success, the issue's labels were fetched before, and the
    result reports as [labelsAdded] the labels to add that the issue did
    not have and as [labelsRemoved] the labels to remove that it had (a
    field is left out when there is no such label). [issues remove-labels]
    reports [labelsRemoved], and [issues add-labels] [labelsAdded], the
    same way. *)
Theorem effective_delta_reported :
  (∀ add remove identifier tr t r,
     traces (BulkLabel.label_task add remove identifier) tr t →
     r ∈ pushed tr →
     BulkLabel.success r = true →
     ∃ issue (nodes : list IssueLabel),
       Settle (IssueLabels issue) (Fulfilled nodes) ∈ tr
       ∧ BulkLabel.labelsAdded r
         = nonempty_or_undefined (filter (λ id, id ∉ label_id <$> nodes) add)
       ∧ BulkLabel.labelsRemoved r
         = nonempty_or_undefined (filter (λ id, id ∈ label_id <$> nodes) remove)
       ∧ (∀ x, x ∈ reported (BulkLabel.labelsAdded r)
               ↔ x ∈ add ∧ x ∉ label_id <$> nodes)
       ∧ (∀ x, x ∈ reported (BulkLabel.labelsRemoved r)
               ↔ x ∈ remove ∧ x ∈ label_id <$> nodes))
  ∧ (∀ remove existing x,
       x ∈ Labels.labelsRemoved remove existing ↔ x ∈ remove ∧ x ∈ existing)
  ∧ (∀ add existing x,
       x ∈ Labels.labelsAdded add existing ↔ x ∈ add ∧ x ∉ existing).
Proof.
  split_and!.
  - intros add remove identifier tr t r Htr Hr Hsuccess.
    unfold BulkLabel.label_task in Htr.
    unroll Htr; cbn in Hr; pick Hr; subst r; try discriminate Hsuccess.
    all: eexists _, _; split_and!;
      [repeat first [apply list_elem_of_here|apply list_elem_of_further]
      |reflexivity|reflexivity| |].
    all: intros x; cbn [BulkLabel.updated BulkLabel.labelsAdded BulkLabel.labelsRemoved];
      rewrite reported_nonempty_or_undefined.
    all: first [apply elem_of_labelsToAdd|apply elem_of_labelsToRemove].
  - apply elem_of_labelsRemoved.
  - intros add existing x. unfold Labels.labelsAdded.
    rewrite list_elem_of_filter. tauto.
Qed.

Lemma effective_delta_reported_witness :
  let add := [js "L2"; js "L3"] in
  let remove := [js "L1"] in
  let issue := {| issue_id := js "id-1"; issue_identifier := js "ENG-1" |} in
  let nodes := [{| label_id := js "L1" |}; {| label_id := js "L2" |}] in
  let payload := {| payload_success := true; payload_ref := 0 |} in
  let r := BulkLabel.updated (js "ENG-1") (js "id-1") (Some issue) [js "L3"] [js "L1"] in
  let tr := [Settle (ResolveIssueId (js "ENG-1")) (Fulfilled (js "id-1"));
             Settle (ClientIssue (js "id-1")) (Fulfilled (Some issue));
             Settle (IssueLabels issue) (Fulfilled nodes);
             Settle (UpdateIssue (js "id-1")
                       {| stateId := None; priority := None; assigneeId := None;
                          projectId := None; estimate := None;
                          labelIds := Some [js "L2"; js "L3"] |})
                    (Fulfilled payload);
             Settle (PayloadIssue payload) (Fulfilled (Some issue));
             Pushed r] in
  (traces (BulkLabel.label_task add remove (js "ENG-1")) tr (Return ())
   ∧ r ∈ pushed tr
   ∧ BulkLabel.success r = true)
  ∧ BulkLabel.labelsAdded r = Some [js "L3"]
  ∧ BulkLabel.labelsRemoved r = Some [js "L1"]
  ∧ ∃ issue' (nodes' : list IssueLabel),
      Settle (IssueLabels issue') (Fulfilled nodes') ∈ tr
      ∧ ∀ x, x ∈ reported (BulkLabel.labelsAdded r)
             ↔ x ∈ add ∧ x ∉ label_id <$> nodes'.
Proof.
  intros add remove issue nodes payload r tr.
  assert (traces (BulkLabel.label_task add remove (js "ENG-1")) tr (Return ())) as Htr.
  { unfold BulkLabel.label_task. follow. }
  assert (r ∈ pushed tr) as Hr by apply list_elem_of_here.
  assert (BulkLabel.success r = true) as Hsuccess by reflexivity.
  split_and!; try done.
  destruct (proj1 effective_delta_reported add remove (js "ENG-1") tr (Return ()) r
              Htr Hr Hsuccess) as (issue' & nodes' & Hin & _ & _ & Hadded & _).
  by exists issue', nodes'.
Defined.

(** ** The [--ids] flag *)

Lemma no_issue_ids_distinct :
  BulkLabel.no_label_operations ≠ BulkLabel.no_issue_ids
  ∧ BulkUpdate.no_update_fields ≠ BulkUpdate.no_issue_ids.
Proof.
  split; intros Heq; apply (f_equal (λ e, length (message e))) in Heq;
    vm_compute in Heq; discriminate Heq.
Qed.

Lemma bulk_label_validate flags :
  (length (BulkLabel.identifiers flags) =? 0) = false
  ∧ BulkLabel.validate flags ≠ Some BulkLabel.no_issue_ids.
Proof.
  assert ((length (BulkLabel.identifiers flags) =? 0) = false) as Hids.
  { unfold BulkLabel.identifiers. rewrite split_trim_length. done. }
  split; [done|]. unfold BulkLabel.validate. rewrite Hids.
  destruct (_ && _); [|done]. intros Heq. apply (inj Some) in Heq.
  by apply no_issue_ids_distinct.
Qed.

Lemma bulk_update_validate flags :
  (length (BulkUpdate.identifiers flags) =? 0) = false
  ∧ BulkUpdate.validate flags ≠ Some BulkUpdate.no_issue_ids.
Proof.
  assert ((length (BulkUpdate.identifiers flags) =? 0) = false) as Hids.
  { unfold BulkUpdate.identifiers. rewrite split_trim_length. done. }
  split; [done|]. unfold BulkUpdate.validate. rewrite Hids.
  destruct (length (BulkUpdate.keys _) =? 0); [|done].
  intros Heq. apply (inj Some) in Heq.
  by apply no_issue_ids_distinct.
Qed.

(** C10. Splitting any string on [','] gives at least one piece, the empty
    string giving the one empty piece. So in both bulk commands the test
    [identifiers.length === 0] is false for every value of [--ids], the
    command never ends with "No issue IDs provided", and whenever a
    summary is printed its [totalRequested] is at least one. *)
Theorem ids_flag_never_splits_to_nothing :
  (∀ s, 1 ≤ length (split comma s))
  ∧ split comma [] = [[]]
  ∧ (∀ flags,
       (length (BulkLabel.identifiers flags) =? 0) = false
       ∧ BulkLabel.validate flags ≠ Some BulkLabel.no_issue_ids
       ∧ ¬ BulkLabel.run flags (BulkLabel.Handled BulkLabel.no_issue_ids))
  ∧ (∀ flags,
       (length (BulkUpdate.identifiers flags) =? 0) = false
       ∧ BulkUpdate.validate flags ≠ Some BulkUpdate.no_issue_ids
       ∧ ¬ BulkUpdate.run flags (BulkUpdate.Handled BulkUpdate.no_issue_ids))
  ∧ (∀ flags s,
       BulkLabel.run flags (BulkLabel.Printed s) → 1 ≤ BulkLabel.totalRequested s)
  ∧ (∀ flags s,
       BulkUpdate.run flags (BulkUpdate.Printed s) → 1 ≤ BulkUpdate.totalRequested s).
Proof.
  split_and!.
  - intros s. rewrite split_length. lia.
  - done.
  - intros flags. destruct (bulk_label_validate flags) as [Hids Hval].
    split_and!; [done..|]. by inversion 1.
  - intros flags. destruct (bulk_update_validate flags) as [Hids Hval].
    split_and!; [done..|]. by inversion 1.
  - intros flags s (_ & _ & ->)%bulk_label_printed.
    unfold BulkLabel.identifiers. rewrite split_trim_length. lia.
  - intros flags s (_ & _ & ->)%bulk_update_printed.
    unfold BulkUpdate.identifiers. rewrite split_trim_length. lia.
Qed.

Lemma ids_flag_never_splits_to_nothing_witness :
  BulkLabel.run Demo.label_flags
    (BulkLabel.Printed
       (BulkLabel.summary Demo.label_flags (results Demo.labelled_pool).*2))
  ∧ 1 ≤ BulkLabel.totalRequested
          (BulkLabel.summary Demo.label_flags (results Demo.labelled_pool).*2).
Proof.
  split; [exact demo_label_run|].
  apply (proj1 (proj2 (proj2 (proj2 (proj2 ids_flag_never_splits_to_nothing))))
           Demo.label_flags _ demo_label_run).
Defined.

(** C6, as the code has it. The identifiers of a bulk command are the
    pieces of the [--ids] flag between its commas, each trimmed, in order
    and with repeated tokens kept: one more than the flag has commas. The
    summary's [totalRequested] and the number of results are that number,
    so a token given twice is requested, and reported, twice. *)
Theorem ids_flag_split_and_trimmed :
  (∀ flags,
     BulkLabel.identifiers flags = trim <$> split comma (BulkLabel.ids flags)
     ∧ Forall trimmed (BulkLabel.identifiers flags)
     ∧ length (BulkLabel.identifiers flags) = S (occurrences comma (BulkLabel.ids flags)))
  ∧ (∀ flags,
       BulkUpdate.identifiers flags = trim <$> split comma (BulkUpdate.ids flags)
       ∧ Forall trimmed (BulkUpdate.identifiers flags)
       ∧ length (BulkUpdate.identifiers flags)
         = S (occurrences comma (BulkUpdate.ids flags)))
  ∧ (∀ flags s,
       BulkLabel.run flags (BulkLabel.Printed s) →
       BulkLabel.totalRequested s = S (occurrences comma (BulkLabel.ids flags))
       ∧ length (BulkLabel.summary_results s)
         = S (occurrences comma (BulkLabel.ids flags)))
  ∧ (∀ flags s,
       BulkUpdate.run flags (BulkUpdate.Printed s) →
       BulkUpdate.totalRequested s = S (occurrences comma (BulkUpdate.ids flags))
       ∧ length (BulkUpdate.summary_results s)
         = S (occurrences comma (BulkUpdate.ids flags))).
Proof.
  split_and!.
  - intros flags. split_and!;
      [done|apply split_trim_trimmed|apply split_trim_length].
  - intros flags. split_and!;
      [done|apply split_trim_trimmed|apply split_trim_length].
  - intros flags s (_ & -> & ->)%bulk_label_printed.
    unfold BulkLabel.identifiers. by rewrite split_trim_length.
  - intros flags s (_ & -> & ->)%bulk_update_printed.
    unfold BulkUpdate.identifiers. by rewrite split_trim_length.
Qed.

Lemma ids_flag_split_and_trimmed_witness :
  BulkUpdate.run Demo.update_flags
    (BulkUpdate.Printed
       (BulkUpdate.summary Demo.update_flags (results Demo.updated_pool).*2))
  ∧ BulkUpdate.totalRequested
      (BulkUpdate.summary Demo.update_flags (results Demo.updated_pool).*2)
    = S (occurrences comma (BulkUpdate.ids Demo.update_flags))
  ∧ length (BulkUpdate.summary_results
              (BulkUpdate.summary Demo.update_flags (results Demo.updated_pool).*2))
    = S (occurrences comma (BulkUpdate.ids Demo.update_flags)).
Proof.
  split; [exact demo_update_run|].
  apply (proj2 (proj2 (proj2 ids_flag_split_and_trimmed))
           Demo.update_flags _ demo_update_run).
Defined.

(** C6, as stated, fails: with [--ids ENG-1,ENG-1] the identifiers are not
    deduplicated; two tasks run, two results are printed and
    [totalRequested] is two, while there is one distinct token. *)
Lemma repeated_id_is_requested_twice :
  BulkLabel.ids Demo.label_flags = js "ENG-1,ENG-1"
  ∧ BulkLabel.identifiers Demo.label_flags = [js "ENG-1"; js "ENG-1"]
  ∧ ¬ NoDup (BulkLabel.identifiers Demo.label_flags)
  ∧ length (remove_dups (BulkLabel.identifiers Demo.label_flags)) = 1
  ∧ fulfilled Demo.labelled_pool [(); ()]
  ∧ BulkLabel.totalRequested
      (BulkLabel.summary Demo.label_flags (results Demo.labelled_pool).*2) = 2
  ∧ length (BulkLabel.summary_results
              (BulkLabel.summary Demo.label_flags (results Demo.labelled_pool).*2))
    = 2.
Proof.
  assert (BulkLabel.identifiers Demo.label_flags = [js "ENG-1"; js "ENG-1"]) as Hids.
  { vm_compute. reflexivity. }
  split_and!; try (vm_compute; reflexivity).
  rewrite Hids. intros Hnd. apply NoDup_cons in Hnd as [Hnot _].
  apply Hnot. by left.
Qed.

(** ** The config store *)

Section IoFacts.
Implicit Types (fs : Config.FS) (inv pre : Config.FS → Prop).

Lemma current_app fs (t1 t2 : list Config.FS) :
  Config.current fs (t1 ++ t2) = Config.current (Config.current fs t1) t2.
Proof. unfold Config.current. rewrite last_app. by destruct (last t2). Qed.

Lemma io_spec_bind {E A B} pre (m : Config.IO E A) (f : A → Config.IO E B)
    inv mid post exn :
  Config.io_spec pre m inv mid exn →
  (∀ a, Config.io_spec (mid a) (f a) inv post exn) →
  Config.io_spec pre (Config.io_bind m f) inv post exn.
Proof.
  intros Hm Hf fs Hpre. destruct (Hm fs Hpre) as [Hinv Hres].
  unfold Config.io_bind. destruct (m fs) as [t1 [e|a]]; simpl in *; [done|].
  destruct (Hf a _ Hres) as [Hinv' Hres']. split.
  - by apply Forall_app.
  - by rewrite current_app.
Qed.

Lemma io_spec_try {E E' A} pre (m : Config.IO E A) (h : E → Config.IO E' A)
    inv post exn exn' :
  Config.io_spec pre m inv post exn →
  (∀ e, Config.io_spec (exn e) (h e) inv post exn') →
  Config.io_spec pre (Config.io_try m h) inv post exn'.
Proof.
  intros Hm Hh fs Hpre. destruct (Hm fs Hpre) as [Hinv Hres].
  unfold Config.io_try. destruct (m fs) as [t1 [e|a]]; simpl in *; [|done].
  destruct (Hh e _ Hres) as [Hinv' Hres']. split.
  - by apply Forall_app.
  - by rewrite current_app.
Qed.

Lemma io_spec_ret {E A} pre (a : A) inv (post : A → Config.FS → Prop)
    (exn : E → Config.FS → Prop) :
  (∀ fs, pre fs → post a fs) → Config.io_spec pre (Config.io_ret a) inv post exn.
Proof. intros Hpost fs Hpre. split; [constructor|]. by apply Hpost. Qed.

Lemma io_spec_throw {E A} pre (e : E) inv (post : A → Config.FS → Prop)
    (exn : E → Config.FS → Prop) :
  (∀ fs, pre fs → exn e fs) → Config.io_spec pre (Config.io_throw e) inv post exn.
Proof. intros Hexn fs Hpre. split; [constructor|]. by apply Hexn. Qed.

Lemma io_spec_weaken {E A} pre pre' (m : Config.IO E A) inv inv'
    (post post' : A → Config.FS → Prop) (exn exn' : E → Config.FS → Prop) :
  (∀ fs, pre' fs → pre fs) →
  (∀ fs, inv fs → inv' fs) →
  (∀ a fs, post a fs → post' a fs) →
  (∀ e fs, exn e fs → exn' e fs) →
  Config.io_spec pre m inv post exn → Config.io_spec pre' m inv' post' exn'.
Proof.
  intros Hpre' Hinv Hpost Hexn Hm fs Hpre.
  destruct (Hm fs (Hpre' fs Hpre)) as [Hall Hres]. split.
  - eapply Forall_impl; [exact Hall|]. auto.
  - destruct (m fs).2; auto.
Qed.

(** A fact that does not depend on the state may be taken out of the
    precondition. *)
Lemma io_spec_pure {E A} (φ : Prop) pre (m : Config.IO E A) inv
    (post : A → Config.FS → Prop) (exn : E → Config.FS → Prop) :
  (φ → Config.io_spec pre m inv post exn) →
  Config.io_spec (λ fs, φ ∧ pre fs) m inv post exn.
Proof. intros Hm fs [Hφ Hpre]. by apply Hm. Qed.

End IoFacts.

Section WriteConfigFacts.
Variable homedir : jsstring.
Variable now : N.
Variable stringify : Config.ConfigFile → jsstring.
Variable fl : Config.Faults.
Variable config : Config.ConfigFile.
Variable fs0 : Config.FS.

Local Abbreviation unchanged := (Config.unchanged homedir fs0).
Local Abbreviation old_or_new := (Config.old_or_new homedir stringify config fs0).

Lemma tempFile_ne : Config.tempFile homedir now ≠ Config.CONFIG_FILE homedir.
Proof.
  unfold Config.tempFile, Config.CONFIG_FILE, Config.join. intros Heq.
  do 2 apply app_inv_head in Heq.
  apply (f_equal length) in Heq. rewrite length_app in Heq.
  change (length (js "config.json.tmp.")) with 16 in Heq.
  change (length (js "config.json")) with 11 in Heq. lia.
Qed.

Lemma writing_stored path data upto fs :
  path ≠ Config.CONFIG_FILE homedir →
  Forall (λ s, Config.stored homedir s = Config.stored homedir fs)
         (Config.writing path data upto fs).
Proof.
  intros Hne. unfold Config.writing. apply Forall_fmap, Forall_forall.
  intros n _. unfold Config.stored. simpl. by rewrite lookup_insert_ne.
Qed.

Lemma writing_current path data upto fs :
  Config.current fs (Config.writing path data upto fs)
  = Config.MkFS (<[path := take upto data]> (Config.files fs)) (Config.dirs fs).
Proof.
  unfold Config.current, Config.writing.
  rewrite seq_S, fmap_app. simpl. by rewrite last_snoc.
Qed.

Lemma ensureConfigDir_spec :
  Config.io_spec unchanged (Config.ensureConfigDir homedir fl) unchanged
    (λ _ fs, unchanged fs)
    (λ err fs, unchanged fs ∧ err = Config.thrown fl ∧ Config.mkdir_fault fl = true).
Proof.
  intros fs Hpre. unfold Config.ensureConfigDir, Config.mkdirSync.
  destruct (_ || _); [by split; [constructor|]|].
  destruct (Config.mkdir_fault fl) eqn:Hfault; simpl.
  - by split; [constructor|].
  - split; [by apply Forall_singleton|done].
Qed.

Lemma writeFileSync_spec :
  Config.io_spec unchanged
    (Config.writeFileSync fl (Config.tempFile homedir now) (stringify config))
    unchanged
    (λ _ fs, unchanged fs
             ∧ Config.files fs !! Config.tempFile homedir now = Some (stringify config)
             ∧ Config.write_fault fl = None)
    (λ err fs, unchanged fs ∧ err = Config.thrown fl ∧ Config.write_fault fl ≠ None).
Proof.
  intros fs Hpre. unfold Config.writeFileSync.
  pose proof tempFile_ne as Hne.
  assert (∀ upto,
    Forall unchanged
      (Config.writing (Config.tempFile homedir now) (stringify config) upto fs))
    as Hwriting.
  { intros upto. eapply Forall_impl; [by apply writing_stored|].
    intros s Hs. unfold unchanged. by rewrite Hs. }
  assert (∀ upto,
    unchanged (Config.current fs
      (Config.writing (Config.tempFile homedir now) (stringify config) upto fs)))
    as Hcurrent.
  { intros upto. rewrite writing_current. unfold unchanged, Config.stored. simpl.
    by rewrite lookup_insert_ne. }
  destruct (Config.write_fault fl) as [[|written]|] eqn:Hfault; simpl.
  - by split; [constructor|].
  - split; [apply Hwriting|]. by split; [apply Hcurrent|].
  - split; [apply Hwriting|]. split_and!; [apply Hcurrent| |done].
    rewrite writing_current. simpl. by rewrite lookup_insert_eq, firstn_all.
Qed.

Lemma renameSync_spec :
  Config.io_spec
    (λ fs, unchanged fs
           ∧ Config.files fs !! Config.tempFile homedir now = Some (stringify config))
    (Config.renameSync fl (Config.tempFile homedir now) (Config.CONFIG_FILE homedir))
    old_or_new
    (λ _ fs, Config.stored homedir fs = Some (stringify config)
             ∧ Config.files fs !! Config.tempFile homedir now = None
             ∧ Config.rename_fault fl = false)
    (λ err fs, unchanged fs ∧ err = Config.thrown fl ∧ Config.rename_fault fl = true).
Proof.
  intros fs [Hpre Htemp]. unfold Config.renameSync. rewrite Htemp.
  pose proof tempFile_ne as Hne.
  destruct (Config.rename_fault fl) eqn:Hfault; simpl.
  - by split; [constructor|].
  - assert (Config.stored homedir
              (Config.MkFS (<[Config.CONFIG_FILE homedir := stringify config]>
                              (delete (Config.tempFile homedir now) (Config.files fs)))
                           (Config.dirs fs))
            = Some (stringify config)) as Hnew.
    { unfold Config.stored. simpl. by rewrite lookup_insert_eq. }
    split; [apply Forall_singleton; by right|]. split_and!; [done| |done].
    unfold Config.current. simpl.
    by rewrite lookup_insert_ne, lookup_delete_eq.
Qed.

Lemma unlinkSync_spec :
  Config.io_spec unchanged (Config.unlinkSync fl (Config.tempFile homedir now))
    unchanged
    (λ _ fs, unchanged fs ∧ Config.files fs !! Config.tempFile homedir now = None)
    (λ _ fs, unchanged fs
             ∧ (Config.unlink_fault fl = false →
                Config.files fs !! Config.tempFile homedir now = None)).
Proof.
  intros fs Hpre. unfold Config.unlinkSync.
  pose proof tempFile_ne as Hne.
  destruct (Config.files fs !! Config.tempFile homedir now) eqn:Htemp; simpl.
  - destruct (Config.unlink_fault fl) eqn:Hfault; simpl.
    + by split; [constructor|].
    + assert (unchanged
                (Config.MkFS (delete (Config.tempFile homedir now) (Config.files fs))
                             (Config.dirs fs))) as Hsame.
      { unfold unchanged, Config.stored. simpl. by rewrite lookup_delete_ne. }
      split; [by apply Forall_singleton|]. split; [done|].
      unfold Config.current. simpl. by rewrite lookup_delete_eq.
  - by split; [constructor|].
Qed.

(** What [writeConfig] does, whatever the file system does to it. *)
Lemma writeConfig_spec :
  Config.io_spec unchanged (Config.writeConfig homedir now stringify fl config)
    old_or_new
    (λ _ fs, Config.stored homedir fs = Some (stringify config)
             ∧ Config.files fs !! Config.tempFile homedir now = None
             ∧ Config.write_fault fl = None
             ∧ Config.rename_fault fl = false)
    (λ e fs,
       unchanged fs
       ∧ (e = Config.Uncaught (Config.thrown fl) ∧ Config.mkdir_fault fl = true
          ∨ e = Config.Cli (Config.write_failed (Config.thrown fl))
            ∧ (Config.write_fault fl ≠ None ∨ Config.rename_fault fl = true)
            ∧ (Config.unlink_fault fl = false →
               Config.files fs !! Config.tempFile homedir now = None))).
Proof.
  unfold Config.writeConfig.
  eapply io_spec_bind with (mid := λ _ fs, unchanged fs).
  { eapply io_spec_try with
      (exn := λ err fs, unchanged fs ∧ err = Config.thrown fl
                        ∧ Config.mkdir_fault fl = true).
    - eapply io_spec_weaken; [..|apply ensureConfigDir_spec].
      + done.
      + intros fs Hfs. by left.
      + done.
      + done.
    - intros err. apply io_spec_throw. intros fs (? & -> & ?). auto. }
  intros _.
  eapply io_spec_try with
    (exn := λ err fs, (err = Config.thrown fl
                       ∧ (Config.write_fault fl ≠ None ∨ Config.rename_fault fl = true))
                      ∧ unchanged fs).
  { eapply io_spec_bind with
      (mid := λ _ fs,
         Config.write_fault fl = None
         ∧ (unchanged fs
            ∧ Config.files fs !! Config.tempFile homedir now
              = Some (stringify config))).
    - eapply io_spec_weaken; [..|apply writeFileSync_spec].
      + done.
      + intros fs Hfs. by left.
      + intros [] fs (? & ? & ?). auto.
      + intros err fs (? & ? & ?). auto.
    - intros []. apply io_spec_pure. intros Hwrite.
      eapply io_spec_weaken; [..|apply renameSync_spec].
      + done.
      + done.
      + intros [] fs (? & ? & ?). auto.
      + intros err fs (? & ? & ?). auto. }
  intros error. apply io_spec_pure. intros [-> Hfault].
  eapply io_spec_bind with
    (mid := λ _ fs, unchanged fs
                    ∧ (Config.unlink_fault fl = false →
                       Config.files fs !! Config.tempFile homedir now = None)).
  { eapply io_spec_try with
      (exn := λ _ fs, unchanged fs
                      ∧ (Config.unlink_fault fl = false →
                         Config.files fs !! Config.tempFile homedir now = None)).
    - eapply io_spec_weaken; [..|apply unlinkSync_spec].
      + done.
      + intros fs Hfs. by left.
      + intros [] fs [? ?]. auto.
      + done.
    - intros _. by apply io_spec_ret. }
  intros _. apply io_spec_throw. intros fs [? ?]. auto.
Qed.

End WriteConfigFacts.

(** C9, as the code has it. [writeConfig] writes the serialized config to
    a temporary file next to the config file and renames it over the
    config file. Whatever fails, every state a reader may find holds under
    the config file either what was stored before or the whole new
    config. When writing the temporary file or renaming it fails, the
    stored config is as before, a [CONFIG_ERROR] is raised, and removing
    the temporary file has been attempted: it is gone unless that removal
    itself failed, which the code ignores. When [writeConfig] returns, the
    new config is stored and the temporary file is gone. (A failure to
    create the config directory is not caught: it leaves the file system
    as it was.) *)
Theorem writeConfig_atomic_by_rename homedir now stringify fl config fs :
  (∀ s, s ∈ Config.observable homedir now stringify fl config fs →
        Config.stored homedir s = Config.stored homedir fs
        ∨ Config.stored homedir s = Some (stringify config))
  ∧ match (Config.writeConfig homedir now stringify fl config fs).2 with
    | inr _ =>
        Config.stored homedir (Config.final homedir now stringify fl config fs)
        = Some (stringify config)
        ∧ Config.files (Config.final homedir now stringify fl config fs)
            !! Config.tempFile homedir now = None
        ∧ Config.write_fault fl = None ∧ Config.rename_fault fl = false
    | inl (Config.Uncaught err) =>
        Config.stored homedir (Config.final homedir now stringify fl config fs)
        = Config.stored homedir fs
        ∧ err = Config.thrown fl ∧ Config.mkdir_fault fl = true
    | inl (Config.Cli e) =>
        Config.stored homedir (Config.final homedir now stringify fl config fs)
        = Config.stored homedir fs
        ∧ e = Config.write_failed (Config.thrown fl)
        ∧ code e = CONFIG_ERROR
        ∧ (Config.write_fault fl ≠ None ∨ Config.rename_fault fl = true)
        ∧ (Config.unlink_fault fl = false →
           Config.files (Config.final homedir now stringify fl config fs)
             !! Config.tempFile homedir now = None)
    end
  ∧ (Config.mkdir_fault fl = false →
     Config.write_fault fl ≠ None ∨ Config.rename_fault fl = true →
     (Config.writeConfig homedir now stringify fl config fs).2
     = inl (Config.Cli (Config.write_failed (Config.thrown fl)))).
Proof.
  destruct (writeConfig_spec homedir now stringify fl config fs fs eq_refl)
    as [Hinv Hres].
  unfold Config.observable, Config.final.
  split.
  { intros s [->|Hs]%elem_of_cons; [by left|].
    by apply (proj1 (Forall_forall _ _) Hinv). }
  destruct (Config.writeConfig homedir now stringify fl config fs)
    as [trace [[err|e]|[]]]; simpl in *.
  - destruct Hres as [Hsame [[[= ->] Hfault]|[[=] _]]].
    split_and!; try done. congruence.
  - destruct Hres as [Hsame [[[=] _]|([= ->] & Hfault & Htemp)]].
    split_and!; done.
  - destruct Hres as (Hnew & Htemp & Hwrite & Hrename).
    split_and!; try done. intros _ [?|?]; congruence.
Qed.

Lemma writeConfig_atomic_by_rename_witness :
  (Config.mkdir_fault ConfigDemo.rename_fails = false
   ∧ (Config.write_fault ConfigDemo.rename_fails ≠ None
      ∨ Config.rename_fault ConfigDemo.rename_fails = true))
  ∧ (Config.writeConfig ConfigDemo.homedir ConfigDemo.now ConfigDemo.stringify
       ConfigDemo.rename_fails ConfigDemo.config ConfigDemo.fs).2
    = inl (Config.Cli (Config.write_failed (Config.thrown ConfigDemo.rename_fails))).
Proof.
  assert (Config.mkdir_fault ConfigDemo.rename_fails = false) as Hmkdir
    by reflexivity.
  assert (Config.write_fault ConfigDemo.rename_fails ≠ None
          ∨ Config.rename_fault ConfigDemo.rename_fails = true) as Hfault
    by (right; reflexivity).
  split; [by split|].
  apply (proj2 (proj2 (writeConfig_atomic_by_rename ConfigDemo.homedir ConfigDemo.now
                         ConfigDemo.stringify ConfigDemo.rename_fails ConfigDemo.config
                         ConfigDemo.fs)) Hmkdir Hfault).
Defined.

(** C9, as stated, fails where it says that the temporary file is cleaned
    up: when the disk fills up while the temporary file is written and the
    file cannot be removed either, [writeConfig] raises its [CONFIG_ERROR]
    and leaves the stored config alone, but the temporary file stays, with
    the one code unit that reached it. *)
Lemma temp_file_stays_when_cleanup_fails :
  (Config.writeConfig ConfigDemo.homedir ConfigDemo.now ConfigDemo.stringify
     ConfigDemo.disk_full ConfigDemo.config ConfigDemo.fs).2
  = inl (Config.Cli (Config.write_failed (Config.thrown ConfigDemo.disk_full)))
  ∧ Config.stored ConfigDemo.homedir
      (Config.final ConfigDemo.homedir ConfigDemo.now ConfigDemo.stringify
         ConfigDemo.disk_full ConfigDemo.config ConfigDemo.fs)
    = Some (js "{old}")
  ∧ Config.files
      (Config.final ConfigDemo.homedir ConfigDemo.now ConfigDemo.stringify
         ConfigDemo.disk_full ConfigDemo.config ConfigDemo.fs)
      !! Config.tempFile ConfigDemo.homedir ConfigDemo.now
    = Some (js "{").
Proof. vm_compute. done. Qed.

Example writeConfig_succeeds :
  (Config.writeConfig ConfigDemo.homedir ConfigDemo.now ConfigDemo.stringify
     ConfigDemo.no_faults ConfigDemo.config ConfigDemo.fs).2 = inr ()
  ∧ Config.stored ConfigDemo.homedir
      <$> Config.observable ConfigDemo.homedir ConfigDemo.now ConfigDemo.stringify
            ConfigDemo.no_faults ConfigDemo.config ConfigDemo.fs
    = [Some (js "{old}"); Some (js "{old}"); Some (js "{old}"); Some (js "{old}");
       Some (js "{old}"); Some (js "{old}"); Some (js "{old}"); Some (js "{new}")].
Proof. vm_compute. done. Qed.

(** ** The identifier resolver *)

Lemma classify_opaque token :
  Resolver.opaque_shape token = true → Resolver.classify token = Resolver.OpaqueId.
Proof. unfold Resolver.classify. by intros ->. Qed.

Lemma classify_invalid token :
  Resolver.opaque_shape token = false → Resolver.composite_shape token = None →
  Resolver.classify token = Resolver.Invalid.
Proof. unfold Resolver.classify. by intros -> ->. Qed.

(** C8. The resolver fast path, on the resolver as the specification
    describes it. A token of the opaque-ID shape is returned unchanged and
    the log of lookups is left as it was; a token of neither shape fails
    with [InvalidIdentifierFormat], the log again left as it was. (A
    composite key, for comparison, adds exactly one lookup to the log.) *)
Theorem resolve_without_lookup lookupByComposite token log :
  (Resolver.opaque_shape token = true →
   Resolver.resolve lookupByComposite token log = (inr token, log))
  ∧ (Resolver.opaque_shape token = false →
     Resolver.composite_shape token = None →
     Resolver.resolve lookupByComposite token log
     = (inl Resolver.InvalidIdentifierFormat, log)).
Proof.
  unfold Resolver.resolve. split.
  - intros Hopaque. by rewrite (classify_opaque _ Hopaque).
  - intros Hopaque Hcomposite. by rewrite (classify_invalid _ Hopaque Hcomposite).
Qed.

Lemma resolve_without_lookup_witness :
  (Resolver.opaque_shape (js "123e4567-e89b-12d3-a456-426614174000") = true
   ∧ Resolver.resolve (λ _ _, None) (js "123e4567-e89b-12d3-a456-426614174000") []
     = (inr (js "123e4567-e89b-12d3-a456-426614174000"), []))
  ∧ (Resolver.opaque_shape (js "not-a-real-id") = false
     ∧ Resolver.composite_shape (js "not-a-real-id") = None
     ∧ Resolver.resolve (λ _ _, Some (js "id")) (js "not-a-real-id") []
       = (inl Resolver.InvalidIdentifierFormat, [])).
Proof.
  assert (Resolver.opaque_shape (js "123e4567-e89b-12d3-a456-426614174000") = true)
    as Huuid by (vm_compute; reflexivity).
  assert (Resolver.opaque_shape (js "not-a-real-id") = false) as Hopaque
    by (vm_compute; reflexivity).
  assert (Resolver.composite_shape (js "not-a-real-id") = None) as Hcomposite
    by (vm_compute; reflexivity).
  split; [split; [exact Huuid|]|split_and!; [exact Hopaque|exact Hcomposite|]].
  - exact (proj1 (resolve_without_lookup (λ _ _, None) _ []) Huuid).
  - exact (proj2 (resolve_without_lookup (λ _ _, Some (js "id")) _ [])
             Hopaque Hcomposite).
Defined.

Example resolve_composite_key :
  Resolver.classify (js "eng-123") = Resolver.CompositeKey (js "ENG") 123
  ∧ Resolver.resolve (λ prefix number, Some (js "id-of-" ++ prefix)) (js "eng-123") []
    = (inr (js "id-of-ENG"), [(js "ENG", 123%N)])
  ∧ Resolver.resolve (λ _ _, None) (js "ENG-123") []
    = (inl Resolver.NotFound, [(js "ENG", 123%N)])
  ∧ Resolver.classify (js "ENG-0") = Resolver.Invalid.
Proof. vm_compute. done. Qed.

(** * Further properties *)

(** ** The label commands *)

Section MoreLabelFacts.
Implicit Types (add remove existing acc l : list jsstring) (x : jsstring).

Lemma foldl_set_add_NoDup l acc :
  NoDup (acc ++ l) → foldl Labels.set_add acc l = acc ++ l.
Proof.
  revert acc. induction l as [|x l IH]; intros acc Hnd; simpl.
  - by rewrite app_nil_r.
  - assert (x ∉ acc) as Hx.
    { apply NoDup_app in Hnd as (_ & Hdisj & _). intros Hin.
      apply (Hdisj x Hin). by left. }
    unfold Labels.set_add at 2. rewrite decide_False by done.
    rewrite IH; rewrite <-app_assoc; [done|]. done.
Qed.

Lemma foldl_set_add_present l acc :
  Forall (λ x, x ∈ acc) l → foldl Labels.set_add acc l = acc.
Proof.
  induction 1 as [|x l Hx _ IH]; [done|]. simpl.
  unfold Labels.set_add at 2. by rewrite decide_True.
Qed.

Lemma foldl_set_add_extends l acc : acc `prefix_of` foldl Labels.set_add acc l.
Proof.
  revert acc. induction l as [|x l IH]; intros acc; simpl; [done|].
  etrans; [|apply IH]. unfold Labels.set_add.
  destruct (decide (x ∈ acc)); [done|]. by apply prefix_app_r.
Qed.

Lemma filter_set_add (P : jsstring → Prop) `{∀ x, Decision (P x)} acc x :
  filter P (Labels.set_add acc x)
  = if decide (P x) then Labels.set_add (filter P acc) x else filter P acc.
Proof.
  unfold Labels.set_add.
  destruct (decide (P x)) as [HP|HP], (decide (x ∈ acc)) as [Hin|Hout].
  - rewrite decide_True; [done|]. apply list_elem_of_filter. auto.
  - rewrite decide_False.
    + by rewrite filter_app, filter_cons_True, filter_nil.
    + intros [_ ?]%list_elem_of_filter. done.
  - done.
  - by rewrite filter_app, filter_cons_False, filter_nil, app_nil_r.
Qed.

Lemma filter_foldl_set_add (P : jsstring → Prop) `{∀ x, Decision (P x)} l acc :
  filter P (foldl Labels.set_add acc l)
  = foldl Labels.set_add (filter P acc) (filter P l).
Proof.
  revert acc. induction l as [|x l IH]; intros acc; [done|].
  cbn [foldl]. rewrite IH, filter_set_add, filter_cons.
  by destruct (decide (P x)).
Qed.

End MoreLabelFacts.

(** X1. [issues bulk-label] reports what it sends: every label reported as
    added was not on the issue and is in the list sent to the update call;
    every label reported as removed was on the issue and is not in that
    list; so no label is reported as both. *)
Theorem bulk_label_report_agrees_with_update add remove existing :
  Forall (λ x, (x ∉ existing) ∧ x ∈ Labels.newLabelIds add remove existing)
         (Labels.labelsToAdd add existing)
  ∧ Forall (λ x, x ∈ existing ∧ x ∉ Labels.newLabelIds add remove existing)
           (Labels.labelsToRemove remove existing)
  ∧ Forall (λ x, x ∉ Labels.labelsToRemove remove existing)
           (Labels.labelsToAdd add existing).
Proof.
  split_and!; apply Forall_forall; intros x.
  - intros [Hadd Hout]%elem_of_labelsToAdd. split; [done|].
    apply elem_of_newLabelIds. auto.
  - intros [Hrem Hin]%elem_of_labelsToRemove. split; [done|].
    intros [[_ ?]|[_ ?]]%elem_of_newLabelIds; done.
  - intros [_ Hout]%elem_of_labelsToAdd [_ Hin]%elem_of_labelsToRemove. done.
Qed.

(** X2. When no label is both to add and to remove, running
    [issues bulk-label] again on what it sent sends the same list, and
    reports nothing as added or removed. *)
Theorem bulk_label_second_run_is_silent add remove existing :
  (∀ x, x ∈ add → x ∉ remove) →
  let sent := Labels.newLabelIds add remove existing in
  Labels.newLabelIds add remove sent = sent
  ∧ Labels.labelsToAdd add sent = []
  ∧ Labels.labelsToRemove remove sent = [].
Proof.
  intros Hdisj sent. split_and!.
  - by apply newLabelIds_idempotent_disjoint.
  - apply filter_none, Forall_forall. intros x Hadd Hnot. apply Hnot.
    apply elem_of_newLabelIds.
    destruct (decide (x ∈ existing)); [left|right]; auto.
  - apply filter_none, Forall_forall.
    intros x Hrem [[_ ?]|[Hadd _]]%elem_of_newLabelIds; [done|].
    by apply (Hdisj x).
Qed.

Lemma bulk_label_second_run_is_silent_witness :
  (∀ x, x ∈ [js "L2"; js "L3"] → x ∉ [js "L1"])
  ∧ Labels.newLabelIds [js "L2"; js "L3"] [js "L1"]
      (Labels.newLabelIds [js "L2"; js "L3"] [js "L1"] [js "L1"; js "L2"])
    = Labels.newLabelIds [js "L2"; js "L3"] [js "L1"] [js "L1"; js "L2"].
Proof.
  assert (∀ x, x ∈ [js "L2"; js "L3"] → x ∉ [js "L1"]) as Hdisj.
  { intros x Hadd Hrem. apply list_elem_of_singleton in Hrem as ->.
    apply elem_of_cons in Hadd as [Heq|Hadd]; [by vm_compute in Heq|].
    apply list_elem_of_singleton in Hadd. by vm_compute in Hadd. }
  split; [exact Hdisj|].
  exact (proj1 (bulk_label_second_run_is_silent _ _ [js "L1"; js "L2"] Hdisj)).
Defined.

(** X3. [issues add-labels] never drops a label and does nothing the
    second time: the list it sends starts with the issue's labels (each
    once, in their order) and holds every label of the issue; sending the
    same request for the issue as updated sends the same list and reports
    no label as added. *)
Theorem add_labels_keeps_and_repeats existing newIds :
  Labels.spread_of_set existing `prefix_of` Labels.combinedLabelIds existing newIds
  ∧ Forall (λ x, x ∈ Labels.combinedLabelIds existing newIds) existing
  ∧ Labels.combinedLabelIds (Labels.combinedLabelIds existing newIds) newIds
    = Labels.combinedLabelIds existing newIds
  ∧ Labels.labelsAdded newIds (Labels.combinedLabelIds existing newIds) = [].
Proof.
  destruct (combinedLabelIds_spec existing newIds) as [Hnd Hel].
  split_and!.
  - unfold Labels.combinedLabelIds, Labels.spread_of_set.
    rewrite foldl_app. apply foldl_set_add_extends.
  - apply Forall_forall. intros x Hx. apply Hel. by left.
  - unfold Labels.combinedLabelIds at 1. unfold Labels.spread_of_set.
    rewrite foldl_app, (foldl_set_add_NoDup _ []) by done. simpl.
    apply foldl_set_add_present, Forall_forall. intros x Hx. apply Hel. by right.
  - apply filter_none, Forall_forall. intros x Hx Hnot. apply Hnot, Hel. by right.
Qed.

(** X4. [issues remove-labels] only removes: the list it sends is the
    issue's labels with some left out, in their order, and holds none of
    the labels to remove; sending the same request for the issue as
    updated sends the same list and reports no label as removed. *)
Theorem remove_labels_only_removes remove existing :
  Labels.remainingLabelIds remove existing `sublist_of` existing
  ∧ Forall (λ x, x ∉ remove) (Labels.remainingLabelIds remove existing)
  ∧ Labels.remainingLabelIds remove (Labels.remainingLabelIds remove existing)
    = Labels.remainingLabelIds remove existing
  ∧ Labels.labelsRemoved remove (Labels.remainingLabelIds remove existing) = [].
Proof.
  assert (Forall (λ x, x ∉ remove) (Labels.remainingLabelIds remove existing)) as Hout.
  { apply Forall_forall. by intros x [_ ?]%elem_of_remainingLabelIds. }
  split_and!.
  - apply sublist_filter.
  - done.
  - by apply filter_all.
  - apply filter_none, Forall_forall.
    intros x Hrem [_ ?]%elem_of_remainingLabelIds. done.
Qed.

(** X5. Adding labels with [issues add-labels] and then removing the same
    labels with [issues remove-labels] leaves the issue's labels that were
    not among them, each once; removing first and adding afterwards leaves
    every one of them on the issue. *)
Theorem add_then_remove_labels existing ids :
  Labels.remainingLabelIds ids (Labels.combinedLabelIds existing ids)
  = Labels.spread_of_set (Labels.remainingLabelIds ids existing)
  ∧ Forall (λ x, x ∈ Labels.combinedLabelIds (Labels.remainingLabelIds ids existing) ids)
           ids.
Proof.
  split.
  - unfold Labels.remainingLabelIds, Labels.combinedLabelIds, Labels.spread_of_set.
    rewrite filter_foldl_set_add, filter_app, filter_nil.
    rewrite (filter_none (λ id, id ∉ ids) ids), app_nil_r; [done|].
    apply Forall_forall. by intros x Hx Hnot.
  - apply Forall_forall. intros x Hx. apply combinedLabelIds_spec. by right.
Qed.

(** ** The bulk commands, item by item *)

Lemma resolve_task_identifier ident tr t :
  traces (BulkUpdate.resolve_task ident) tr t →
  ∀ res, t = Return res → BulkUpdate.resolved_identifier res = ident.
Proof.
  intros Htr res Heq. unfold BulkUpdate.resolve_task in Htr.
  unroll Htr; try discriminate Heq; by injection Heq as <-.
Qed.

(** X6. Every result that [issues bulk-label] or [issues bulk-update]
    pushes is either a success without an error message or a failure with
    one; a failure names the identifier as it was given in [--ids]: for
    [issues bulk-update], the identifier that the task of the first
    [Promise.all] was called with and whose element of [resolvedIds] the
    task of the second is called with. A failure of [issues bulk-label]
    reports no label as added or removed. *)
Theorem pushed_results_are_well_formed :
  (∀ add remove ident tr t r,
     traces (BulkLabel.label_task add remove ident) tr t →
     r ∈ pushed tr →
     (BulkLabel.success r = true ∧ BulkLabel.error r = None)
     ∨ (BulkLabel.success r = false ∧ is_Some (BulkLabel.error r)
        ∧ BulkLabel.identifier r = ident
        ∧ BulkLabel.labelsAdded r = None ∧ BulkLabel.labelsRemoved r = None))
  ∧ (∀ input ident tr0 res tr t r,
       traces (BulkUpdate.resolve_task ident) tr0 (Return res) →
       traces (BulkUpdate.update_task input res) tr t →
       r ∈ pushed tr →
       (BulkUpdate.success r = true ∧ BulkUpdate.error r = None)
       ∨ (BulkUpdate.success r = false ∧ is_Some (BulkUpdate.error r)
          ∧ BulkUpdate.identifier r = ident)).
Proof.
  split.
  - intros add remove ident tr t r Htr Hr. unfold BulkLabel.label_task in Htr.
    unroll Htr; cbn in Hr; pick Hr; subst r;
      first [left; split; reflexivity
            |right; split_and!; first [reflexivity|by eexists]].
  - intros input ident tr0 res tr t r Htr0 Htr Hr.
    rewrite <-(resolve_task_identifier ident tr0 _ Htr0 res eq_refl).
    unfold BulkUpdate.update_task in Htr.
    unroll Htr; cbn in Hr; pick Hr; subst r;
      first [left; split; reflexivity
            |right; split_and!; first [reflexivity|by eexists]].
Qed.

Lemma pushed_results_are_well_formed_witness :
  let ident := js "not-a-real-id" in
  let err := ErrorObject (js "Issue not-a-real-id not found") in
  let r := BulkLabel.failure ident [] (error_message err) in
  let tr := [Settle (ResolveIssueId ident) (Rejected err); Pushed r] in
  let res := {| BulkUpdate.resolved_identifier := ident;
                BulkUpdate.resolved_id := None;
                BulkUpdate.resolved_error := Some (error_message err) |} in
  let tr0 : list (@Event Call BulkUpdate.UpdateResult) :=
    [Settle (ResolveIssueId ident) (Rejected err)] in
  let r' := BulkUpdate.unresolved res in
  let tr' := [Pushed r'] in
  (traces (BulkLabel.label_task [js "L3"] [] ident) tr (Return ()) ∧ r ∈ pushed tr)
  ∧ ((BulkLabel.success r = true ∧ BulkLabel.error r = None)
     ∨ (BulkLabel.success r = false ∧ is_Some (BulkLabel.error r)
        ∧ BulkLabel.identifier r = ident
        ∧ BulkLabel.labelsAdded r = None ∧ BulkLabel.labelsRemoved r = None))
  ∧ (traces (BulkUpdate.resolve_task ident) tr0 (Return res)
     ∧ traces (BulkUpdate.update_task (BulkUpdate.input Demo.update_flags) res) tr'
              (Return ())
     ∧ r' ∈ pushed tr')
  ∧ ((BulkUpdate.success r' = true ∧ BulkUpdate.error r' = None)
     ∨ (BulkUpdate.success r' = false ∧ is_Some (BulkUpdate.error r')
        ∧ BulkUpdate.identifier r' = ident)).
Proof.
  intros ident err r tr res tr0 r' tr'.
  assert (traces (BulkLabel.label_task [js "L3"] [] ident) tr (Return ())) as Htr.
  { unfold BulkLabel.label_task. follow. }
  assert (r ∈ pushed tr) as Hr by apply list_elem_of_here.
  assert (traces (BulkUpdate.resolve_task ident) tr0 (Return res)) as Htr0.
  { unfold BulkUpdate.resolve_task. follow. }
  assert (traces (BulkUpdate.update_task (BulkUpdate.input Demo.update_flags) res) tr'
            (Return ())) as Htr'.
  { unfold BulkUpdate.update_task. follow. }
  assert (r' ∈ pushed tr') as Hr' by apply list_elem_of_here.
  split; [by split|]. split.
  { exact (proj1 pushed_results_are_well_formed [js "L3"] [] ident tr (Return ()) r
             Htr Hr). }
  split; [by split_and!|].
  exact (proj2 pushed_results_are_well_formed (BulkUpdate.input Demo.update_flags)
           ident tr0 res tr' (Return ()) r' Htr0 Htr' Hr').
Defined.

(** The [results] array only grows: along any run of a pool the array at
    an earlier state is a prefix of the array at a later one, and the pool
    keeps its tasks. *)
Lemma results_only_grow {Call Res A} (p p' : Pool Call Res A) :
  steps p p' →
  results p `prefix_of` results p' ∧ length (tasks p') = length (tasks p).
Proof.
  induction 1 as [p|p p1 p2 Hstep _ [IHres IHlen]]; [done|].
  destruct Hstep as [i T c k s Hi]; simpl in *.
  destruct (run_sync_spec i (k s) (results p)) as (news & Hrs & _).
  rewrite Hrs in IHres. rewrite length_insert in IHlen. split; [|done].
  etrans; [|exact IHres]. by apply prefix_app_r.
Qed.

(** ** The order of completion *)

Section SoloFacts.
Context {Call : Type → Type} {Res A : Type}.
Variable world : ∀ T, nat → Call T → Settled T.
Implicit Types (t : Async Call Res A) (p : Pool Call Res A).
Implicit Types (ts : list (Async Call Res A)) (rs : list (nat * Res)).

Lemma run_sync_solo i t rs :
  pushed_by i (run_sync i t rs).2 ++ solo_pushes world i (run_sync i t rs).1
  = pushed_by i rs ++ solo_pushes world i t
  ∧ solo_end world i (run_sync i t rs).1 = solo_end world i t
  ∧ ∀ j, j ≠ i → pushed_by j (run_sync i t rs).2 = pushed_by j rs.
Proof.
  revert rs. induction t as [a|err|r k IH|T c k _]; intros rs; simpl;
    try by split_and!.
  destruct (IH (rs ++ [(i, r)])) as (Hpushes & Hend & Hother).
  assert (pushed_by i [(i, r)] = [r]) as Hown by apply (pushed_by_own i [r]).
  split_and!.
  - by rewrite Hpushes, pushed_by_app, <-app_assoc, Hown.
  - done.
  - intros j Hj.
    assert (pushed_by j [(i, r)] = []) as Hnone
      by (apply (pushed_by_other i j [r]); done).
    by rewrite (Hother j Hj), pushed_by_app, Hnone, app_nil_r.
Qed.

Local Abbreviation follows := (follows world).

Lemma spawn_from_follows i ts rs :
  (∀ j t0 t, ts !! j = Some t0 → tasks (spawn_from i ts rs) !! j = Some t →
     pushed_by (i + j) (results (spawn_from i ts rs)) ++ solo_pushes world (i + j) t
     = pushed_by (i + j) rs ++ solo_pushes world (i + j) t0
     ∧ solo_end world (i + j) t = solo_end world (i + j) t0)
  ∧ ∀ k, k < i → pushed_by k (results (spawn_from i ts rs)) = pushed_by k rs.
Proof.
  revert i rs. induction ts as [|t1 ts IH]; intros i rs; simpl.
  - split; [|done]. intros j t0 t Hj. done.
  - destruct (run_sync_solo i t1 rs) as (Hpushes & Hend & Hother).
    destruct (IH (S i) (run_sync i t1 rs).2) as [Htasks Hlow]. split.
    + intros [|j] t0 t Hj Ht; simpl in Hj, Ht.
      * injection Hj as <-. injection Ht as <-.
        rewrite Nat.add_0_r, Hlow by lia. done.
      * replace (i + S j) with (S i + j) by lia.
        destruct (Htasks j t0 t Hj Ht) as [Hp He]. split; [|done].
        rewrite Hp. f_equal. apply Hother. lia.
    + intros k Hk. rewrite Hlow by lia. apply Hother. lia.
Qed.

Lemma settle_at_follows ts rs p i :
  follows ts rs p → follows ts rs (settle_at world p i).
Proof.
  intros Hp. unfold settle_at.
  destruct (tasks p !! i) as [[a|err|r k|T c k]|] eqn:Hi; try done.
  intros j t0 t Hj Ht. simpl in Ht.
  destruct (run_sync_solo i (k (world T i c)) (results p))
    as (Hpushes & Hend & Hother).
  destruct (decide (j = i)) as [->|Hne].
  - rewrite list_lookup_insert_eq in Ht by (by eapply lookup_lt_Some).
    injection Ht as <-. destruct (Hp i t0 _ Hj Hi) as [Hp1 Hp2].
    simpl. rewrite Hpushes, Hend. done.
  - rewrite list_lookup_insert_ne in Ht by done.
    destruct (Hp j t0 t Hj Ht) as [Hp1 Hp2]. simpl. by rewrite Hother.
Qed.

Lemma drive_follows ts rs schedule :
  follows ts rs (drive world schedule (spawn ts rs)).
Proof.
  unfold drive.
  assert (follows ts rs (spawn ts rs)) as Hstart.
  { intros j t0 t Hj Ht.
    exact (proj1 (spawn_from_follows 0 ts rs) j t0 t Hj Ht). }
  revert Hstart. generalize (spawn ts rs).
  induction schedule as [|i schedule IH]; intros p Hp; [done|].
  simpl. by apply IH, settle_at_follows.
Qed.

(** When the pool has fulfilled, every task has pushed what it pushes by
    itself and returned what it returns by itself. *)
Lemma drive_fulfilled ts schedule vs j t0 :
  fulfilled (drive world schedule (spawn ts [])) vs →
  ts !! j = Some t0 →
  pushed_by j (results (drive world schedule (spawn ts []))) = solo_pushes world j t0
  ∧ Return <$> vs !! j = Some (solo_end world j t0).
Proof.
  intros Hvs Hj.
  pose proof (steps_projects ts [] _ (drive_steps world schedule (spawn ts [])))
    as (Hlen & _).
  assert (is_Some (tasks (drive world schedule (spawn ts [])) !! j)) as [t Ht].
  { apply lookup_lt_is_Some. rewrite Hlen. by eapply lookup_lt_Some. }
  destruct (drive_follows ts [] schedule j t0 t Hj Ht) as [Hp He].
  unfold fulfilled in Hvs. rewrite Hvs, list_lookup_fmap in Ht.
  destruct (vs !! j) as [v|] eqn:Hv; [|done]. injection Ht as <-.
  simpl in *. rewrite app_nil_r in Hp. by rewrite <-He.
Qed.

End SoloFacts.

Section ByTask.
Context {Res : Type}.
Implicit Types (l : list (nat * Res)).

Lemma filter_tag_pushed_by l n :
  filter (λ e, e.1 = n) l = (n,.) <$> pushed_by n l.
Proof.
  unfold pushed_by. induction l as [|[i r] l IH]; [done|].
  destruct (decide (i = n)) as [->|Hne].
  - rewrite !filter_cons_True by done. rewrite !fmap_cons. simpl.
    f_equal. exact IH.
  - by rewrite !filter_cons_False by done.
Qed.

Lemma filter_tag_lt_S l n :
  filter (λ e, e.1 < S n) l ≡ₚ filter (λ e, e.1 < n) l ++ filter (λ e, e.1 = n) l.
Proof.
  induction l as [|[i r] l IH]; [done|].
  rewrite !filter_cons. simpl.
  destruct (decide (i < S n)), (decide (i < n)), (decide (i = n)); try lia.
  - simpl. by rewrite IH.
  - rewrite IH. by rewrite Permutation_middle.
  - done.
Qed.

(** The array, up to order, is what each task pushed, task after task. *)
Lemma results_by_task l n :
  (∀ e, e ∈ l → e.1 < n) →
  l ≡ₚ mjoin ((λ j, (j,.) <$> pushed_by j l) <$> seq 0 n).
Proof.
  intros Hbound.
  rewrite <-(filter_all (λ e, e.1 < n) l) at 1 by (by apply Forall_forall).
  clear Hbound. induction n as [|n IH].
  - rewrite (filter_none (λ e, e.1 < 0)); [done|].
    apply Forall_forall. intros; lia.
  - rewrite filter_tag_lt_S, IH, seq_S, fmap_app, join_app. simpl.
    by rewrite app_nil_r, filter_tag_pushed_by.
Qed.

Lemma results_same_by_task l1 l2 n :
  (∀ e, e ∈ l1 → e.1 < n) → (∀ e, e ∈ l2 → e.1 < n) →
  (∀ j, j < n → pushed_by j l1 = pushed_by j l2) →
  l1 ≡ₚ l2.
Proof.
  intros H1 H2 Hsame.
  etrans; [exact (results_by_task l1 n H1)|].
  etrans; [|symmetry; exact (results_by_task l2 n H2)].
  assert ((λ j, (j,.) <$> pushed_by j l1) <$> seq 0 n
          = (λ j, (j,.) <$> pushed_by j l2) <$> seq 0 n) as ->; [|done].
  apply list_fmap_ext.
  intros i j Hj. apply lookup_seq in Hj as [-> Hlt]. by rewrite Hsame.
Qed.

End ByTask.

(** For one behaviour of the API, the outcome of a pool does not depend on
    the order in which its calls complete. *)
Lemma drive_order_independent {Call Res A}
    (world : ∀ T, nat → Call T → Settled T) (ts : list (Async Call Res A))
    schedule1 schedule2 vs1 vs2 :
  fulfilled (drive world schedule1 (spawn ts [])) vs1 →
  fulfilled (drive world schedule2 (spawn ts [])) vs2 →
  vs1 = vs2
  ∧ results (drive world schedule1 (spawn ts []))
    ≡ₚ results (drive world schedule2 (spawn ts [])).
Proof.
  intros Hvs1 Hvs2.
  pose proof (steps_projects ts [] _ (drive_steps world schedule1 (spawn ts [])))
    as (Hlen1 & _ & Htags1).
  pose proof (steps_projects ts [] _ (drive_steps world schedule2 (spawn ts [])))
    as (Hlen2 & _ & Htags2).
  split.
  - apply list_eq. intros j.
    destruct (ts !! j) as [t0|] eqn:Hj.
    + destruct (drive_fulfilled world ts schedule1 vs1 j t0 Hvs1 Hj) as [_ H1].
      destruct (drive_fulfilled world ts schedule2 vs2 j t0 Hvs2 Hj) as [_ H2].
      rewrite <-H2 in H1.
      destruct (vs1 !! j), (vs2 !! j); simpl in H1; try done.
      apply (inj Some) in H1. by injection H1 as ->.
    + apply lookup_ge_None in Hj. unfold fulfilled in Hvs1, Hvs2.
      rewrite Hvs1, length_fmap in Hlen1. rewrite Hvs2, length_fmap in Hlen2.
      rewrite !(proj2 (lookup_ge_None _ _)); [done|lia..].
  - apply (results_same_by_task _ _ (length ts)).
    + intros e He. destruct (Htags1 e He) as [Hnil|?]; [|done].
      by apply elem_of_nil in Hnil.
    + intros e He. destruct (Htags2 e He) as [Hnil|?]; [|done].
      by apply elem_of_nil in Hnil.
    + intros j Hj. destruct (lookup_lt_is_Some_2 ts j Hj) as [t0 Ht0].
      destruct (drive_fulfilled world ts schedule1 vs1 j t0 Hvs1 Ht0) as [-> _].
      by destruct (drive_fulfilled world ts schedule2 vs2 j t0 Hvs2 Ht0) as [-> _].
Qed.

Lemma summary_counts_permutation {R} (ok : R → bool) (l1 l2 : list R) :
  l1 ≡ₚ l2 →
  length (filter (λ r, ok r) l1) = length (filter (λ r, ok r) l2)
  ∧ length (filter (λ r, ¬ ok r) l1) = length (filter (λ r, ¬ ok r) l2).
Proof. intros Hperm. by rewrite Hperm. Qed.

(** X8. [issues bulk-label]: when the API answers each item's requests the
    same way, the order in which the requests complete only changes the
    order of [results]; the entries and both counts of the summary are
    the same. *)
Theorem bulk_label_order_independent world flags schedule1 schedule2 vs1 vs2 :
  fulfilled (drive world schedule1
               (BulkLabel.pool (BulkLabel.addLabelIds flags)
                  (BulkLabel.removeLabelIds flags) (BulkLabel.identifiers flags)))
            vs1 →
  fulfilled (drive world schedule2
               (BulkLabel.pool (BulkLabel.addLabelIds flags)
                  (BulkLabel.removeLabelIds flags) (BulkLabel.identifiers flags)))
            vs2 →
  BulkLabel.summary_results
    (BulkLabel.summary flags
       (results (drive world schedule1
                   (BulkLabel.pool (BulkLabel.addLabelIds flags)
                      (BulkLabel.removeLabelIds flags)
                      (BulkLabel.identifiers flags)))).*2)
  ≡ₚ BulkLabel.summary_results
       (BulkLabel.summary flags
          (results (drive world schedule2
                      (BulkLabel.pool (BulkLabel.addLabelIds flags)
                         (BulkLabel.removeLabelIds flags)
                         (BulkLabel.identifiers flags)))).*2)
  ∧ BulkLabel.successCount
      (BulkLabel.summary flags
         (results (drive world schedule1
                     (BulkLabel.pool (BulkLabel.addLabelIds flags)
                        (BulkLabel.removeLabelIds flags)
                        (BulkLabel.identifiers flags)))).*2)
    = BulkLabel.successCount
        (BulkLabel.summary flags
           (results (drive world schedule2
                       (BulkLabel.pool (BulkLabel.addLabelIds flags)
                          (BulkLabel.removeLabelIds flags)
                          (BulkLabel.identifiers flags)))).*2)
  ∧ BulkLabel.failedCount
      (BulkLabel.summary flags
         (results (drive world schedule1
                     (BulkLabel.pool (BulkLabel.addLabelIds flags)
                        (BulkLabel.removeLabelIds flags)
                        (BulkLabel.identifiers flags)))).*2)
    = BulkLabel.failedCount
        (BulkLabel.summary flags
           (results (drive world schedule2
                       (BulkLabel.pool (BulkLabel.addLabelIds flags)
                          (BulkLabel.removeLabelIds flags)
                          (BulkLabel.identifiers flags)))).*2).
Proof.
  intros Hvs1 Hvs2. unfold BulkLabel.pool in *.
  destruct (drive_order_independent world _ schedule1 schedule2 vs1 vs2 Hvs1 Hvs2)
    as [_ Hperm].
  apply (fmap_Permutation snd) in Hperm.
  destruct (summary_counts_permutation BulkLabel.success _ _ Hperm) as [Hok Hko].
  done.
Qed.

Lemma bulk_label_order_independent_witness :
  fulfilled (drive Demo.world (Demo.backwards 2 5)
               (BulkLabel.pool (BulkLabel.addLabelIds Demo.label_flags)
                  (BulkLabel.removeLabelIds Demo.label_flags)
                  (BulkLabel.identifiers Demo.label_flags)))
            [(); ()]
  ∧ fulfilled (drive Demo.world (Demo.round_robin 2 5)
                 (BulkLabel.pool (BulkLabel.addLabelIds Demo.label_flags)
                    (BulkLabel.removeLabelIds Demo.label_flags)
                    (BulkLabel.identifiers Demo.label_flags)))
              [(); ()]
  ∧ BulkLabel.successCount
      (BulkLabel.summary Demo.label_flags
         (results (drive Demo.world (Demo.backwards 2 5)
                     (BulkLabel.pool (BulkLabel.addLabelIds Demo.label_flags)
                        (BulkLabel.removeLabelIds Demo.label_flags)
                        (BulkLabel.identifiers Demo.label_flags)))).*2)
    = BulkLabel.successCount
        (BulkLabel.summary Demo.label_flags
           (results (drive Demo.world (Demo.round_robin 2 5)
                       (BulkLabel.pool (BulkLabel.addLabelIds Demo.label_flags)
                          (BulkLabel.removeLabelIds Demo.label_flags)
                          (BulkLabel.identifiers Demo.label_flags)))).*2).
Proof.
  assert (fulfilled (drive Demo.world (Demo.backwards 2 5)
               (BulkLabel.pool (BulkLabel.addLabelIds Demo.label_flags)
                  (BulkLabel.removeLabelIds Demo.label_flags)
                  (BulkLabel.identifiers Demo.label_flags)))
            [(); ()]) as H1 by (vm_compute; reflexivity).
  assert (fulfilled (drive Demo.world (Demo.round_robin 2 5)
                 (BulkLabel.pool (BulkLabel.addLabelIds Demo.label_flags)
                    (BulkLabel.removeLabelIds Demo.label_flags)
                    (BulkLabel.identifiers Demo.label_flags)))
              [(); ()]) as H2 by (vm_compute; reflexivity).
  split; [exact H1|]. split; [exact H2|].
  exact (proj1 (proj2 (bulk_label_order_independent Demo.world Demo.label_flags
                         _ _ _ _ H1 H2))).
Defined.

(** X9. [issues bulk-update]: when the API answers each item's requests the
    same way, the order of completion in either [Promise.all] changes
    neither [resolvedIds] nor the entries of [results], only their order;
    both counts of the summary are the same. *)
Theorem bulk_update_order_independent world flags
    resolving1 resolving2 updating1 updating2 resolvedIds1 resolvedIds2 vs1 vs2 :
  fulfilled (drive world resolving1
               (BulkUpdate.resolving (BulkUpdate.identifiers flags)))
            resolvedIds1 →
  fulfilled (drive world resolving2
               (BulkUpdate.resolving (BulkUpdate.identifiers flags)))
            resolvedIds2 →
  fulfilled (drive world updating1
               (BulkUpdate.updating (BulkUpdate.input flags) resolvedIds1
                  (results (drive world resolving1
                              (BulkUpdate.resolving (BulkUpdate.identifiers flags))))))
            vs1 →
  fulfilled (drive world updating2
               (BulkUpdate.updating (BulkUpdate.input flags) resolvedIds2
                  (results (drive world resolving2
                              (BulkUpdate.resolving (BulkUpdate.identifiers flags))))))
            vs2 →
  resolvedIds1 = resolvedIds2
  ∧ (results (drive world updating1
                (BulkUpdate.updating (BulkUpdate.input flags) resolvedIds1
                   (results (drive world resolving1
                               (BulkUpdate.resolving
                                  (BulkUpdate.identifiers flags))))))).*2
    ≡ₚ (results (drive world updating2
                   (BulkUpdate.updating (BulkUpdate.input flags) resolvedIds2
                      (results (drive world resolving2
                                  (BulkUpdate.resolving
                                     (BulkUpdate.identifiers flags))))))).*2
  ∧ BulkUpdate.successCount
      (BulkUpdate.summary flags
         (results (drive world updating1
                     (BulkUpdate.updating (BulkUpdate.input flags) resolvedIds1
                        (results (drive world resolving1
                                    (BulkUpdate.resolving
                                       (BulkUpdate.identifiers flags))))))).*2)
    = BulkUpdate.successCount
        (BulkUpdate.summary flags
           (results (drive world updating2
                       (BulkUpdate.updating (BulkUpdate.input flags) resolvedIds2
                          (results (drive world resolving2
                                      (BulkUpdate.resolving
                                         (BulkUpdate.identifiers flags))))))).*2)
  ∧ BulkUpdate.failedCount
      (BulkUpdate.summary flags
         (results (drive world updating1
                     (BulkUpdate.updating (BulkUpdate.input flags) resolvedIds1
                        (results (drive world resolving1
                                    (BulkUpdate.resolving
                                       (BulkUpdate.identifiers flags))))))).*2)
    = BulkUpdate.failedCount
        (BulkUpdate.summary flags
           (results (drive world updating2
                       (BulkUpdate.updating (BulkUpdate.input flags) resolvedIds2
                          (results (drive world resolving2
                                      (BulkUpdate.resolving
                                         (BulkUpdate.identifiers flags))))))).*2).
Proof.
  intros Hr1 Hr2. unfold BulkUpdate.resolving in *.
  rewrite !(batch_silent _ _ (resolve_tasks_owe _) (drive_steps world _ _)).
  destruct (drive_order_independent world _ _ _ _ _ Hr1 Hr2) as [<- _].
  unfold BulkUpdate.updating. intros Hvs1 Hvs2.
  destruct (drive_order_independent world _ _ _ _ _ Hvs1 Hvs2) as [_ Hperm].
  apply (fmap_Permutation snd) in Hperm.
  destruct (summary_counts_permutation BulkUpdate.success _ _ Hperm) as [Hok Hko].
  done.
Qed.

Lemma bulk_update_order_independent_witness :
  Demo.resolvedIds
  = omap (λ t, match t with Return r => Some r | _ => None end)
      (tasks (drive Demo.world (Demo.backwards 3 1)
                (BulkUpdate.resolving (BulkUpdate.identifiers Demo.update_flags))))
  ∧ (results Demo.updated_pool).*2
    ≡ₚ (results (drive Demo.world (Demo.round_robin 3 2)
                   (BulkUpdate.updating (BulkUpdate.input Demo.update_flags)
                      Demo.resolvedIds
                      (results (drive Demo.world (Demo.backwards 3 1)
                                  (BulkUpdate.resolving
                                     (BulkUpdate.identifiers Demo.update_flags))))))).*2.
Proof.
  assert (fulfilled (drive Demo.world (Demo.round_robin 3 1)
                       (BulkUpdate.resolving (BulkUpdate.identifiers Demo.update_flags)))
                    Demo.resolvedIds) as Hr1 by (vm_compute; reflexivity).
  assert (fulfilled (drive Demo.world (Demo.backwards 3 1)
                       (BulkUpdate.resolving (BulkUpdate.identifiers Demo.update_flags)))
                    Demo.resolvedIds) as Hr2 by (vm_compute; reflexivity).
  assert (fulfilled (drive Demo.world (Demo.backwards 3 2)
               (BulkUpdate.updating (BulkUpdate.input Demo.update_flags)
                  Demo.resolvedIds
                  (results (drive Demo.world (Demo.round_robin 3 1)
                              (BulkUpdate.resolving
                                 (BulkUpdate.identifiers Demo.update_flags))))))
            [(); (); ()]) as Hvs1 by (vm_compute; reflexivity).
  assert (fulfilled (drive Demo.world (Demo.round_robin 3 2)
               (BulkUpdate.updating (BulkUpdate.input Demo.update_flags)
                  Demo.resolvedIds
                  (results (drive Demo.world (Demo.backwards 3 1)
                              (BulkUpdate.resolving
                                 (BulkUpdate.identifiers Demo.update_flags))))))
            [(); (); ()]) as Hvs2 by (vm_compute; reflexivity).
  split; [vm_compute; reflexivity|].
  exact (proj1 (proj2 (bulk_update_order_independent Demo.world Demo.update_flags
                         _ _ _ _ _ _ _ _ Hr1 Hr2 Hvs1 Hvs2))).
Defined.

(** ** The results while a pool runs *)

Lemma batch_partial {Call Res A} (ts : list (Async Call Res A)) p :
  Forall (owes 1) ts → steps (spawn ts []) p →
  (∀ j, length (pushed_by j (results p)) ≤ 1) ∧ length (results p) ≤ length ts.
Proof.
  intros Howes (Hlen & Htasks & Htags)%steps_projects.
  assert (∀ e, e ∈ results p → e.1 < length ts) as Hbound.
  { intros e He. destruct (Htags e He) as [Hnil|?]; [|done].
    by apply elem_of_nil in Hnil. }
  assert (∀ j, length (pushed_by j (results p)) ≤ 1) as Hone.
  { intros j. destruct (ts !! j) as [t0|] eqn:Hj.
    - destruct (Htasks j t0 Hj) as (t & tr & _ & _ & Htr & ->). simpl.
      pose proof (proj1 (Forall_lookup _ _) Howes j t0 Hj) as Ho.
      by destruct (owes_traces 1 t0 tr t Ho Htr).
    - apply lookup_ge_None in Hj. unfold pushed_by.
      rewrite filter_none; [simpl; lia|].
      apply Forall_forall. intros e He%Hbound. lia. }
  split; [done|].
  rewrite (Permutation_length (results_by_task (results p) (length ts) Hbound)).
  clear Hbound Hlen Htasks Htags Howes. induction (length ts) as [|n IH]; [done|].
  rewrite seq_S, fmap_app, join_app, length_app. simpl.
  rewrite app_nil_r, length_fmap. specialize (Hone n). lia.
Qed.

(** X7. While the [Promise.all] of [issues bulk-label], or the second one
    of [issues bulk-update], is running, the [results] array holds at most
    one result of every item and never more results than there are
    identifiers; and what it holds stays as it is: the array at an earlier
    state is a prefix of the array at every later state. *)
Theorem partial_results_one_per_item :
  (∀ add remove ids p p',
     steps (BulkLabel.pool add remove ids) p → steps p p' →
     (∀ j, length (pushed_by j (results p)) ≤ 1)
     ∧ length (results p) ≤ length ids
     ∧ results p `prefix_of` results p')
  ∧ (∀ input ids p p',
       BulkUpdate.batch input ids p → steps p p' →
       (∀ j, length (pushed_by j (results p)) ≤ 1)
       ∧ length (results p) ≤ length ids
       ∧ results p `prefix_of` results p').
Proof.
  split.
  - intros add remove ids p p' Hsteps Hlater.
    destruct (batch_partial _ p (label_tasks_owe add remove ids) Hsteps)
      as [Hone Hlen].
    rewrite length_fmap in Hlen. split_and!; [done..|].
    apply (results_only_grow p p' Hlater).
  - intros input ids p p' (resolvedIds & Hids & Hsteps)%bulk_update_batch_inv Hlater.
    destruct (batch_partial _ p (update_tasks_owe input resolvedIds) Hsteps)
      as [Hone Hlen].
    rewrite length_fmap, Hids in Hlen. split_and!; [done..|].
    apply (results_only_grow p p' Hlater).
Qed.

Lemma partial_results_one_per_item_witness :
  let start := BulkLabel.pool (BulkLabel.addLabelIds Demo.label_flags)
                 (BulkLabel.removeLabelIds Demo.label_flags)
                 (BulkLabel.identifiers Demo.label_flags) in
  let p := drive Demo.world [1; 1; 1; 1; 1] start in
  let p' := drive Demo.world (Demo.backwards 2 5) p in
  (steps start p ∧ steps p p')
  ∧ length (results p) = 1
  ∧ length (results p) ≤ length (BulkLabel.identifiers Demo.label_flags)
  ∧ results p `prefix_of` results p'.
Proof.
  intros start p p'.
  assert (steps start p) as Hsteps by apply drive_steps.
  assert (steps p p') as Hlater by apply drive_steps.
  split; [by split|]. split; [vm_compute; reflexivity|].
  exact (proj2 (proj1 partial_results_one_per_item _ _ _ p p' Hsteps Hlater)).
Defined.

(** ** What the bulk commands ask of the API *)

(** X10. [issues bulk-update] calls [updateIssue] at most once per item:
    never for an item whose identifier did not resolve, and otherwise with
    the resolved id, which is not empty, and with the one input built from
    the flags. *)
Theorem bulk_update_updates_at_most_once input res tr t :
  traces (BulkUpdate.update_task input res) tr t →
  (omap update_call tr = []
   ∨ ∃ id, BulkUpdate.resolved_id res = Some id ∧ truthy id = true
           ∧ from_option truthy false (BulkUpdate.resolved_error res) = false
           ∧ omap update_call tr = [(id, input)])
  ∧ (BulkUpdate.resolved_id res = None
     ∨ from_option truthy false (BulkUpdate.resolved_error res) = true →
     omap rejection tr = [] ∧ omap update_call tr = []
     ∧ pushed tr `prefix_of` [BulkUpdate.unresolved res]).
Proof.
  intros Htr. unfold BulkUpdate.update_task in Htr.
  destruct (BulkUpdate.resolved_id res) as [id|] eqn:Hid.
  - destruct (from_option truthy false (BulkUpdate.resolved_error res)) eqn:Herr.
    + split.
      * left. unroll Htr; done.
      * intros _. unroll Htr; split_and!; try done; by eexists.
    + destruct (truthy id) eqn:Hne.
      * split; [|by intros [?|?]].
        unroll Htr; cbn; first [by left|right; by exists id].
      * split; [|by intros [?|?]]. left. unroll Htr; done.
  - split.
    + left. unroll Htr; done.
    + intros _. unroll Htr; split_and!; try done; by eexists.
Qed.

Lemma bulk_update_updates_at_most_once_witness :
  let res := {| BulkUpdate.resolved_identifier := js "not-a-real-id";
                BulkUpdate.resolved_id := None;
                BulkUpdate.resolved_error := Some (js "Issue not-a-real-id not found") |} in
  let tr := [Pushed (BulkUpdate.unresolved res)] in
  traces (BulkUpdate.update_task (BulkUpdate.input Demo.update_flags) res) tr (Return ())
  ∧ @omap list _ _ _ update_call tr = [].
Proof.
  intros res tr.
  assert (traces (BulkUpdate.update_task (BulkUpdate.input Demo.update_flags) res)
            tr (Return ())) as Htr.
  { unfold BulkUpdate.update_task. follow. }
  split; [exact Htr|].
  exact (proj1 (proj2 (proj2 (bulk_update_updates_at_most_once _ res tr _ Htr)
                         (or_introl eq_refl)))).
Defined.

(** X11. [issues bulk-label] calls [updateIssue] at most once per item,
    after the identifier has resolved and the issue's labels have been
    fetched once; the call is for the resolved id and its input holds
    nothing but [labelIds], the list computed from the fetched labels. *)
Theorem bulk_label_updates_labels_only add remove ident tr t :
  traces (BulkLabel.label_task add remove ident) tr t →
  omap update_call tr = []
  ∨ ∃ issueId nodes,
      head tr = Some (Settle (ResolveIssueId ident) (Fulfilled issueId))
      ∧ omap labels_fetched tr = [nodes]
      ∧ omap update_call tr
        = [(issueId,
            only_labels (Labels.newLabelIds add remove (label_id <$> nodes)))].
Proof.
  intros Htr. unfold BulkLabel.label_task in Htr.
  unroll Htr; cbn; first [by left|right; by eexists _, _].
Qed.

Lemma bulk_label_updates_labels_only_witness :
  let add := [js "L2"; js "L3"] in
  let remove := [js "L1"] in
  let issue := {| issue_id := js "id-1"; issue_identifier := js "ENG-1" |} in
  let fetched := [{| label_id := js "L1" |}; {| label_id := js "L2" |}] in
  let payload := {| payload_success := true; payload_ref := 0 |} in
  let r := BulkLabel.updated (js "ENG-1") (js "id-1") (Some issue) [js "L3"] [js "L1"] in
  let tr := [Settle (ResolveIssueId (js "ENG-1")) (Fulfilled (js "id-1"));
             Settle (ClientIssue (js "id-1")) (Fulfilled (Some issue));
             Settle (IssueLabels issue) (Fulfilled fetched);
             Settle (UpdateIssue (js "id-1") (only_labels [js "L2"; js "L3"]))
                    (Fulfilled payload);
             Settle (PayloadIssue payload) (Fulfilled (Some issue));
             Pushed r] in
  traces (BulkLabel.label_task add remove (js "ENG-1")) tr (Return ())
  ∧ ∃ issueId nodes,
      head tr = Some (Settle (ResolveIssueId (js "ENG-1")) (Fulfilled issueId))
      ∧ omap labels_fetched tr = [nodes]
      ∧ nodes = fetched
      ∧ omap update_call tr
        = [(issueId, only_labels (Labels.newLabelIds add remove (label_id <$> nodes)))]
      ∧ Labels.newLabelIds add remove (label_id <$> nodes) = [js "L2"; js "L3"].
Proof.
  intros add remove issue fetched payload r tr.
  assert (traces (BulkLabel.label_task add remove (js "ENG-1")) tr (Return ())) as Htr.
  { unfold BulkLabel.label_task. follow. }
  split; [exact Htr|].
  destruct (bulk_label_updates_labels_only add remove (js "ENG-1") tr (Return ()) Htr)
    as [Hnone|(issueId & nodes & Hhead & Hfetched & Hcall)].
  { exfalso. cbn in Hnone. discriminate Hnone. }
  assert (nodes = fetched) as Hnodes.
  { cbn in Hfetched. by injection Hfetched as <-. }
  exists issueId, nodes. split_and!; try done.
  rewrite Hnodes. vm_compute. reflexivity.
Defined.

(** ** The checks before any request *)

Lemma keys_nil_iff (i : IssueUpdateInput) :
  BulkUpdate.keys i = [] ↔ i = empty_input.
Proof.
  destruct i as [[?|] [?|] [?|] [?|] [?|] [?|]]; split; intros Heq;
    try discriminate Heq; done.
Qed.

(** X12. [issues bulk-update] goes on to the requests exactly when the
    input built from the flags has a field. A flag counts when it is given
    a value that is not empty; [--priority] and [--estimate] count with any
    value, zero included, and [--assignee-id] counts even when empty, the
    input then asking for no assignee. Otherwise the command ends with
    "No update fields provided". *)
Theorem bulk_update_requires_a_field flags :
  (BulkUpdate.validate flags = None ↔ BulkUpdate.input flags ≠ empty_input)
  ∧ (BulkUpdate.validate flags = Some BulkUpdate.no_update_fields
     ↔ BulkUpdate.given (BulkUpdate.state_id flags) = None
       ∧ BulkUpdate.flag_priority flags = None
       ∧ BulkUpdate.assignee_id flags = None
       ∧ BulkUpdate.given (BulkUpdate.project_id flags) = None
       ∧ BulkUpdate.flag_estimate flags = None
       ∧ BulkUpdate.given (BulkUpdate.label_ids flags) = None)
  ∧ (BulkUpdate.assignee_id flags = Some [] →
     BulkUpdate.validate flags = None
     ∧ assigneeId (BulkUpdate.input flags) = Some None).
Proof.
  destruct (bulk_update_validate flags) as [Hids _].
  assert (BulkUpdate.input flags = empty_input
          ↔ BulkUpdate.given (BulkUpdate.state_id flags) = None
            ∧ BulkUpdate.flag_priority flags = None
            ∧ BulkUpdate.assignee_id flags = None
            ∧ BulkUpdate.given (BulkUpdate.project_id flags) = None
            ∧ BulkUpdate.flag_estimate flags = None
            ∧ BulkUpdate.given (BulkUpdate.label_ids flags) = None) as Hempty.
  { unfold BulkUpdate.input, empty_input. split.
    - intros [= Hs Hp Ha Hpr He Hl]. split_and!; try done.
      + by destruct (BulkUpdate.assignee_id flags).
      + by destruct (BulkUpdate.given (BulkUpdate.label_ids flags)).
    - intros (-> & -> & -> & -> & -> & ->). done. }
  unfold BulkUpdate.validate. rewrite Hids. rewrite <-Hempty, <-keys_nil_iff.
  split_and!.
  - destruct (BulkUpdate.keys (BulkUpdate.input flags)); split; done.
  - destruct (BulkUpdate.keys (BulkUpdate.input flags)); split; done.
  - intros Hassignee.
    assert (assigneeId (BulkUpdate.input flags) = Some None) as Hnull.
    { cbn. by rewrite Hassignee. }
    split; [|done].
    destruct (BulkUpdate.keys (BulkUpdate.input flags)) eqn:Hkeys; [|done].
    apply keys_nil_iff in Hkeys. by rewrite Hkeys in Hnull.
Qed.

Lemma bulk_update_requires_a_field_witness :
  let flags := {| BulkUpdate.ids := js "ENG-1";
                  BulkUpdate.state_id := Some [];
                  BulkUpdate.flag_priority := None;
                  BulkUpdate.assignee_id := Some [];
                  BulkUpdate.project_id := None;
                  BulkUpdate.flag_estimate := None;
                  BulkUpdate.label_ids := None |} in
  BulkUpdate.assignee_id flags = Some []
  ∧ BulkUpdate.validate flags = None
  ∧ assigneeId (BulkUpdate.input flags) = Some None.
Proof.
  intros flags. split; [reflexivity|].
  exact (proj2 (proj2 (bulk_update_requires_a_field flags)) eq_refl).
Defined.

(** X13. [issues bulk-label] ends with "No label operations specified"
    exactly when neither [--add-labels] nor [--remove-labels] is given: a
    flag that is given, even as the empty string, splits into at least one
    label id, so the command goes on to the requests. *)
Theorem bulk_label_requires_a_flag flags :
  (BulkLabel.validate flags = Some BulkLabel.no_label_operations
   ↔ BulkLabel.add_labels flags = None ∧ BulkLabel.remove_labels flags = None)
  ∧ (BulkLabel.validate flags = None
     ↔ is_Some (BulkLabel.add_labels flags) ∨ is_Some (BulkLabel.remove_labels flags))
  ∧ (BulkLabel.add_labels flags = Some [] → BulkLabel.addLabelIds flags = [[]]).
Proof.
  destruct (bulk_label_validate flags) as [Hids _].
  unfold BulkLabel.validate. rewrite Hids.
  unfold BulkLabel.addLabelIds, BulkLabel.removeLabelIds.
  assert (∀ s, (length (split_trim s) =? 0) = false) as Hsplit
    by (intros s; by rewrite split_trim_length).
  destruct (BulkLabel.add_labels flags) as [a|], (BulkLabel.remove_labels flags) as [r|];
    simpl; rewrite ?Hsplit; simpl.
  - split_and!; [split; [done|by intros [? ?]]|split; [eauto|done]|by intros [= ->]].
  - split_and!; [split; [done|by intros [? ?]]|split; [eauto|done]|by intros [= ->]].
  - split_and!; [split; [done|by intros [? ?]]|split; [eauto|done]|done].
  - split_and!; [done|split; [done|by intros [[? ?]|[? ?]]]|done].
Qed.

Lemma bulk_label_requires_a_flag_witness :
  let flags := {| BulkLabel.ids := js "ENG-1"; BulkLabel.add_labels := Some [];
                  BulkLabel.remove_labels := None |} in
  BulkLabel.add_labels flags = Some []
  ∧ BulkLabel.addLabelIds flags = [[]]
  ∧ BulkLabel.validate flags = None.
Proof.
  intros flags. split; [reflexivity|]. split.
  - exact (proj2 (proj2 (bulk_label_requires_a_flag flags)) eq_refl).
  - reflexivity.
Defined.

(** ** The config library *)

Section IoTraces.

(** A property kept by every state of every trace holds throughout. *)
Lemma io_spec_trace {E A} (m : Config.IO E A) (Q : Config.FS → Prop) :
  (∀ fs, Q fs → Forall Q (m fs).1) →
  Config.io_spec Q m Q (λ _, Q) (λ _, Q).
Proof.
  intros Hm fs Hfs. split; [by apply Hm|].
  assert (Q (Config.current fs (m fs).1)) as Hcur.
  { unfold Config.current. destruct (last (m fs).1) as [s|] eqn:Hlast; [|done].
    simpl. apply last_Some in Hlast as [l Hl]. specialize (Hm fs Hfs).
    rewrite Hl in Hm. apply Forall_app in Hm as [_ Hm].
    exact (proj1 (Forall_singleton _ _) Hm). }
  by destruct (m fs).2.
Qed.

End IoTraces.

Section StoreFacts.
Variable homedir : jsstring.
Variable now : N.
Variable stringify : Config.ConfigFile → jsstring.
Variable parse : jsstring → option Config.ConfigFile.
Variable fl : Config.Faults.
Variable read_fault : bool.
Variable env : option jsstring.

Local Abbreviation readConfig := (ConfigApi.readConfig homedir parse fl read_fault).
Local Abbreviation update_config :=
  (ConfigApi.update_config homedir now stringify parse fl read_fault).
Local Abbreviation getDefaults := (ConfigApi.getDefaults homedir parse fl read_fault).
Local Abbreviation getApiKey := (ConfigApi.getApiKey homedir parse fl read_fault env).

Lemma CONFIG_DIR_ne : Config.CONFIG_FILE homedir ≠ Config.CONFIG_DIR homedir.
Proof.
  unfold Config.CONFIG_FILE, Config.join. intros Heq.
  apply (f_equal length) in Heq. rewrite !length_app in Heq.
  change (length (js "config.json")) with 11 in Heq.
  change (length (js "/")) with 1 in Heq. lia.
Qed.

Lemma writeConfig_same_kind config fs0 :
  Config.io_spec (ConfigApi.same_kind homedir fs0)
    (Config.writeConfig homedir now stringify fl config)
    (ConfigApi.same_kind homedir fs0)
    (λ _, ConfigApi.same_kind homedir fs0) (λ _, ConfigApi.same_kind homedir fs0).
Proof.
  pose proof CONFIG_DIR_ne as Hne.
  unfold Config.writeConfig.
  apply io_spec_bind with (mid := λ _, ConfigApi.same_kind homedir fs0).
  { apply io_spec_try with (exn := λ _, ConfigApi.same_kind homedir fs0).
    - apply io_spec_trace. intros fs Hfs.
      unfold Config.ensureConfigDir, Config.mkdirSync.
      destruct (_ || _); [constructor|].
      destruct (Config.mkdir_fault fl); [constructor|].
      apply Forall_singleton. unfold ConfigApi.same_kind in *. simpl.
      rewrite elem_of_union, elem_of_singleton, <-Hfs. split; [|auto].
      by intros [?|?].
    - intros err. by apply io_spec_throw. }
  intros _.
  apply io_spec_try with (exn := λ _, ConfigApi.same_kind homedir fs0).
  { apply io_spec_bind with (mid := λ _, ConfigApi.same_kind homedir fs0).
    - apply io_spec_trace. intros fs Hfs. unfold Config.writeFileSync.
      destruct (Config.write_fault fl) as [[|written]|]; cbn [fst];
        [constructor|..]; apply Forall_fmap, Forall_forall; by intros.
    - intros _. apply io_spec_trace. intros fs Hfs. unfold Config.renameSync.
      destruct (Config.files fs !! _); [|constructor].
      destruct (Config.rename_fault fl); [constructor|].
      by apply Forall_singleton. }
  intros error.
  apply io_spec_bind with (mid := λ _, ConfigApi.same_kind homedir fs0).
  { apply io_spec_try with (exn := λ _, ConfigApi.same_kind homedir fs0).
    - apply io_spec_trace. intros fs Hfs. unfold Config.unlinkSync.
      destruct (Config.files fs !! _); [|constructor].
      destruct (Config.unlink_fault fl); [constructor|].
      by apply Forall_singleton.
    - intros _. by apply io_spec_ret. }
  intros _. by apply io_spec_throw.
Qed.

(** What [readConfig] returns depends on what is stored under the path of
    the config file only. *)
Lemma readConfig_same fs fs' :
  Config.stored homedir fs' = Config.stored homedir fs →
  ConfigApi.same_kind homedir fs fs' →
  readConfig fs' = readConfig fs.
Proof.
  unfold Config.stored, ConfigApi.same_kind. intros Hstored Hkind.
  unfold ConfigApi.readConfig, ConfigApi.existsSync, ConfigApi.readFileSync.
  rewrite Hstored.
  by rewrite (bool_decide_ext _ _ Hkind).
Qed.

Lemma readConfig_stored fs content :
  Config.stored homedir fs = Some content → read_fault = false →
  readConfig fs
  = match parse content with
    | Some config => inr config
    | None => inl (Config.Cli (ConfigApi.parse_failed homedir))
    end.
Proof.
  unfold Config.stored. intros Hstored ->.
  unfold ConfigApi.readConfig, ConfigApi.existsSync, ConfigApi.readFileSync.
  rewrite Hstored. rewrite (bool_decide_true (is_Some (Some content))) by eauto.
  by rewrite orb_true_r.
Qed.

(** A function that reads, changes and writes the config leaves the stored
    config alone when it fails. *)
Lemma update_config_failed change fs e :
  (update_config change fs).2 = inl e →
  readConfig (ConfigApi.after (update_config change) fs) = readConfig fs.
Proof.
  unfold ConfigApi.update_config, ConfigApi.after.
  destruct (ConfigApi.readConfig homedir parse fl read_fault fs)
    as [e'|config] eqn:Hread; [by rewrite <-Hread|].
  rewrite <-Hread. intros Hres.
  destruct (writeConfig_spec homedir now stringify fl (change config) fs fs eq_refl)
    as [_ Hstored].
  destruct (writeConfig_same_kind (change config) fs fs) as [_ Hkind]; [done|].
  rewrite Hres in Hstored, Hkind. destruct Hstored as [Hstored _].
  by apply readConfig_same.
Qed.

(** When it returns, the next read gives the changed config. *)
Lemma update_config_returned change fs :
  (∀ c, parse (stringify c) = Some c) → read_fault = false →
  (update_config change fs).2 = inr () →
  ∃ config, readConfig fs = inr config
            ∧ readConfig (ConfigApi.after (update_config change) fs)
              = inr (change config).
Proof.
  intros Hparse Hfault. unfold ConfigApi.update_config, ConfigApi.after.
  destruct (ConfigApi.readConfig homedir parse fl read_fault fs)
    as [e'|config] eqn:Hread; [done|].
  intros Hres. exists config. split; [done|].
  destruct (writeConfig_spec homedir now stringify fl (change config) fs fs eq_refl)
    as [_ Hstored].
  rewrite Hres in Hstored. destruct Hstored as [Hstored _].
  by rewrite (readConfig_stored _ _ Hstored Hfault), Hparse.
Qed.

Lemma with_default_get key value config :
  ConfigApi.get_key key (ConfigApi.defaults_of (ConfigApi.with_default key value config))
  = value.
Proof.
  unfold ConfigApi.defaults_of, ConfigApi.with_default.
  destruct key, config as [k [[[[|??]|] t]|] [[|c l]|]]; simpl; try done;
    by destruct value as [[|??]|].
Qed.

Lemma with_default_other key other value config :
  other ≠ key →
  ConfigApi.get_key other
    (ConfigApi.defaults_of (ConfigApi.with_default key value config))
  = ConfigApi.get_key other (ConfigApi.defaults_of config).
Proof.
  unfold ConfigApi.defaults_of, ConfigApi.with_default.
  destruct key, other; try done; intros _;
    destruct config as [k [[[[|??]|] t]|] [[|c l]|]]; simpl; try done;
    by destruct value as [[|??]|].
Qed.

End StoreFacts.

Lemma demo_parse_stringify config :
  ConfigApi.demo_parse (ConfigApi.demo_stringify config) = Some config.
Proof.
  unfold ConfigApi.demo_parse, ConfigApi.demo_stringify.
  rewrite decode_encode. by destruct config as [k [[i t]|] l].
Qed.

Lemma as_config_key_valid key :
  ConfigApi.isValidConfigKey key = true ↔ is_Some (ConfigApi.as_config_key key).
Proof.
  unfold ConfigApi.isValidConfigKey, ConfigApi.CONFIG_KEYS, ConfigApi.as_config_key.
  rewrite bool_decide_eq_true. split.
  - intros Hin. repeat case_decide; eauto.
    repeat (apply elem_of_cons in Hin as [Hin|Hin]; [done|]).
    by apply elem_of_nil in Hin.
  - intros [k Hk]. repeat case_decide; subst; try done.
    + apply list_elem_of_here.
    + apply list_elem_of_further, list_elem_of_here.
Qed.

(** X14. [getDefaults] migrates the legacy [defaultTeamId] into the team
    id only: the default team is [defaults.teamId] whenever that key is
    there, even as the empty string, and otherwise the legacy
    [defaultTeamId] when that is not empty; the default team key is
    [defaults.teamKey] in every case. *)
Theorem getDefaults_migrates_legacy_team homedir parse fl read_fault fs config :
  ConfigApi.readConfig homedir parse fl read_fault fs = inr config →
  ConfigApi.getDefaultTeamId homedir parse fl read_fault fs
  = inr (match Config.defaults config ≫= Config.teamId with
         | Some own => Some own
         | None => if ConfigApi.truthy_opt (Config.defaultTeamId config)
                   then Config.defaultTeamId config else None
         end)
  ∧ ConfigApi.getDefaultTeamKey homedir parse fl read_fault fs
    = inr (Config.defaults config ≫= Config.teamKey).
Proof.
  intros Hread.
  unfold ConfigApi.getDefaultTeamId, ConfigApi.getDefaultTeamKey, ConfigApi.getDefaults.
  rewrite Hread. unfold ConfigApi.defaults_of.
  by destruct config as [k [[[[|??]|] t]|] [[|c l]|]].
Qed.

Lemma getDefaults_migrates_legacy_team_witness :
  ConfigApi.readConfig ConfigDemo.homedir ConfigApi.demo_parse ConfigDemo.no_faults
    false StoreDemo.legacy_fs
  = inr StoreDemo.legacy_config
  ∧ ConfigApi.getDefaultTeamId ConfigDemo.homedir ConfigApi.demo_parse
      ConfigDemo.no_faults false StoreDemo.legacy_fs
    = inr (Some (js "TEAM-OLD")).
Proof.
  assert (ConfigApi.readConfig ConfigDemo.homedir ConfigApi.demo_parse
            ConfigDemo.no_faults false StoreDemo.legacy_fs
          = inr StoreDemo.legacy_config) as Hread by (vm_compute; reflexivity).
  split; [exact Hread|].
  exact (proj1 (getDefaults_migrates_legacy_team _ _ _ _ _ _ Hread)).
Defined.

(** X15. A default that [setDefault] has written is the one [getDefaults]
    reads back: when [setDefault] returns, and parsing inverts
    serializing, the key has the value set (none, for [removeDefault],
    a legacy [defaultTeamId] included), the other key and the API key are
    what they were. *)
Theorem setDefault_then_getDefaults homedir now stringify parse fl env key value fs :
  (∀ c, parse (stringify c) = Some c) →
  (ConfigApi.setDefault homedir now stringify parse fl false key value fs).2 = inr () →
  ∃ d d',
    ConfigApi.getDefaults homedir parse fl false fs = inr d
    ∧ ConfigApi.getDefaults homedir parse fl false
        (ConfigApi.after
           (ConfigApi.setDefault homedir now stringify parse fl false key value) fs)
      = inr d'
    ∧ ConfigApi.get_key key d' = value
    ∧ (∀ other, other ≠ key → ConfigApi.get_key other d' = ConfigApi.get_key other d)
    ∧ ConfigApi.getApiKey homedir parse fl false env
        (ConfigApi.after
           (ConfigApi.setDefault homedir now stringify parse fl false key value) fs)
      = ConfigApi.getApiKey homedir parse fl false env fs.
Proof.
  intros Hparse Hres. unfold ConfigApi.setDefault in *.
  destruct (update_config_returned homedir now stringify parse fl false _ fs
              Hparse eq_refl Hres) as (config & Hread & Hread').
  exists (ConfigApi.defaults_of config),
         (ConfigApi.defaults_of (ConfigApi.with_default key value config)).
  unfold ConfigApi.getDefaults, ConfigApi.getApiKey. rewrite Hread, Hread'.
  split_and!; try done.
  - apply with_default_get.
  - intros other Hother. by apply with_default_other.
Qed.

Lemma setDefault_then_getDefaults_witness :
  (ConfigApi.setDefault ConfigDemo.homedir ConfigDemo.now ConfigApi.demo_stringify
     ConfigApi.demo_parse ConfigDemo.no_faults false ConfigApi.KeyTeamId None
     StoreDemo.legacy_fs).2 = inr ()
  ∧ ∃ d d',
      ConfigApi.getDefaults ConfigDemo.homedir ConfigApi.demo_parse ConfigDemo.no_faults
        false StoreDemo.legacy_fs = inr d
      ∧ ConfigApi.getDefaults ConfigDemo.homedir ConfigApi.demo_parse
          ConfigDemo.no_faults false
          (ConfigApi.after
             (ConfigApi.setDefault ConfigDemo.homedir ConfigDemo.now
                ConfigApi.demo_stringify ConfigApi.demo_parse ConfigDemo.no_faults
                false ConfigApi.KeyTeamId None) StoreDemo.legacy_fs)
        = inr d'
      ∧ Config.teamId d = Some (js "TEAM-OLD")
      ∧ ConfigApi.get_key ConfigApi.KeyTeamId d' = None.
Proof.
  assert ((ConfigApi.setDefault ConfigDemo.homedir ConfigDemo.now
             ConfigApi.demo_stringify ConfigApi.demo_parse ConfigDemo.no_faults false
             ConfigApi.KeyTeamId None StoreDemo.legacy_fs).2 = inr ()) as Hres
    by (vm_compute; reflexivity).
  split; [exact Hres|].
  destruct (setDefault_then_getDefaults ConfigDemo.homedir ConfigDemo.now
              ConfigApi.demo_stringify ConfigApi.demo_parse ConfigDemo.no_faults None
              ConfigApi.KeyTeamId None StoreDemo.legacy_fs demo_parse_stringify Hres)
    as (d & d' & Hd & Hd' & Hkey & _).
  exists d, d'. split_and!; [exact Hd|exact Hd'| |exact Hkey].
  assert (ConfigApi.getDefaults ConfigDemo.homedir ConfigApi.demo_parse
            ConfigDemo.no_faults false StoreDemo.legacy_fs
          = inr {| Config.teamId := Some (js "TEAM-OLD"); Config.teamKey := None |})
    as Hlegacy by (vm_compute; reflexivity).
  rewrite Hlegacy in Hd. by injection Hd as <-.
Defined.

(** X16. A failed [setDefault], [saveApiKey] or [removeApiKey] changes
    nothing for the next reader: whatever failed, reading the config, or
    creating the directory, writing the temporary file or renaming it,
    [readConfig] gives afterwards what it gave before. *)
Theorem failed_update_keeps_config homedir now stringify parse fl read_fault fs :
  (∀ key value e,
     (ConfigApi.setDefault homedir now stringify parse fl read_fault key value fs).2
     = inl e →
     ConfigApi.readConfig homedir parse fl read_fault
       (ConfigApi.after
          (ConfigApi.setDefault homedir now stringify parse fl read_fault key value) fs)
     = ConfigApi.readConfig homedir parse fl read_fault fs)
  ∧ (∀ apiKey e,
       (ConfigApi.saveApiKey homedir now stringify parse fl read_fault apiKey fs).2
       = inl e →
       ConfigApi.readConfig homedir parse fl read_fault
         (ConfigApi.after
            (ConfigApi.saveApiKey homedir now stringify parse fl read_fault apiKey) fs)
       = ConfigApi.readConfig homedir parse fl read_fault fs)
  ∧ (∀ e,
       (ConfigApi.removeApiKey homedir now stringify parse fl read_fault fs).2 = inl e →
       ConfigApi.readConfig homedir parse fl read_fault
         (ConfigApi.after
            (ConfigApi.removeApiKey homedir now stringify parse fl read_fault) fs)
       = ConfigApi.readConfig homedir parse fl read_fault fs).
Proof.
  split_and!; intros; by eapply update_config_failed.
Qed.

Lemma failed_update_keeps_config_witness :
  (ConfigApi.saveApiKey ConfigDemo.homedir ConfigDemo.now ConfigApi.demo_stringify
     ConfigApi.demo_parse ConfigDemo.rename_fails false (js "lin_api_new")
     StoreDemo.legacy_fs).2
  = inl (Config.Cli (Config.write_failed (Config.thrown ConfigDemo.rename_fails)))
  ∧ ConfigApi.readConfig ConfigDemo.homedir ConfigApi.demo_parse ConfigDemo.rename_fails
      false
      (ConfigApi.after
         (ConfigApi.saveApiKey ConfigDemo.homedir ConfigDemo.now ConfigApi.demo_stringify
            ConfigApi.demo_parse ConfigDemo.rename_fails false (js "lin_api_new"))
         StoreDemo.legacy_fs)
    = ConfigApi.readConfig ConfigDemo.homedir ConfigApi.demo_parse
        ConfigDemo.rename_fails false StoreDemo.legacy_fs.
Proof.
  assert ((ConfigApi.saveApiKey ConfigDemo.homedir ConfigDemo.now
             ConfigApi.demo_stringify ConfigApi.demo_parse ConfigDemo.rename_fails false
             (js "lin_api_new") StoreDemo.legacy_fs).2
          = inl (Config.Cli (Config.write_failed (Config.thrown ConfigDemo.rename_fails))))
    as Hres by (vm_compute; reflexivity).
  split; [exact Hres|].
  exact (proj1 (proj2 (failed_update_keeps_config ConfigDemo.homedir ConfigDemo.now
                         ConfigApi.demo_stringify ConfigApi.demo_parse
                         ConfigDemo.rename_fails false StoreDemo.legacy_fs))
           _ _ Hres).
Defined.

(** X17. A key that [saveApiKey] has written is the key [requireApiKey]
    returns, unless [LINEAR_API_KEY] is set and not empty, which wins;
    saving the empty string leaves the user unauthenticated. The defaults
    are what they were. (No read fails, and parsing inverts serializing.) *)
Theorem saveApiKey_then_requireApiKey homedir now stringify parse fl env apiKey fs :
  (∀ c, parse (stringify c) = Some c) →
  (ConfigApi.saveApiKey homedir now stringify parse fl false apiKey fs).2 = inr () →
  ConfigApi.requireApiKey homedir parse fl false env
    (ConfigApi.after (ConfigApi.saveApiKey homedir now stringify parse fl false apiKey) fs)
  = (if ConfigApi.truthy_opt env then inr (default [] env)
     else if truthy apiKey then inr apiKey
          else inl (Config.Cli ConfigApi.not_authenticated))
  ∧ ConfigApi.getDefaults homedir parse fl false
      (ConfigApi.after (ConfigApi.saveApiKey homedir now stringify parse fl false apiKey) fs)
    = ConfigApi.getDefaults homedir parse fl false fs.
Proof.
  intros Hparse Hres. unfold ConfigApi.saveApiKey in *.
  destruct (update_config_returned homedir now stringify parse fl false _ fs
              Hparse eq_refl Hres) as (config & Hread & Hread').
  unfold ConfigApi.requireApiKey, ConfigApi.getApiKey, ConfigApi.getDefaults.
  rewrite Hread, Hread'. split; [|done].
  by destruct env as [[|??]|].
Qed.

Lemma saveApiKey_then_requireApiKey_witness :
  (ConfigApi.saveApiKey ConfigDemo.homedir ConfigDemo.now ConfigApi.demo_stringify
     ConfigApi.demo_parse ConfigDemo.no_faults false (js "lin_api_new")
     StoreDemo.empty_fs).2 = inr ()
  ∧ ConfigApi.requireApiKey ConfigDemo.homedir ConfigApi.demo_parse ConfigDemo.no_faults
      false None
      (ConfigApi.after
         (ConfigApi.saveApiKey ConfigDemo.homedir ConfigDemo.now ConfigApi.demo_stringify
            ConfigApi.demo_parse ConfigDemo.no_faults false (js "lin_api_new"))
         StoreDemo.empty_fs)
    = inr (js "lin_api_new").
Proof.
  assert ((ConfigApi.saveApiKey ConfigDemo.homedir ConfigDemo.now
             ConfigApi.demo_stringify ConfigApi.demo_parse ConfigDemo.no_faults false
             (js "lin_api_new") StoreDemo.empty_fs).2 = inr ()) as Hres
    by (vm_compute; reflexivity).
  split; [exact Hres|].
  exact (proj1 (saveApiKey_then_requireApiKey ConfigDemo.homedir ConfigDemo.now
                  ConfigApi.demo_stringify ConfigApi.demo_parse ConfigDemo.no_faults
                  None (js "lin_api_new") StoreDemo.empty_fs
                  demo_parse_stringify Hres)).
Defined.

(** X18. After [removeApiKey] has returned, the config holds no key:
    [getApiKey] gives [LINEAR_API_KEY] when that is set and not empty and
    nothing otherwise, [requireApiKey] then failing with
    [NOT_AUTHENTICATED]. The defaults are what they were. *)
Theorem removeApiKey_then_requireApiKey homedir now stringify parse fl env fs :
  (∀ c, parse (stringify c) = Some c) →
  (ConfigApi.removeApiKey homedir now stringify parse fl false fs).2 = inr () →
  ConfigApi.getApiKey homedir parse fl false env
    (ConfigApi.after (ConfigApi.removeApiKey homedir now stringify parse fl false) fs)
  = inr (if ConfigApi.truthy_opt env then env else None)
  ∧ (ConfigApi.truthy_opt env = false →
     ConfigApi.requireApiKey homedir parse fl false env
       (ConfigApi.after (ConfigApi.removeApiKey homedir now stringify parse fl false) fs)
     = inl (Config.Cli ConfigApi.not_authenticated))
  ∧ ConfigApi.getDefaults homedir parse fl false
      (ConfigApi.after (ConfigApi.removeApiKey homedir now stringify parse fl false) fs)
    = ConfigApi.getDefaults homedir parse fl false fs.
Proof.
  intros Hparse Hres. unfold ConfigApi.removeApiKey in *.
  destruct (update_config_returned homedir now stringify parse fl false _ fs
              Hparse eq_refl Hres) as (config & Hread & Hread').
  unfold ConfigApi.requireApiKey, ConfigApi.getApiKey, ConfigApi.getDefaults.
  rewrite Hread, Hread'.
  split_and!; [by destruct (ConfigApi.truthy_opt env)|by intros ->|done].
Qed.

Lemma removeApiKey_then_requireApiKey_witness :
  (ConfigApi.removeApiKey ConfigDemo.homedir ConfigDemo.now ConfigApi.demo_stringify
     ConfigApi.demo_parse ConfigDemo.no_faults false StoreDemo.legacy_fs).2 = inr ()
  ∧ ConfigApi.requireApiKey ConfigDemo.homedir ConfigApi.demo_parse ConfigDemo.no_faults
      false None StoreDemo.legacy_fs
    = inr (js "lin_api_key")
  ∧ ConfigApi.requireApiKey ConfigDemo.homedir ConfigApi.demo_parse ConfigDemo.no_faults
      false None
      (ConfigApi.after
         (ConfigApi.removeApiKey ConfigDemo.homedir ConfigDemo.now
            ConfigApi.demo_stringify ConfigApi.demo_parse ConfigDemo.no_faults false)
         StoreDemo.legacy_fs)
    = inl (Config.Cli ConfigApi.not_authenticated).
Proof.
  assert ((ConfigApi.removeApiKey ConfigDemo.homedir ConfigDemo.now
             ConfigApi.demo_stringify ConfigApi.demo_parse ConfigDemo.no_faults false
             StoreDemo.legacy_fs).2 = inr ()) as Hres
    by (vm_compute; reflexivity).
  split; [exact Hres|]. split; [vm_compute; reflexivity|].
  exact (proj1 (proj2 (removeApiKey_then_requireApiKey ConfigDemo.homedir ConfigDemo.now
                         ConfigApi.demo_stringify ConfigApi.demo_parse
                         ConfigDemo.no_faults None StoreDemo.legacy_fs
                         demo_parse_stringify Hres)) eq_refl).
Defined.

(** X19. [config list] names a source of the API key exactly when
    [requireApiKey] would return one, and names the environment exactly
    when [LINEAR_API_KEY] is set and not empty; whenever it names a source
    it reports [authenticated]. It lists both defaults, as [getDefaults]
    gives them. *)
Theorem config_list_source homedir parse fl read_fault env fs out :
  ConfigApi.config_list homedir parse fl read_fault env fs = inr out →
  (is_Some (ConfigApi.apiKeySource out)
   ↔ ∃ apiKey, ConfigApi.requireApiKey homedir parse fl read_fault env fs = inr apiKey)
  ∧ (ConfigApi.apiKeySource out = Some (js "environment")
     ↔ ConfigApi.truthy_opt env = true)
  ∧ (is_Some (ConfigApi.apiKeySource out) → ConfigApi.authenticated out = true)
  ∧ ∃ d, ConfigApi.getDefaults homedir parse fl read_fault fs = inr d
         ∧ ConfigApi.list_defaults out
           = [(js "default-team-id", Config.teamId d);
              (js "default-team-key", Config.teamKey d)].
Proof.
  unfold ConfigApi.config_list, ConfigApi.requireApiKey, ConfigApi.getApiKey,
    ConfigApi.getDefaults.
  destruct (ConfigApi.readConfig homedir parse fl read_fault fs) as [e|config];
    [done|].
  assert (js "config" ≠ js "environment") as Hne by (by vm_compute).
  destruct env as [[|c l]|]; simpl; intros [= <-]; simpl;
    try (destruct (Config.apiKey config) as [[|c' l']|]; simpl);
    (split_and!;
     [ split; intros [? ?]; first [done|by eexists]
     | split; [intros Heq; try done; exfalso; apply Hne; congruence|done]
     | first [done|by intros [? ?]]
     | by eexists ]).
Qed.

Lemma config_list_source_witness :
  ∃ out,
    ConfigApi.config_list ConfigDemo.homedir ConfigApi.demo_parse ConfigDemo.no_faults
      false (Some (js "lin_api_env")) StoreDemo.legacy_fs
    = inr out
    ∧ ConfigApi.truthy_opt (Some (js "lin_api_env")) = true
    ∧ ConfigApi.apiKeySource out = Some (js "environment").
Proof.
  destruct (ConfigApi.config_list ConfigDemo.homedir ConfigApi.demo_parse
              ConfigDemo.no_faults false (Some (js "lin_api_env")) StoreDemo.legacy_fs)
    as [e|out] eqn:Hlist; [by vm_compute in Hlist|].
  exists out. split; [reflexivity|]. split; [reflexivity|].
  exact (proj2 (proj1 (proj2 (config_list_source _ _ _ _ _ _ out Hlist))) eq_refl).
Defined.

(** X20. [config set] followed by [config get] of the same key prints the
    value that was set, as set: when [config set] succeeds, [config get]
    finds the key with that value. (No read fails, and parsing inverts
    serializing.) *)
Theorem config_set_then_get homedir now stringify parse fl key value fs out :
  (∀ c, parse (stringify c) = Some c) →
  (ConfigApi.config_set homedir now stringify parse fl false key value fs).2 = inr out →
  ConfigApi.config_get homedir parse fl false key
    (ConfigApi.after
       (ConfigApi.config_set homedir now stringify parse fl false key value) fs)
  = inr {| ConfigApi.get_key_name := key; ConfigApi.get_value := Some value;
           ConfigApi.isSet := true |}
  ∧ ConfigApi.set_key_name out = key ∧ ConfigApi.set_value out = value.
Proof.
  intros Hparse. unfold ConfigApi.after, ConfigApi.config_set, ConfigApi.config_get.
  destruct (ConfigApi.isValidConfigKey key) eqn:Hvalid; [|done]. simpl.
  destruct (ConfigApi.as_config_key key) as [configKey|]; [|done].
  unfold Config.io_bind, ConfigApi.setDefault.
  pose proof (update_config_returned homedir now stringify parse fl false
                (ConfigApi.with_default (ConfigApi.configKeyToDefaultsKey configKey)
                   (Some value)) fs Hparse eq_refl) as Hret.
  unfold ConfigApi.after in Hret.
  destruct (ConfigApi.update_config homedir now stringify parse fl false _ fs)
    as [trace [e|[]]]; [done|].
  simpl in *. rewrite app_nil_r. intros [= <-].
  destruct (Hret eq_refl) as (config & _ & Hread').
  unfold ConfigApi.getDefaults. rewrite Hread', with_default_get. done.
Qed.

Lemma config_set_then_get_witness :
  ∃ out,
    (ConfigApi.config_set ConfigDemo.homedir ConfigDemo.now ConfigApi.demo_stringify
       ConfigApi.demo_parse ConfigDemo.no_faults false (js "default-team-key") (js "ENG")
       StoreDemo.empty_fs).2 = inr out
    ∧ ConfigApi.config_get ConfigDemo.homedir ConfigApi.demo_parse ConfigDemo.no_faults
        false (js "default-team-key")
        (ConfigApi.after
           (ConfigApi.config_set ConfigDemo.homedir ConfigDemo.now
              ConfigApi.demo_stringify ConfigApi.demo_parse ConfigDemo.no_faults false
              (js "default-team-key") (js "ENG"))
           StoreDemo.empty_fs)
      = inr {| ConfigApi.get_key_name := js "default-team-key";
               ConfigApi.get_value := Some (js "ENG"); ConfigApi.isSet := true |}.
Proof.
  destruct (ConfigApi.config_set ConfigDemo.homedir ConfigDemo.now
              ConfigApi.demo_stringify ConfigApi.demo_parse ConfigDemo.no_faults false
              (js "default-team-key") (js "ENG") StoreDemo.empty_fs).2
    as [e|out] eqn:Hset; [by vm_compute in Hset|].
  exists out. split; [reflexivity|].
  exact (proj1 (config_set_then_get _ _ _ _ _ _ _ _ out demo_parse_stringify Hset)).
Defined.

(** X21. [config set] and [config get] check the key before anything
    else: with a key that is not one of [CONFIG_KEYS] they fail with
    [INVALID_INPUT] and the store is neither read nor written; with a key
    that is one, a [CliError] they end with is a [CONFIG_ERROR]. *)
Theorem config_key_is_checked_first homedir now stringify parse fl read_fault key value fs :
  (key ∉ ConfigApi.CONFIG_KEYS →
   ConfigApi.config_set homedir now stringify parse fl read_fault key value fs
   = ([], inl (Config.Cli (ConfigApi.invalid_key key)))
   ∧ ConfigApi.config_get homedir parse fl read_fault key fs
     = inl (Config.Cli (ConfigApi.invalid_key key))
   ∧ code (ConfigApi.invalid_key key) = INVALID_INPUT)
  ∧ (key ∈ ConfigApi.CONFIG_KEYS →
     ∀ e,
       (ConfigApi.config_set homedir now stringify parse fl read_fault key value fs).2
       = inl (Config.Cli e)
       ∨ ConfigApi.config_get homedir parse fl read_fault key fs = inl (Config.Cli e) →
       code e = CONFIG_ERROR).
Proof.
  split.
  - intros Hout. unfold ConfigApi.config_set, ConfigApi.config_get.
    unfold ConfigApi.isValidConfigKey. by rewrite bool_decide_false.
  - intros Hin e. unfold ConfigApi.config_set, ConfigApi.config_get.
    assert (ConfigApi.isValidConfigKey key = true) as Hvalid
      by (by apply bool_decide_eq_true).
    rewrite Hvalid. simpl.
    destruct (proj1 (as_config_key_valid key) Hvalid) as [configKey ->].
    assert (∀ e', ConfigApi.readConfig homedir parse fl read_fault fs
                  = inl (Config.Cli e') → code e' = CONFIG_ERROR) as Hread.
    { unfold ConfigApi.readConfig. intros e'.
      destruct (negb _); [done|]. destruct (ConfigApi.readFileSync _ _ _ _); [done|].
      destruct (parse _); [done|]. by intros [= <-]. }
    intros [Hset|Hget].
    + unfold Config.io_bind, ConfigApi.setDefault, ConfigApi.update_config in Hset.
      destruct (ConfigApi.readConfig homedir parse fl read_fault fs)
        as [e'|config] eqn:Hcfg.
      * simpl in Hset. injection Hset as ->. by apply Hread.
      * destruct (writeConfig_spec homedir now stringify fl
                    (ConfigApi.with_default (ConfigApi.configKeyToDefaultsKey configKey)
                       (Some value) config) fs fs eq_refl) as [_ Hres].
        destruct (Config.writeConfig homedir now stringify fl _ fs)
          as [trace [e'|[]]]; [|done].
        simpl in Hset, Hres. injection Hset as ->.
        destruct Hres as [_ [[[=] _]|[[= ->] _]]]. done.
    + unfold ConfigApi.getDefaults in Hget.
      destruct (ConfigApi.readConfig homedir parse fl read_fault fs)
        as [e'|config] eqn:Hcfg; [|done].
      injection Hget as ->. by apply Hread.
Qed.

Lemma config_key_is_checked_first_witness :
  ((js "team") ∉ ConfigApi.CONFIG_KEYS)
  ∧ ConfigApi.config_set ConfigDemo.homedir ConfigDemo.now ConfigApi.demo_stringify
      ConfigApi.demo_parse ConfigDemo.no_faults false (js "team") (js "ENG")
      StoreDemo.empty_fs
    = ([], inl (Config.Cli (ConfigApi.invalid_key (js "team")))).
Proof.
  assert ((js "team") ∉ ConfigApi.CONFIG_KEYS) as Hout.
  { intros Hin. repeat (apply elem_of_cons in Hin as [Hin|Hin];
                        [by vm_compute in Hin|]).
    by apply elem_of_nil in Hin. }
  split; [exact Hout|].
  exact (proj1 (proj1 (config_key_is_checked_first ConfigDemo.homedir ConfigDemo.now
                         ConfigApi.demo_stringify ConfigApi.demo_parse
                         ConfigDemo.no_faults false (js "team") (js "ENG")
                         StoreDemo.empty_fs) Hout)).
Defined.

(** ** [issues create] and [projects create] *)

Lemma given_truthy flag s : BulkUpdate.given flag = Some s → truthy s = true.
Proof.
  unfold BulkUpdate.given. destruct flag as [s'|]; [|done]. simpl.
  destruct (truthy s') eqn:Hs; [|done]. by intros [= <-].
Qed.

(** X22. The input that [issues create] builds from the single flags is
    complete and holds no empty string of its own making: the title is the
    [--title] flag and not empty; the team id is not empty and is the
    [--team-id] flag or, without that flag, the default team of the
    config; a description, assignee, state or project is there only when
    its flag is not empty; and the label ids, when there, are at least
    one. *)
Theorem issues_create_input_is_complete
    Json parse_json homedir parse fl read_fault flags fs f :
  IssuesCreate.build Json parse_json homedir parse fl read_fault flags fs
  = inr (IssuesCreate.FromFlags Json f) →
  IssuesCreate.title flags = Some (IssuesCreate.in_title f)
  ∧ truthy (IssuesCreate.in_title f) = true
  ∧ truthy (IssuesCreate.in_teamId f) = true
  ∧ (IssuesCreate.team_id flags = Some (IssuesCreate.in_teamId f)
     ∨ IssuesCreate.team_id flags = None
       ∧ ConfigApi.getDefaultTeamId homedir parse fl read_fault fs
         = inr (Some (IssuesCreate.in_teamId f)))
  ∧ Forall (λ field, ∀ s, field = Some s → truthy s = true)
           [IssuesCreate.in_description f; IssuesCreate.in_assigneeId f;
            IssuesCreate.in_stateId f; IssuesCreate.in_projectId f]
  ∧ (∀ l, IssuesCreate.in_labelIds f = Some l → 1 ≤ length l).
Proof.
  unfold IssuesCreate.build, IssuesCreate.teamId.
  destruct (ConfigApi.truthy_opt (IssuesCreate.input flags));
    [by destruct (IssuesCreate.input flags ≫= parse_json)|].
  destruct (IssuesCreate.title flags) as [title|]; [|done].
  destruct (truthy title) eqn:Htitle; [|done].
  assert (∀ team,
    (if truthy team
     then inr (IssuesCreate.FromFlags Json
                 {| IssuesCreate.in_title := title;
                    IssuesCreate.in_teamId := team;
                    IssuesCreate.in_description :=
                      BulkUpdate.given (IssuesCreate.description flags);
                    IssuesCreate.in_priority := IssuesCreate.flag_priority flags;
                    IssuesCreate.in_assigneeId :=
                      BulkUpdate.given (IssuesCreate.assignee_id flags);
                    IssuesCreate.in_stateId :=
                      BulkUpdate.given (IssuesCreate.state_id flags);
                    IssuesCreate.in_projectId :=
                      BulkUpdate.given (IssuesCreate.project_id flags);
                    IssuesCreate.in_estimate := IssuesCreate.flag_estimate flags;
                    IssuesCreate.in_labelIds :=
                      split comma <$> BulkUpdate.given (IssuesCreate.label_ids flags) |})
     else inl (Config.Cli IssuesCreate.team_required))
    = inr (IssuesCreate.FromFlags Json f) →
    IssuesCreate.in_title f = title
    ∧ IssuesCreate.in_teamId f = team ∧ truthy team = true
    ∧ Forall (λ field, ∀ s, field = Some s → truthy s = true)
             [IssuesCreate.in_description f; IssuesCreate.in_assigneeId f;
              IssuesCreate.in_stateId f; IssuesCreate.in_projectId f]
    ∧ (∀ l, IssuesCreate.in_labelIds f = Some l → 1 ≤ length l)) as Hbuilt.
  { intros team. destruct (truthy team); [|done]. intros [= <-]. simpl.
    split_and!; try done.
    - repeat (apply Forall_cons_2; [apply given_truthy|]). apply Forall_nil_2.
    - intros l.
      destruct (BulkUpdate.given (IssuesCreate.label_ids flags)); [|done].
      intros [= <-]. rewrite split_length. lia. }
  destruct (IssuesCreate.team_id flags) as [given|].
  - intros (<- & <- & ? & ? & ?)%Hbuilt. split_and!; auto.
  - destruct (ConfigApi.getDefaultTeamId homedir parse fl read_fault fs)
      as [e|[team|]]; try done.
    intros (<- & <- & ? & ? & ?)%Hbuilt. split_and!; auto.
Qed.

Lemma issues_create_input_is_complete_witness :
  let flags := {| IssuesCreate.input := None;
                  IssuesCreate.title := Some (js "Task");
                  IssuesCreate.team_id := None;
                  IssuesCreate.description := Some [];
                  IssuesCreate.flag_priority := Some 0%Z;
                  IssuesCreate.assignee_id := None;
                  IssuesCreate.state_id := None;
                  IssuesCreate.project_id := None;
                  IssuesCreate.flag_estimate := None;
                  IssuesCreate.label_ids := Some (js "L1, L2") |} in
  ∃ f, IssuesCreate.build unit (λ _, None) ConfigDemo.homedir ConfigApi.demo_parse
         ConfigDemo.no_faults false flags StoreDemo.legacy_fs
       = inr (IssuesCreate.FromFlags unit f)
       ∧ IssuesCreate.in_teamId f = js "TEAM-OLD"
       ∧ truthy (IssuesCreate.in_teamId f) = true.
Proof.
  intros flags.
  destruct (IssuesCreate.build unit (λ _, None) ConfigDemo.homedir ConfigApi.demo_parse
              ConfigDemo.no_faults false flags StoreDemo.legacy_fs)
    as [e|[v|f]] eqn:Hbuild; [by vm_compute in Hbuild..|].
  exists f. split; [reflexivity|]. split.
  - vm_compute in Hbuild. by injection Hbuild as <-.
  - exact (proj1 (proj2 (proj2 (issues_create_input_is_complete _ _ _ _ _ _ _ _ f
                                  Hbuild)))).
Defined.

(** X23. In [issues create] a [--team-id] flag always wins: the config is
    not read, whatever state it is in; and a flag given as the empty
    string is not replaced by the default team, the command ending with
    "Team ID is required" even when a default is configured. *)
Theorem issues_create_team_flag_wins
    Json parse_json homedir parse fl read_fault flags fs given :
  IssuesCreate.team_id flags = Some given →
  (∀ parse' fl' read_fault' fs',
     IssuesCreate.build Json parse_json homedir parse' fl' read_fault' flags fs'
     = IssuesCreate.build Json parse_json homedir parse fl read_fault flags fs)
  ∧ (given = [] →
     ConfigApi.truthy_opt (IssuesCreate.input flags) = false →
     from_option truthy false (IssuesCreate.title flags) = true →
     IssuesCreate.build Json parse_json homedir parse fl read_fault flags fs
     = inl (Config.Cli IssuesCreate.team_required)).
Proof.
  intros Hteam. unfold IssuesCreate.build, IssuesCreate.teamId. rewrite Hteam.
  split; [done|]. intros -> -> Htitle.
  destruct (IssuesCreate.title flags) as [title|]; [|done]. simpl in Htitle.
  by rewrite Htitle.
Qed.

Lemma issues_create_team_flag_wins_witness :
  let flags := {| IssuesCreate.input := None;
                  IssuesCreate.title := Some (js "Task");
                  IssuesCreate.team_id := Some [];
                  IssuesCreate.description := None;
                  IssuesCreate.flag_priority := None;
                  IssuesCreate.assignee_id := None;
                  IssuesCreate.state_id := None;
                  IssuesCreate.project_id := None;
                  IssuesCreate.flag_estimate := None;
                  IssuesCreate.label_ids := None |} in
  ConfigApi.getDefaultTeamId ConfigDemo.homedir ConfigApi.demo_parse
    ConfigDemo.no_faults false StoreDemo.legacy_fs
  = inr (Some (js "TEAM-OLD"))
  ∧ IssuesCreate.build unit (λ _, None) ConfigDemo.homedir ConfigApi.demo_parse
      ConfigDemo.no_faults false flags StoreDemo.legacy_fs
    = inl (Config.Cli IssuesCreate.team_required).
Proof.
  intros flags. split; [vm_compute; reflexivity|].
  exact (proj2 (issues_create_team_flag_wins unit (λ _, None) ConfigDemo.homedir
                  ConfigApi.demo_parse ConfigDemo.no_faults false flags
                  StoreDemo.legacy_fs [] eq_refl)
           eq_refl eq_refl eq_refl).
Defined.

(** X24. [projects create] never asks for a project without teams: the
    team ids it sends are at least one. They are the pieces of the
    [--team-ids] flag, trimmed, when the flag is not empty, the config
    then not being read; with the flag absent or empty they are the
    default team alone, which is not empty. *)
Theorem projects_create_team_ids homedir parse fl read_fault team_ids fs ids :
  ProjectsCreate.teamIds homedir parse fl read_fault team_ids fs = inr ids →
  1 ≤ length ids
  ∧ (ConfigApi.truthy_opt team_ids = true →
     ∃ flag, team_ids = Some flag ∧ ids = split_trim flag ∧ Forall trimmed ids
             ∧ ∀ parse' fl' read_fault' fs',
                 ProjectsCreate.teamIds homedir parse' fl' read_fault' team_ids fs'
                 = inr ids)
  ∧ (ConfigApi.truthy_opt team_ids = false →
     ∃ defaultTeamId,
       ConfigApi.getDefaultTeamId homedir parse fl read_fault fs
       = inr (Some defaultTeamId)
       ∧ truthy defaultTeamId = true ∧ ids = [defaultTeamId]).
Proof.
  unfold ProjectsCreate.teamIds.
  destruct (ConfigApi.truthy_opt team_ids) eqn:Hflag.
  - intros [= <-]. split_and!; [|intros _|done].
    + rewrite split_trim_length. lia.
    + destruct team_ids as [flag|]; [|done]. exists flag. split_and!; try done.
      unfold split_trim. apply Forall_fmap, Forall_forall. intros s _.
      apply trim_trimmed.
  - destruct (ConfigApi.getDefaultTeamId homedir parse fl read_fault fs)
      as [e|[defaultTeamId|]]; try done.
    destruct (truthy defaultTeamId) eqn:Hdefault; [|done].
    intros [= <-]. split_and!; [done|done|]. intros _. by exists defaultTeamId.
Qed.

Lemma projects_create_team_ids_witness :
  ProjectsCreate.teamIds ConfigDemo.homedir ConfigApi.demo_parse ConfigDemo.no_faults
    false (Some []) StoreDemo.legacy_fs
  = inr [js "TEAM-OLD"]
  ∧ 1 ≤ length [js "TEAM-OLD"].
Proof.
  assert (ProjectsCreate.teamIds ConfigDemo.homedir ConfigApi.demo_parse
            ConfigDemo.no_faults false (Some []) StoreDemo.legacy_fs
          = inr [js "TEAM-OLD"]) as Hids by (vm_compute; reflexivity).
  split; [exact Hids|].
  exact (proj1 (projects_create_team_ids _ _ _ _ _ _ _ Hids)).
Defined.

(** ** The formatter *)

(** X25. [truncate] keeps a string within [maxLength] code units, for
    [maxLength] at least one: a string that fits is returned as it is; a
    longer one becomes its first [maxLength - 1] code units and an
    ellipsis, [maxLength] code units in all; truncating twice is
    truncating once. For [maxLength] zero or less the bound does not hold:
    a string that is not empty gives a result that is not empty. *)
Theorem truncate_within_maxLength s maxLength :
  ((1 ≤ maxLength)%Z →
   (Z.of_nat (length (Formatter.truncate (Some s) maxLength)) ≤ maxLength)%Z
   ∧ ((Z.of_nat (length s) ≤ maxLength)%Z → Formatter.truncate (Some s) maxLength = s)
   ∧ ((maxLength < Z.of_nat (length s))%Z →
      Formatter.truncate (Some s) maxLength
      = take (Z.to_nat (maxLength - 1)) s ++ [Formatter.ellipsis]
      ∧ Z.of_nat (length (Formatter.truncate (Some s) maxLength)) = maxLength)
   ∧ Formatter.truncate (Some (Formatter.truncate (Some s) maxLength)) maxLength
     = Formatter.truncate (Some s) maxLength)
  ∧ ((maxLength ≤ 0)%Z → s ≠ [] →
     last (Formatter.truncate (Some s) maxLength) = Some Formatter.ellipsis
     ∧ length (Formatter.truncate (Some s) maxLength)
       = S (Z.to_nat (Z.of_nat (length s) + maxLength - 1))).
Proof.
  assert (∀ l : jsstring, truthy (l ++ [Formatter.ellipsis]) = true) as Hdots
    by (by intros [|??]).
  destruct s as [|c s].
  { split; [|by intros _ ?]. intros Hpos. split_and!; [simpl; lia|done|simpl; lia|done]. }
  destruct (Z.leb_spec (Z.of_nat (length (c :: s))) maxLength) as [Hfits|Hlong].
  - assert (Formatter.truncate (Some (c :: s)) maxLength = c :: s) as Ht.
    { unfold Formatter.truncate. cbn [truthy negb].
      by rewrite (proj2 (Z.leb_le _ _) Hfits). }
    rewrite !Ht. split; [|intros ?; simpl in *; lia].
    intros Hpos. split_and!; try done. intros ?. lia.
  - assert (Formatter.truncate (Some (c :: s)) maxLength
            = Formatter.slice_to (c :: s) (maxLength - 1) ++ [Formatter.ellipsis])
      as Ht.
    { unfold Formatter.truncate. cbn [truthy negb].
      by rewrite (proj2 (Z.leb_gt _ _) Hlong). }
    split.
    + intros Hpos.
      assert (Formatter.slice_to (c :: s) (maxLength - 1)
              = take (Z.to_nat (maxLength - 1)) (c :: s)) as Hslice.
      { unfold Formatter.slice_to. rewrite (proj2 (Z.ltb_ge _ _)) by lia.
        by rewrite Z.min_l by lia. }
      rewrite !Ht, Hslice.
      assert (Z.of_nat (length (take (Z.to_nat (maxLength - 1)) (c :: s)
                                  ++ [Formatter.ellipsis])) = maxLength) as Hlen.
      { rewrite length_app, length_take. simpl in *. lia. }
      split_and!; try done.
      * lia.
      * intros ?. lia.
      * unfold Formatter.truncate. rewrite Hdots. cbn [negb].
        by rewrite (proj2 (Z.leb_le _ _)) by lia.
    + intros Hneg _. rewrite !Ht. unfold Formatter.slice_to.
      rewrite (proj2 (Z.ltb_lt _ _)) by lia.
      split; [by rewrite last_snoc|].
      rewrite length_app, length_take. simpl in *. lia.
Qed.

Lemma truncate_within_maxLength_witness :
  (1 ≤ 5)%Z
  ∧ Formatter.truncate (Some (js "Backlog grooming")) 5
    = take 4 (js "Backlog grooming") ++ [Formatter.ellipsis].
Proof.
  assert (1 ≤ 5)%Z as Hpos by lia.
  assert ((5 < Z.of_nat (length (js "Backlog grooming")))%Z) as Hlong
    by (vm_compute; reflexivity).
  split; [exact Hpos|].
  exact (proj1 (proj1 (proj2 (proj2
           (proj1 (truncate_within_maxLength (js "Backlog grooming") 5) Hpos)))
           Hlong)).
Defined.
